(** * ICAO SELCAL decoder ([selcald.py]): a shallow embedding and its properties

    The program listens to an audio stream, detects pairs of SELCAL tones with
    a bank of Goertzel filters, joins two pairs into a four-letter code and
    prints and logs every validated code.

    Conventions of the embedding.
    - Python floats (samples, magnitudes, powers, [time.time()] readings) are
      real numbers: arithmetic is exact and there is no NaN or infinity.
    - Python [str] values are [string]s; a character is an [ascii].
    - An exception is a value of [exn]; a function that can raise returns a
      [result].
    - The module-level constants keep their names and their values.
    - One turn of the loop of [listen_live] receives the snapshot [samples]
      that it reads, together with the two clock readings it makes; the audio
      callback and the ring buffer that give the snapshot are modelled apart
      ([callback], [roll_buffer]).  A snapshot is never empty (the buffer
      holds [SAMPLE_RATE * WINDOW_SECONDS] = 8000 samples); on the empty list
      the definitions of the filters and of the mean do not follow NumPy,
      which divides by zero there.
    - [print] is taken to succeed; what the reading and the writing of the
      log file can raise is what [io_env] lists. *)

From Stdlib Require Import Reals Lra Lia List String Ascii ZArith Sorted.
From stdpp Require Import gmap strings list pretty.

Local Open Scope R_scope.

Set Warnings "-clear-no-such-hyp".

(** ** Python values and exceptions *)

Inductive exn : Set :=
| ValueError
| IndexError
| TypeError
| OSError
| UnicodeDecodeError.

Inductive result (A : Type) : Type :=
| Ok (a : A)
| Raise (e : exn).

Arguments Ok {A} a.
Arguments Raise {A} e.

#[global] Instance result_ret : MRet result := λ A, Ok.

#[global] Instance result_bind : MBind result := λ A B k r,
  match r with
  | Ok a => k a
  | Raise e => Raise e
  end.

(** Comparisons of reals as booleans, as the [if] statements use them. *)

Definition Rltb (a b : R) : bool := if Rlt_dec a b then true else false.
Definition Rleb (a b : R) : bool := if Rle_dec a b then true else false.
Definition Rgtb (a b : R) : bool := Rltb b a.
Definition Rgeb (a b : R) : bool := Rleb b a.

(** ** CONFIG *)

Definition SAMPLE_RATE : R := 8000.
Definition FULL_CODE_LOCKOUT : R := 4.0.
Definition SILENCE_RMS_MAX : R := 0.00015.
Definition FLATNESS_MAX : R := 0.8.
Definition GOERTZEL_MIN_POWER : R := 0.00018.
Definition GOERTZEL_RATIO : R := 1.8.
Definition PAIR_POWER_SUM : R := 0.003.
Definition PAIR_GAP_MIN : R := 0.45.
Definition PAIR_GAP_MAX : R := 0.9.
(* assigned twice in the source (0.015, then 0.15): the second one is in force *)
Definition PAIR_POWER_MIN : R := 0.15.
Definition PAIR_IMBALANCE_MAX : R := 4.0.

(** ** SELCAL code validation *)

Definition set_of_str (code : string) : gset ascii :=
  list_to_set (list_ascii_of_string code).

Definition is_valid_selcal (code : string) : bool :=
  if negb (String.length code =? 4)%nat then false
  else
    match list_ascii_of_string code with
    | [a; b; c; d] =>
        (* no duplicates anywhere *)
        if negb (size (set_of_str code) =? 4)%nat then false
        (* pairs must be distinct internally (defensive) *)
        else if bool_decide (a = b) || bool_decide (c = d) then false
        else true
    | _ => false
    end.

(** ** Logging

    The log file is seen through text-mode I/O: [None] is a file that does not
    exist, [Some s] a file whose text is [s].  [io_env] says what the reading
    and the writing of the file meet at one call:
    - [read_denied]: [open(LOG_FILE, "r")] or [f.read()] raises something
      other than [FileNotFoundError]; with [not_utf8] it is [f.read()] that
      cannot decode the file ([UnicodeDecodeError]), otherwise an [OSError];
    - [write_denied]: the writing raises an [OSError]; [write_reached] says
      how far it got: [None] when [open(LOG_FILE, "w")] itself raises and the
      file is as it was, [Some n] when the file has been opened, and so
      truncated, and [f.write] or the closing of the file raises after [n]
      characters have reached it. *)

Record io_env : Set := {
  read_denied : bool;
  write_denied : bool;
  not_utf8 : bool;
  write_reached : option nat;
}.

Definition io_ok : io_env :=
  {| read_denied := false; write_denied := false;
     not_utf8 := false; write_reached := None |}.

Definition newline : string := String "010"%char EmptyString.

Definition log_selcal (env : io_env) (line : string) (log_file : option string)
  : option string * option exn :=
  let r_old :=
    match log_file with
    | None => Ok ""%string                       (* except FileNotFoundError *)
    | Some s =>
        if read_denied env
        then Raise (if not_utf8 env then UnicodeDecodeError else OSError)
        else Ok s
    end in
  match r_old with
  | Raise e => (log_file, Some e)
  | Ok old =>
      let text := (line +:+ newline) +:+ old in
      if write_denied env then
        match write_reached env with
        | None => (log_file, Some OSError)
        | Some n => (Some (substring 0 n text), Some OSError)
        end
      else (Some text, None)
  end.

(** ** The registry dictionary *)

(** [str.isspace] on one character (code points below 256). *)
Definition is_space (a : ascii) : bool :=
  let n := nat_of_ascii a in
  ((9 <=? n) && (n <=? 13) || (28 <=? n) && (n <=? 32)
   || (n =? 133) || (n =? 160))%nat.

Fixpoint lstrip (s : list ascii) : list ascii :=
  match s with
  | a :: s' => if is_space a then lstrip s' else s
  | [] => []
  end.

Definition strip (s : string) : string :=
  string_of_list_ascii
    (rev (lstrip (rev (lstrip (list_ascii_of_string s))))).

(** [s.split(sep)] for a one-character separator: never an empty list. *)
Fixpoint split_chars (sep : ascii) (s : list ascii) : list (list ascii) :=
  match s with
  | [] => [[]]
  | a :: s' =>
      if bool_decide (a = sep) then [] :: split_chars sep s'
      else
        match split_chars sep s' with
        | p :: ps => (a :: p) :: ps
        | [] => [[a]]
        end
  end.

Definition split (sep : ascii) (s : string) : list string :=
  map string_of_list_ascii (split_chars sep (list_ascii_of_string s)).

Definition tab : ascii := "009"%char.

Definition describe (reg ac op : string) : string :=
  "(" +:+ reg +:+ " " +:+ ac +:+ " " +:+ op +:+ ")".

(** The body of the [for line in f] loop. *)
Definition dictionary_step (d : gmap string string) (line : string)
  : gmap string string :=
  match split tab (strip line) with
  | code :: reg :: ac :: op :: _ => <[strip code := describe reg ac op]> d
  | _ => d
  end.

(** [load_selcal_dictionary], given the lines of the file: the dictionary and
    the line it prints. *)
Definition load_selcal_dictionary (lines : list string)
  : gmap string string * string :=
  let d := fold_left dictionary_step lines ∅ in
  (d, "Loaded " +:+ pretty (size d) +:+ " SELCAL entries").

(** ** Pair tracker *)

Record PairTracker : Type := {
  current_pair : option string;
  start_time : option R;
  first_pair : option string;
  first_time : option R;
}.

Definition reset : PairTracker :=
  {| current_pair := None; start_time := None;
     first_pair := None; first_time := None |}.

(** The tracker that waits for the second pair. *)
Definition awaiting (fp : string) (t0 : R) : PairTracker :=
  {| current_pair := None; start_time := None;
     first_pair := Some fp; first_time := Some t0 |}.

(** [update] returns the tracker after the call and the returned value
    ([None] or a code).  Subtracting [None] from a float is a [TypeError]. *)
Definition update (self : PairTracker) (pair : string) (now : R)
  : result (PairTracker * option string) :=
  match first_pair self with
  | None =>
      (* still waiting for first pair *)
      Ok ({| current_pair := current_pair self; start_time := start_time self;
             first_pair := Some pair; first_time := Some now |}, None)
  | Some fp =>
      (* same pair repeating: ignore *)
      if bool_decide (pair = fp) then Ok (self, None)
      else
        match first_time self with
        | None => Raise TypeError
        | Some t0 =>
            let gap := now - t0 in
            (* enforce ICAO timing *)
            if negb (Rleb PAIR_GAP_MIN gap && Rleb gap PAIR_GAP_MAX)
            then Ok (reset, None)
            else
              (* got full SELCAL *)
              let code := fp +:+ pair in
              Ok (reset, Some code)
        end
  end.

(** ** DSP *)

(** [int(x)]: truncation towards zero. *)
Definition py_int (x : R) : Z :=
  if Rle_dec 0 x then Int_part x else (- Int_part (- x))%Z.

Definition np_sum (xs : list R) : R := fold_right Rplus 0 xs.

Definition np_mean (xs : list R) : R := np_sum xs / INR (length xs).

Definition square (xs : list R) : list R := map (λ x, x * x) xs.

(** The tuning that both filters compute first: the bin [k] and its
    coefficient. *)
Definition goertzel_bin (n : nat) (freq fs : R) : Z :=
  py_int (0.5 + (INR n * freq) / fs).

Definition goertzel_coeff (n : nat) (freq fs : R) : R :=
  let k := goertzel_bin n freq fs in
  let w := 2.0 * PI * IZR k / INR n in
  2.0 * cos w.

(** The loop of [goertzel_mag] on the pair [(s_prev, s_prev2)]. *)
Definition mag_step (coeff : R) (st : R * R) (x : R) : R * R :=
  let '(s_prev, s_prev2) := st in
  let s := x + coeff * s_prev - s_prev2 in
  (s, s_prev).

Definition goertzel_mag (samples : list R) (freq fs : R) : R :=
  let n := length samples in
  let coeff := goertzel_coeff n freq fs in
  let '(s_prev, s_prev2) := fold_left (mag_step coeff) samples (0, 0) in
  sqrt (s_prev2 ^ 2 + s_prev ^ 2 - s_prev * s_prev2 * coeff).

(** The loop of [goertzel_power] on the pair [(q1, q2)]. *)
Definition power_step (coeff : R) (st : R * R) (s : R) : R * R :=
  let '(q1, q2) := st in
  let q0 := coeff * q1 - q2 + s in
  (q0, q1).

Definition goertzel_power (samples : list R) (freq fs : R) : R :=
  let n := length samples in
  let coeff := goertzel_coeff n freq fs in
  let '(q1, q2) := fold_left (power_step coeff) samples (0, 0) in
  (q1 * q1 + q2 * q2 - q1 * q2 * coeff) / INR n.

Definition confirm_dual_tone (samples : list R) (f1 f2 : R)
  : bool * R * R * R :=
  let p1 := goertzel_power samples f1 SAMPLE_RATE in
  let p2 := goertzel_power samples f2 SAMPLE_RATE in
  let noise := np_mean (square samples) + 1e-12 in
  if Rltb p1 GOERTZEL_MIN_POWER || Rltb p2 GOERTZEL_MIN_POWER
  then (false, p1, p2, noise)
  else if Rltb (Rmin p1 p2) (noise * GOERTZEL_RATIO)
  then (false, p1, p2, noise)
  else if Rltb (p1 + p2) PAIR_POWER_SUM
  then (false, p1, p2, noise)
  else (true, p1, p2, noise).

Definition spectral_flatness (mags : list R) : R :=
  let mags := map (λ m, m + 1e-12) mags in
  exp (np_mean (map ln mags)) / np_mean mags.

(** ** SELCAL pair *)

(** [zip]: stops at the shorter list. *)
Fixpoint zip {A B : Type} (l : list A) (k : list B) : list (A * B) :=
  match l, k with
  | a :: l', b :: k' => (a, b) :: zip l' k'
  | _, _ => []
  end.

(** [sorted(..., key=lambda x: x[1], reverse=True)]: a stable sort, largest
    magnitude first; entries of equal magnitude keep their order. *)
Fixpoint insert_desc (x : string * R) (l : list (string * R))
  : list (string * R) :=
  match l with
  | [] => [x]
  | y :: l' => if Rltb (snd x) (snd y) then y :: insert_desc x l' else x :: l
  end.

Definition sorted_desc (l : list (string * R)) : list (string * R) :=
  fold_right insert_desc [] l.

(** [letters.index(l)]: the first position of [l]. *)
Fixpoint index (letters : list string) (l : string) : result nat :=
  match letters with
  | [] => Raise ValueError
  | x :: letters' =>
      if bool_decide (x = l) then Ok O
      else i ← index letters' l; Ok (S i)
  end.

(** [xs[i]] for [i >= 0]. *)
Definition getitem {A : Type} (xs : list A) (i : nat) : result A :=
  match xs !! i with
  | Some x => Ok x
  | None => Raise IndexError
  end.

Definition decode_selcal (samples : list R) (letters : list string)
    (freqs : list R) : result (option string) :=
  let mags := map (λ f, goertzel_mag samples f SAMPLE_RATE) freqs in
  let ranked := sorted_desc (zip letters mags) in
  match ranked with
  | (l1, m1) :: (l2, m2) :: rest =>
      third ← getitem ranked 2;
      (* third tone protection *)
      if Rgtb (snd third) (m2 * 0.85) then Ok None
      else if bool_decide (l1 = l2) then Ok None
      else
        i1 ← index letters l1;
        i2 ← index letters l2;
        (* canonical order (frequency-based, not magnitude) *)
        '(pr, f1, f2) ←
          (if (i1 <? i2)%nat
           then f1 ← getitem freqs i1; f2 ← getitem freqs i2;
                Ok (l1 +:+ l2, f1, f2)
           else f1 ← getitem freqs i2; f2 ← getitem freqs i1;
                Ok (l2 +:+ l1, f1, f2));
        let '(ok, p1, p2, noise) := confirm_dual_tone samples f1 f2 in
        if negb ok then Ok None
        else if Rltb (p1 + p2) PAIR_POWER_MIN then Ok None
        else
          let ratio := Rmax p1 p2 / Rmax (Rmin p1 p2) 1e-6 in
          if Rgtb ratio PAIR_IMBALANCE_MAX then Ok None
          else
            let flat := spectral_flatness mags in
            if Rgtb flat FLATNESS_MAX then Ok None
            else Ok (Some pr)
  | _ => Raise ValueError          (* ranked[:2] has fewer than two entries *)
  end.

(** ** Live listen *)

(** A reading of [datetime.now()]. *)
Record datetime : Set := {
  year : nat; month : nat; day : nat;
  hour : nat; minute : nat; second : nat;
}.

Definition digit (n : nat) : ascii := ascii_of_nat (48 + n mod 10).

Definition two_digits (n : nat) : string :=
  String (digit (n / 10)) (String (digit n) EmptyString).

(** [strftime("%d/%m/%y %H:%M:%S")] *)
Definition strftime (t : datetime) : string :=
  two_digits (day t) +:+ "/" +:+ two_digits (month t) +:+ "/"
  +:+ two_digits (year t mod 100) +:+ " "
  +:+ two_digits (hour t) +:+ ":" +:+ two_digits (minute t) +:+ ":"
  +:+ two_digits (second t).

(** The variables of [listen_live] that live across turns of the loop, the
    lines printed so far (oldest first) and the log file. *)
Record state : Type := {
  pair_tracker : PairTracker;
  last_full_code : option string;
  last_full_time : R;
  stdout : list string;
  log_file : option string;
}.

(** What one turn of the loop reads from outside. *)
Record tick_input : Type := {
  samples : list R;        (* np.roll(buffer, ...) *)
  now : R;                 (* time.time() *)
  wall_clock : datetime;   (* datetime.now() *)
  io : io_env;
}.

(** A printed code. *)
Record emission : Type := {
  em_code : string;
  em_time : R;
  em_line : string;
}.

(** The end of one turn: the state, the code printed in it if any, and the
    exception that left the loop if any. *)
Record outcome : Type := {
  after : state;
  emitted : option emission;
  raised : option exn;
}.

Definition continue (st : state) : outcome :=
  {| after := st; emitted := None; raised := None |}.

Definition crash (st : state) (e : exn) : outcome :=
  {| after := st; emitted := None; raised := Some e |}.

Definition with_tracker (st : state) (tr : PairTracker) : state :=
  {| pair_tracker := tr; last_full_code := last_full_code st;
     last_full_time := last_full_time st; stdout := stdout st;
     log_file := log_file st |}.

Definition rms (samples : list R) : R := sqrt (np_mean (square samples)).

Definition format_line (ts code desc : string) : string :=
  ts +:+ " " +:+ code +:+ " " +:+ desc.

(** The end of a turn, from [# validate] on: [code] is what the tracker has
    returned and [tr] is the tracker after that call. *)
Definition emit_code (selcal_dict : gmap string string) (st : state)
    (inp : tick_input) (tr : PairTracker) (code : string) : outcome :=
  (* validate *)
  if negb (is_valid_selcal code) then continue (with_tracker st tr)
  (* lockout *)
  else if bool_decide (Some code ≠ last_full_code st)
          || Rgeb (now inp - last_full_time st) FULL_CODE_LOCKOUT
  then
    let ts := strftime (wall_clock inp) in
    let desc := default ""%string (selcal_dict !! code) in
    let line := format_line ts code desc in
    let ev := {| em_code := code; em_time := now inp; em_line := line |} in
    let out := stdout st ++ [line] in                    (* print(line) *)
    match log_selcal (io inp) line (log_file st) with
    | (file, Some e) =>
        (* the exception leaves the loop before the two assignments *)
        {| after := {| pair_tracker := tr;
                       last_full_code := last_full_code st;
                       last_full_time := last_full_time st;
                       stdout := out; log_file := file |};
           emitted := Some ev; raised := Some e |}
    | (file, None) =>
        {| after := {| pair_tracker := tr;
                       last_full_code := Some code;
                       last_full_time := now inp;
                       stdout := out; log_file := file |};
           emitted := Some ev; raised := None |}
    end
  else continue (with_tracker st tr).

(** The body of the inner [while True] loop, after the [sleep]. *)
Definition tick (letters : list string) (freqs : list R)
    (selcal_dict : gmap string string) (st : state) (inp : tick_input)
  : outcome :=
  (* silence gate *)
  if Rltb (rms (samples inp)) SILENCE_RMS_MAX then continue st
  else
    (* decode a pair *)
    match decode_selcal (samples inp) letters freqs with
    | Raise e => crash st e
    | Ok None => continue st
    | Ok (Some pr) =>
        (* join into SELCAL *)
        match update (pair_tracker st) pr (now inp) with
        | Raise e => crash st e
        | Ok (tr, None) => continue (with_tracker st tr)
        | Ok (tr, Some code) => emit_code selcal_dict st inp tr code
        end
    end.

(** The loop on the successive inputs: it ends with the first exception. *)
Fixpoint run (letters : list string) (freqs : list R)
    (selcal_dict : gmap string string) (st : state) (inputs : list tick_input)
  : list emission * state * option exn :=
  match inputs with
  | [] => ([], st, None)
  | inp :: inputs' =>
      let o := tick letters freqs selcal_dict st inp in
      match raised o with
      | Some e => (option_list (emitted o), after o, Some e)
      | None =>
          let '(evs, st', r) := run letters freqs selcal_dict (after o) inputs' in
          (option_list (emitted o) ++ evs, st', r)
      end
  end.

Definition banner : string :=
  newline +:+ "Listening for ICAO SELCAL Codes... Ctrl-C to stop".

Definition stopped : string := newline +:+ "Stopped.".

Definition initial_state (file : option string) : state :=
  {| pair_tracker := reset; last_full_code := None; last_full_time := 0;
     stdout := [banner]; log_file := file |}.

(** [listen_live] on a finite run: the inputs of the turns made before Ctrl-C.
    Only [KeyboardInterrupt] is caught; any other exception leaves the
    function. *)
Definition listen_live (letters : list string) (freqs : list R)
    (selcal_dict : gmap string string) (file : option string)
    (inputs : list tick_input) : list emission * state * option exn :=
  let '(evs, st, r) := run letters freqs selcal_dict (initial_state file) inputs in
  match r with
  | Some e => (evs, st, Some e)
  | None =>
      (evs, {| pair_tracker := pair_tracker st;
               last_full_code := last_full_code st;
               last_full_time := last_full_time st;
               stdout := stdout st ++ [stopped]; log_file := log_file st |},
       None)
  end.


(** ** The window of [listen_live]

    The audio callback writes each incoming sample at [write_pos %
    window_len] of [buffer]; a turn of the loop reads the buffer through
    [np.roll].  [buffer] and [write_pos] are the variables that the callback
    shares with the loop. *)

Definition WINDOW_SECONDS : R := 1.0.

Definition window_len : nat :=
  Z.to_nat (py_int (SAMPLE_RATE * WINDOW_SECONDS)).

Record ring : Type := {
  buffer : list R;
  write_pos : nat;
}.

Definition np_zeros (n : nat) : list R := replicate n 0.

(** [buffer = np.zeros(window_len)], [write_pos = 0] *)
Definition ring_start : ring :=
  {| buffer := np_zeros window_len; write_pos := 0 |}.

(** [callback], on the first channel [mono] of the block of frames. *)
Definition callback (rg : ring) (mono : list R) : ring :=
  fold_left
    (λ rg s, {| buffer := <[(write_pos rg mod window_len)%nat := s]> (buffer rg);
                write_pos := S (write_pos rg) |})
    mono rg.

(** [np.roll(a, shift)] on a one-dimensional array: the last [shift mod n]
    elements come first. *)
Definition np_roll (a : list R) (shift : Z) : list R :=
  let n := length a in
  let k := Z.to_nat (shift mod Z.of_nat n) in
  drop (n - k) a ++ take (n - k) a.

(** [np.roll(buffer, -write_pos % window_len)] *)
Definition roll_buffer (rg : ring) : list R :=
  np_roll (buffer rg) ((- Z.of_nat (write_pos rg)) mod Z.of_nat window_len).

(** ** Notions used in the statements *)

(** The tracker holds the time of a first pair exactly when it holds the
    pair: what [reset] and [update] maintain. *)
Definition paired (tr : PairTracker) : Prop :=
  first_pair tr = None ↔ first_time tr = None.

(** The product of a list of numbers (used to bound a geometric mean). *)
Definition np_prod (xs : list R) : R := fold_right Rmult 1 xs.

(** The number of tone bins whose power is at least [GOERTZEL_MIN_POWER]. *)
Definition strong_bins (samples : list R) (freqs : list R) : nat :=
  length (List.filter
            (λ f, Rgeb (goertzel_power samples f SAMPLE_RATE) GOERTZEL_MIN_POWER)
            freqs).

(** A tone table that lists its frequencies in ascending order. *)
Definition ascending (freqs : list R) : Prop :=
  ∀ i j fi fj, (i < j)%nat → freqs !! i = Some fi → freqs !! j = Some fj →
               fi < fj.

(** What [decode_selcal] has tested by the time it returns the pair [pr]: the
    ranking and the third-tone protection, the two letters and their places
    in the tone table, the powers [p1], [p2] of the two tones in canonical
    order, and the gates of [confirm_dual_tone] and of [decode_selcal]. *)
Definition all_gates_passed (samples : list R) (letters : list string)
    (freqs : list R) (pr : string) : Prop :=
  let mags := map (λ f, goertzel_mag samples f SAMPLE_RATE) freqs in
  ∃ l1 m1 l2 m2 l3 m3 rest i1 i2 g1 g2,
    sorted_desc (zip letters mags) = (l1, m1) :: (l2, m2) :: (l3, m3) :: rest
    ∧ m3 <= 0.85 * m2
    ∧ l1 ≠ l2
    ∧ index letters l1 = Ok i1 ∧ index letters l2 = Ok i2
    ∧ pr = (if (i1 <? i2)%nat then l1 +:+ l2 else l2 +:+ l1)
    ∧ freqs !! (i1 `min` i2)%nat = Some g1
    ∧ freqs !! (i1 `max` i2)%nat = Some g2
    ∧ let p1 := goertzel_power samples g1 SAMPLE_RATE in
      let p2 := goertzel_power samples g2 SAMPLE_RATE in
      let noise := np_mean (square samples) + 1e-12 in
      GOERTZEL_MIN_POWER <= p1 ∧ GOERTZEL_MIN_POWER <= p2
      ∧ noise * GOERTZEL_RATIO <= Rmin p1 p2
      ∧ PAIR_POWER_SUM <= p1 + p2
      ∧ PAIR_POWER_MIN <= p1 + p2
      ∧ Rmax p1 p2 / Rmax (Rmin p1 p2) 1e-6 <= PAIR_IMBALANCE_MAX
      ∧ spectral_flatness mags <= FLATNESS_MAX.

(** A description in parentheses, as [load_selcal_dictionary] builds them. *)
Definition described (desc : string) : Prop :=
  ∃ reg ac op, desc = "(" +:+ reg +:+ " " +:+ ac +:+ " " +:+ op +:+ ")".

(** ** Test signals

    One second of audio whose four-sample pattern repeats 2000 times holds
    energy only at 0, 2000 and 4000 Hz (and at 6000 Hz, the alias of
    2000 Hz), which makes the filters easy to evaluate by hand. *)

Fixpoint cycle (m : nat) (block : list R) : list R :=
  match m with
  | O => []
  | S m' => block ++ cycle m' block
  end.

Definition window_of (a b c d : R) : list R := cycle 2000 [a; b; c; d].

(** Tones at 0 Hz and 4000 Hz. *)
Definition window_AC : list R := window_of 1 0 1 0.
(** A tone at 2000 Hz. *)
Definition window_BD : list R := window_of 1 0 (-1) 0.
(** Tones at 0 Hz and 2000 Hz. *)
Definition window_AB : list R := window_of (3/4) (1/4) (-1/4) (1/4).
(** Tones at 0 Hz and 4000 Hz, the second one louder. *)
Definition window_CA : list R := window_of (9/10) (-1/10) (9/10) (-1/10).
(** A lone tone at 0 Hz. *)
Definition window_A : list R := window_of 1 1 1 1.
(** Silence. *)
Definition window_silent : list R := window_of 0 0 0 0.

Definition letters4 : list string := ["A"; "B"; "C"; "D"]%string.
Definition freqs4 : list R := [0; 2000; 4000; 6000].

Definition letters3 : list string := ["A"; "B"; "C"]%string.
Definition freqs3 : list R := [0; 2000; 4000].

Definition clock_10h (s : nat) : datetime :=
  {| year := 2026; month := 11; day := 6; hour := 10; minute := 0;
     second := s |}.

Definition heard (w : list R) (t : R) (clock : datetime) (env : io_env)
  : tick_input :=
  {| samples := w; now := t; wall_clock := clock; io := env |}.

Definition read_only : io_env :=
  {| read_denied := false; write_denied := true;
     not_utf8 := false; write_reached := None |}.

(** The log file can be opened for writing, but nothing can be written. *)
Definition disk_full : io_env :=
  {| read_denied := false; write_denied := true;
     not_utf8 := false; write_reached := Some 0%nat |}.

Definition registry_lines : list string :=
  [ "ACBD" +:+ String tab ("ZK-OKA" +:+ String tab ("B77W" +:+ String tab
      ("Air New Zealand" +:+ newline))) ]%string.

(** A selective call: the first pair heard at [t], the second one 0.6 s
    later, at second [s] and [s + 1] of the wall clock. *)
Definition call (t : R) (s : nat) (env1 env2 : io_env) : list tick_input :=
  [ heard window_AC t (clock_10h s) env1;
    heard window_BD (t + 0.6) (clock_10h (S s)) env2 ].

(** What the call prints. *)
Definition ACBD_at (dict : gmap string string) (t : R) (s : nat) : emission :=
  {| em_code := "ACBD"; em_time := t + 0.6;
     em_line := format_line (strftime (clock_10h (S s))) "ACBD"
                  (default ""%string (dict !! "ACBD"%string)) |}.

(** The state after the call of 10:00:00 has been printed and logged, with
    the tracker in the state [tr]. *)
Definition after_ACBD (tr : PairTracker) : state :=
  {| pair_tracker := tr;
     last_full_code := Some "ACBD"%string;
     last_full_time := 10 + 0.6;
     stdout := [banner; em_line (ACBD_at ∅ 10 0)];
     log_file := Some (em_line (ACBD_at ∅ 10 0) +:+ newline) |}.


(** ** Notions used in the further statements *)

(** The Fourier sum of a window at the angular frequency [w], from the
    sample number [j] on: real part with [cos], imaginary part with [sin]. *)
Fixpoint dft_from (trig : R → R) (w : R) (j : nat) (xs : list R) : R :=
  match xs with
  | [] => 0
  | x :: xs' => x * trig (w * INR j) + dft_from trig w (S j) xs'
  end.

Definition dft_re (w : R) (xs : list R) : R := dft_from cos w 0 xs.
Definition dft_im (w : R) (xs : list R) : R := dft_from sin w 0 xs.

(** One step of Horner's rule for the same sum: the pair is the real and
    the imaginary part of [y], and [y] becomes [x + (c + i s) y]. *)
Definition horner_step (c s : R) (st : R * R) (x : R) : R * R :=
  (x + c * st.1 - s * st.2, s * st.1 + c * st.2).

(** The angular frequency [w] of both filters. *)
Definition goertzel_omega (n : nat) (freq fs : R) : R :=
  2 * PI * IZR (goertzel_bin n freq fs) / INR n.

(** The order of [ranked]: the larger magnitude first. *)
Definition louder (a b : string * R) : Prop := b.2 <= a.2.

(** Successive calls of [update] on one tracker, with the codes returned. *)
Fixpoint feed (tr : PairTracker) (calls : list (string * R))
  : result (PairTracker * list string) :=
  match calls with
  | [] => Ok (tr, [])
  | (pr, now) :: calls' =>
      '(tr', code) ← update tr pr now;
      '(tr'', codes) ← feed tr' calls';
      Ok (tr'', option_list code ++ codes)
  end.

(** The number of pairs that the tracker holds. *)
Definition pending (tr : PairTracker) : nat :=
  match first_pair tr with Some _ => 1 | None => 0 end.

(** The text of a file that holds the lines, each one ended by a line
    break. *)
Definition unlines (lines : list string) : string :=
  fold_right (λ line rest, line +:+ newline +:+ rest) ""%string lines.

(** The log file after the lines (oldest first) have been logged in turn to
    the file [old]. *)
Definition logged (lines : list string) (old : option string)
  : option string :=
  match lines with
  | [] => old
  | _ => Some (unlines (rev lines) +:+ default ""%string old)
  end.

(** The readings of [time.time()] do not go backwards. *)
Definition clock_steady (inputs : list tick_input) : Prop :=
  StronglySorted (λ a b, now a <= now b) inputs.

(** A field of a line of the registry file: no tab inside. *)
Definition no_tab (s : string) : Prop := tab ∉ list_ascii_of_string s.

(** The first, the last character of the string is not white space. *)
Definition starts_black (s : string) : Prop :=
  ∃ c l, list_ascii_of_string s = c :: l ∧ is_space c = false.

Definition ends_black (s : string) : Prop :=
  ∃ l c, list_ascii_of_string s = l ++ [c] ∧ is_space c = false.

(** The fields, each one followed by a tab, and then [tail]. *)
Definition field_line (fields : list string) (tail : string) : string :=
  fold_right (λ f rest, f +:+ String tab rest) tail fields.
(** * Properties *)

(** ** Comparisons *)

Lemma Rltb_true a b : Rltb a b = true ↔ a < b.
Proof. unfold Rltb. destruct (Rlt_dec a b); split; auto; discriminate. Qed.

Lemma Rltb_false a b : Rltb a b = false ↔ b <= a.
Proof.
  unfold Rltb. destruct (Rlt_dec a b); split; auto; try discriminate; lra.
Qed.

Lemma Rleb_true a b : Rleb a b = true ↔ a <= b.
Proof. unfold Rleb. destruct (Rle_dec a b); split; auto; discriminate. Qed.

Lemma Rleb_false a b : Rleb a b = false ↔ b < a.
Proof.
  unfold Rleb. destruct (Rle_dec a b); split; auto; try discriminate; lra.
Qed.

Lemma Rgtb_true a b : Rgtb a b = true ↔ b < a.
Proof. apply Rltb_true. Qed.

Lemma Rgtb_false a b : Rgtb a b = false ↔ a <= b.
Proof. apply Rltb_false. Qed.

Lemma Rgeb_true a b : Rgeb a b = true ↔ b <= a.
Proof. apply Rleb_true. Qed.

Lemma Rgeb_false a b : Rgeb a b = false ↔ a < b.
Proof. apply Rleb_false. Qed.

(** Decide a comparison of two numerals. *)
Ltac Rcompare :=
  repeat first
    [ rewrite (proj2 (Rltb_true _ _)) by lra
    | rewrite (proj2 (Rltb_false _ _)) by lra
    | rewrite (proj2 (Rleb_true _ _)) by lra
    | rewrite (proj2 (Rleb_false _ _)) by lra ].

(** ** The pair tracker *)

Lemma update_idle (self : PairTracker) (pr : string) (now : R) :
  first_pair self = None →
  update self pr now
  = Ok ({| current_pair := current_pair self; start_time := start_time self;
           first_pair := Some pr; first_time := Some now |}, None).
Proof. intros Hidle. unfold update. by rewrite Hidle. Qed.

Lemma update_same (self : PairTracker) (fp : string) (now : R) :
  first_pair self = Some fp → update self fp now = Ok (self, None).
Proof.
  intros Hfp. unfold update. rewrite Hfp. by rewrite bool_decide_eq_true_2.
Qed.

Lemma update_out_of_gap (self : PairTracker) (fp : string) (t0 : R)
    (pr : string) (now : R) :
  first_pair self = Some fp → first_time self = Some t0 → pr ≠ fp →
  now - t0 < PAIR_GAP_MIN ∨ PAIR_GAP_MAX < now - t0 →
  update self pr now = Ok (reset, None).
Proof.
  intros Hfp Ht0 Hne Hgap. unfold update.
  rewrite Hfp, Ht0, bool_decide_eq_false_2 by done.
  destruct Hgap as [Hlow | Hhigh].
  - by rewrite (proj2 (Rleb_false _ _) Hlow).
  - rewrite (proj2 (Rleb_false _ _) Hhigh).
    by destruct (Rleb PAIR_GAP_MIN (now - t0)).
Qed.

Lemma update_joins (self : PairTracker) (fp : string) (t0 : R)
    (pr : string) (now : R) :
  first_pair self = Some fp → first_time self = Some t0 → pr ≠ fp →
  PAIR_GAP_MIN <= now - t0 <= PAIR_GAP_MAX →
  update self pr now = Ok (reset, Some (fp +:+ pr)).
Proof.
  intros Hfp Ht0 Hne [Hlow Hhigh]. unfold update.
  rewrite Hfp, Ht0, bool_decide_eq_false_2 by done.
  by rewrite (proj2 (Rleb_true _ _) Hlow), (proj2 (Rleb_true _ _) Hhigh).
Qed.

(** C2. [PairTracker.update] is the two-state machine: idle, it stores the
    pair and the time and returns no code; awaiting, the stored pair again is
    ignored and the tracker (so [first_time]) is unchanged; a different pair
    whose gap [now - first_time] is outside [PAIR_GAP_MIN, PAIR_GAP_MAX] resets
    and returns no code; a different pair whose gap is within the bounds
    returns [first_pair + pair] and resets. *)
Theorem update_state_machine :
  (∀ self pr now, first_pair self = None →
     update self pr now
     = Ok ({| current_pair := current_pair self; start_time := start_time self;
              first_pair := Some pr; first_time := Some now |}, None))
  ∧ (∀ self fp now, first_pair self = Some fp →
       update self fp now = Ok (self, None))
  ∧ (∀ self fp t0 pr now,
       first_pair self = Some fp → first_time self = Some t0 → pr ≠ fp →
       now - t0 < PAIR_GAP_MIN ∨ PAIR_GAP_MAX < now - t0 →
       update self pr now = Ok (reset, None))
  ∧ (∀ self fp t0 pr now,
       first_pair self = Some fp → first_time self = Some t0 → pr ≠ fp →
       PAIR_GAP_MIN <= now - t0 <= PAIR_GAP_MAX →
       update self pr now = Ok (reset, Some (fp +:+ pr))).
Proof.
  split; [exact update_idle | split; [exact update_same | split]].
  - exact update_out_of_gap.
  - exact update_joins.
Qed.

Lemma update_state_machine_witness :
  update reset "AB" 10 = Ok (awaiting "AB" 10, None)
  ∧ update (awaiting "AB" 10) "AB" 10.2 = Ok (awaiting "AB" 10, None)
  ∧ update (awaiting "AB" 10) "CD" 10.3 = Ok (reset, None)
  ∧ update (awaiting "AB" 10) "CD" 11 = Ok (reset, None)
  ∧ update (awaiting "AB" 10) "CD" 10.6 = Ok (reset, Some "ABCD"%string).
Proof.
  destruct update_state_machine as (Hidle & Hsame & Hgap & Hcode).
  split; [| split; [| split; [| split]]].
  - exact (Hidle reset "AB"%string 10 eq_refl).
  - exact (Hsame (awaiting "AB" 10) "AB"%string 10.2 eq_refl).
  - apply (Hgap (awaiting "AB" 10) "AB"%string 10 "CD"%string 10.3);
      [reflexivity | reflexivity | discriminate |].
    left. unfold PAIR_GAP_MIN. lra.
  - apply (Hgap (awaiting "AB" 10) "AB"%string 10 "CD"%string 11);
      [reflexivity | reflexivity | discriminate |].
    right. unfold PAIR_GAP_MAX. lra.
  - apply (Hcode (awaiting "AB" 10) "AB"%string 10 "CD"%string 10.6);
      [reflexivity | reflexivity | discriminate |].
    unfold PAIR_GAP_MIN, PAIR_GAP_MAX. lra.
Defined.

(** ** The log file *)

Lemma append_nil_r (s : string) : s +:+ "" = s.
Proof.
  induction s as [| a s IH]; [done |].
  change (String a s +:+ "") with (String a (s +:+ "")). by rewrite IH.
Qed.

Lemma append_assoc (s1 s2 s3 : string) :
  (s1 +:+ s2) +:+ s3 = s1 +:+ s2 +:+ s3.
Proof.
  induction s1 as [| a s1 IH]; [done |].
  change ((String a s1 +:+ s2) +:+ s3) with (String a ((s1 +:+ s2) +:+ s3)).
  by rewrite IH.
Qed.

(** C9. After [log_selcal line] has completed, the log file holds the new
    line, a newline and then all of its previous contents; a file that did
    not exist is created with the line and a newline.  Without an I/O error
    the call does complete. *)
Theorem log_selcal_newest_first (env : io_env) (line : string) :
  (∀ file file',
     log_selcal env line file = (file', None) →
     file' = Some (line +:+ newline +:+ default ""%string file))
  ∧ (∀ file',
       log_selcal env line None = (file', None) →
       file' = Some (line +:+ newline))
  ∧ (∀ file,
       write_denied env = false →
       read_denied env = false ∨ file = None →
       log_selcal env line file
       = (Some (line +:+ newline +:+ default ""%string file), None)).
Proof.
  assert (Hdone : ∀ file file',
    log_selcal env line file = (file', None) →
    file' = Some (line +:+ newline +:+ default ""%string file)).
  { intros file file'. unfold log_selcal.
    destruct file as [old |]; simpl.
    - destruct (read_denied env); [discriminate |].
      destruct (write_denied env);
        [destruct (write_reached env); discriminate |].
      intros [= <-]. by rewrite append_assoc.
    - destruct (write_denied env);
        [destruct (write_reached env); discriminate |].
      intros [= <-]. by rewrite append_assoc. }
  split; [exact Hdone | split].
  - intros file' Hlog. by rewrite (Hdone _ _ Hlog).
  - intros file Hw Hr. unfold log_selcal. rewrite Hw.
    destruct file as [old |]; simpl.
    + destruct Hr as [-> | ?]; [| done]. by rewrite append_assoc.
    + by rewrite append_assoc.
Qed.

Lemma log_selcal_newest_first_witness :
  log_selcal io_ok "06/11/26 10:00:01 ACBD " (Some "old line
"%string)
  = (Some "06/11/26 10:00:01 ACBD 
old line
"%string, None)
  ∧ fst (log_selcal io_ok "06/11/26 10:00:01 ACBD " (Some "old line
"%string))
    = Some ("06/11/26 10:00:01 ACBD " +:+ newline +:+ "old line
")
  ∧ fst (log_selcal io_ok "06/11/26 10:00:01 ACBD " None)
    = Some ("06/11/26 10:00:01 ACBD " +:+ newline).
Proof.
  destruct (log_selcal_newest_first io_ok "06/11/26 10:00:01 ACBD ")
    as (Hdone & Hnew & Hruns).
  split; [| split].
  - apply (Hruns (Some "old line
"%string)); [reflexivity | by left].
  - apply (Hdone (Some "old line
"%string)). reflexivity.
  - apply Hnew. reflexivity.
Defined.

(** ** The Goertzel filters *)

Lemma power_step_mag_step (coeff : R) (st : R * R) (x : R) :
  power_step coeff st x = mag_step coeff st x.
Proof. destruct st as [q1 q2]. unfold power_step, mag_step. f_equal. ring. Qed.

Lemma power_loop_mag_loop (coeff : R) (xs : list R) (st : R * R) :
  fold_left (power_step coeff) xs st = fold_left (mag_step coeff) xs st.
Proof.
  revert st. induction xs as [| x xs IH]; intros st; simpl; [done |].
  by rewrite power_step_mag_step, IH.
Qed.

Lemma goertzel_coeff_bound (n : nat) (freq fs : R) :
  -2 <= goertzel_coeff n freq fs <= 2.
Proof.
  unfold goertzel_coeff.
  pose proof (COS_bound (2.0 * PI * IZR (goertzel_bin n freq fs) / INR n)).
  lra.
Qed.

(** The quantity under the square root is never negative. *)
Lemma radicand_nonneg (coeff s1 s2 : R) :
  -2 <= coeff <= 2 → 0 <= s2 ^ 2 + s1 ^ 2 - s1 * s2 * coeff.
Proof.
  intros Hc.
  destruct (Rle_dec 0 (s1 * s2)) as [Hpos | Hneg].
  - assert (0 <= (s1 - s2) ^ 2) by (apply pow2_ge_0). nra.
  - assert (0 <= (s1 + s2) ^ 2) by (apply pow2_ge_0). nra.
Qed.

Lemma goertzel_power_alt (samples : list R) (freq fs : R) :
  goertzel_power samples freq fs
  = goertzel_mag samples freq fs ^ 2 / INR (length samples).
Proof.
  unfold goertzel_power, goertzel_mag.
  rewrite power_loop_mag_loop.
  destruct (fold_left _ samples (0, 0)) as [s1 s2].
  rewrite pow2_sqrt by (apply radicand_nonneg, goertzel_coeff_bound).
  f_equal. ring.
Qed.

Lemma goertzel_bin_nearest (n : nat) (freq fs : R) :
  0 <= freq → 0 < fs →
  Rabs (IZR (goertzel_bin n freq fs) - INR n * freq / fs) <= 1 / 2.
Proof.
  intros Hf Hfs. unfold goertzel_bin, py_int.
  assert (0 <= INR n * freq / fs) as Hx.
  { apply Rmult_le_pos; [apply Rmult_le_pos; [apply pos_INR | done] |].
    left. by apply Rinv_0_lt_compat. }
  destruct (Rle_dec 0 (0.5 + INR n * freq / fs)) as [_ | Hneg]; [| lra].
  destruct (base_Int_part (0.5 + INR n * freq / fs)) as [Hle Hgt].
  apply Rabs_le. lra.
Qed.

(** C6. On every window (of one sample or more; arithmetic is that of the
    real numbers), [goertzel_power] is the square of [goertzel_mag]
    divided by the window length [N]: both loops are the same recursion with
    the coefficient [2 cos (2 pi k / N)] of the bin [k] nearest to
    [N * freq / fs]; the magnitude is the square root of
    [s1^2 + s2^2 - s1 * s2 * coeff] and the power is that expression over
    [N]. *)
Theorem goertzel_power_is_mag_squared (samples : list R) (freq fs : R) :
  samples ≠ [] →
  let N := INR (length samples) in
  let k := goertzel_bin (length samples) freq fs in
  let coeff := 2 * cos (2 * PI * IZR k / N) in
  goertzel_power samples freq fs = goertzel_mag samples freq fs ^ 2 / N
  ∧ (∃ s1 s2,
       fold_left (mag_step coeff) samples (0, 0) = (s1, s2)
       ∧ fold_left (power_step coeff) samples (0, 0) = (s1, s2)
       ∧ goertzel_mag samples freq fs
         = sqrt (s1 ^ 2 + s2 ^ 2 - s1 * s2 * coeff)
       ∧ goertzel_power samples freq fs
         = (s1 ^ 2 + s2 ^ 2 - s1 * s2 * coeff) / N)
  ∧ (0 <= freq → 0 < fs → Rabs (IZR k - N * freq / fs) <= 1 / 2).
Proof.
  intros _ N k coeff. split; [apply goertzel_power_alt | split].
  - destruct (fold_left (mag_step coeff) samples (0, 0)) as [s1 s2] eqn:Hloop.
    exists s1, s2. split; [done |]. split.
    { by rewrite power_loop_mag_loop. }
    assert (goertzel_coeff (length samples) freq fs = coeff) as Hcoeff.
    { unfold goertzel_coeff, coeff, k, N. replace 2.0 with 2 by lra. reflexivity. }
    split.
    + unfold goertzel_mag. rewrite Hcoeff, Hloop. f_equal. ring.
    + unfold goertzel_power. rewrite Hcoeff, power_loop_mag_loop, Hloop.
      fold N. f_equal. ring.
  - apply goertzel_bin_nearest.
Qed.

Lemma goertzel_power_is_mag_squared_witness :
  goertzel_power [1; 0; -1; 0] 2000 8000
  = goertzel_mag [1; 0; -1; 0] 2000 8000 ^ 2 / INR 4
  ∧ Rabs (IZR (goertzel_bin 4 2000 8000) - INR 4 * 2000 / 8000) <= 1 / 2.
Proof.
  destruct (goertzel_power_is_mag_squared [1; 0; -1; 0] 2000 8000)
    as (Hsq & _ & Hbin); [discriminate |].
  split; [exact Hsq | apply Hbin; lra].
Defined.

(** ** The filters on a periodic window *)

Lemma length_cycle (m : nat) (block : list R) :
  length (cycle m block) = (m * length block)%nat.
Proof.
  induction m as [| m IH]; simpl; [done |].
  by rewrite length_app, IH.
Qed.

Lemma np_sum_app (xs ys : list R) : np_sum (xs ++ ys) = np_sum xs + np_sum ys.
Proof.
  induction xs as [| x xs IH]; simpl; [unfold np_sum; simpl; lra |].
  unfold np_sum in *. simpl. rewrite IH. lra.
Qed.

Lemma np_sum_cycle (m : nat) (block : list R) :
  np_sum (cycle m block) = INR m * np_sum block.
Proof.
  induction m as [| m IH]; [unfold np_sum; simpl; lra |].
  change (cycle (S m) block) with (block ++ cycle m block).
  rewrite np_sum_app, IH, S_INR. lra.
Qed.

Lemma square_cycle (m : nat) (block : list R) :
  square (cycle m block) = cycle m (square block).
Proof.
  induction m as [| m IH]; [done |].
  unfold square in *. simpl. by rewrite map_app, IH.
Qed.

Lemma INR_2000 : INR 2000 = 2000.
Proof. rewrite INR_IZR_INZ. reflexivity. Qed.

Lemma length_window (a b c d : R) :
  INR (length (window_of a b c d)) = 8000.
Proof.
  unfold window_of. rewrite length_cycle, mult_INR, INR_2000. simpl. lra.
Qed.

Lemma mean_square_window (a b c d : R) :
  np_mean (square (window_of a b c d))
  = (a * a + b * b + c * c + d * d) / 4.
Proof.
  unfold np_mean, square. rewrite length_map, length_window.
  fold (square (window_of a b c d)). unfold window_of.
  rewrite square_cycle, np_sum_cycle, INR_2000.
  unfold np_sum. simpl. lra.
Qed.

(** The loop with coefficient 2: the difference of the two state values is
    the running sum of the samples. *)
Lemma mag_loop_dc (xs : list R) (st : R * R) :
  fst (fold_left (mag_step 2) xs st) - snd (fold_left (mag_step 2) xs st)
  = fst st - snd st + np_sum xs.
Proof.
  revert st. induction xs as [| x xs IH]; intros [s s2].
  - unfold np_sum. simpl. lra.
  - simpl fold_left. rewrite IH. unfold np_sum. simpl. lra.
Qed.

(** The loop with coefficient -2 on one period after the other: the sum of
    the two state values moves by [d - c + b - a] per period. *)
Lemma mag_loop_nyquist (m : nat) (a b c d : R) (st : R * R) :
  fst (fold_left (mag_step (-2)) (cycle m [a; b; c; d]) st)
  + snd (fold_left (mag_step (-2)) (cycle m [a; b; c; d]) st)
  = fst st + snd st + INR m * (d - c + b - a).
Proof.
  revert st. induction m as [| m IH]; intros [s s2].
  - simpl. lra.
  - change (cycle (S m) [a; b; c; d]) with ([a; b; c; d] ++ cycle m [a; b; c; d]).
    rewrite fold_left_app, IH, S_INR. simpl. lra.
Qed.

(** The loop with coefficient 0 on one period after the other. *)
Lemma mag_loop_quarter (m : nat) (a b c d : R) (s s2 : R) :
  fold_left (mag_step 0) (cycle m [a; b; c; d]) (s, s2)
  = (s + INR m * (d - b), s2 + INR m * (c - a)).
Proof.
  revert s s2. induction m as [| m IH]; intros s s2.
  - simpl. f_equal; lra.
  - change (cycle (S m) [a; b; c; d]) with ([a; b; c; d] ++ cycle m [a; b; c; d]).
    rewrite fold_left_app. simpl fold_left at 2. rewrite IH, S_INR.
    f_equal; lra.
Qed.

Lemma py_int_half (z : Z) : (0 <= z)%Z → py_int (0.5 + IZR z) = z.
Proof.
  intros Hz. unfold py_int. apply IZR_le in Hz.
  destruct (Rle_dec 0 (0.5 + IZR z)) as [_ | Hneg]; [| lra].
  symmetry. apply Int_part_spec. lra.
Qed.

Lemma goertzel_bin_window (a b c d : R) (z : Z) :
  (0 <= z)%Z →
  goertzel_bin (length (window_of a b c d)) (IZR z) SAMPLE_RATE = z.
Proof.
  intros Hz. unfold goertzel_bin, SAMPLE_RATE. rewrite length_window.
  replace (0.5 + 8000 * IZR z / 8000) with (0.5 + IZR z) by lra.
  by apply py_int_half.
Qed.

Lemma goertzel_coeff_window (a b c d : R) (z : Z) :
  (0 <= z)%Z →
  goertzel_coeff (length (window_of a b c d)) (IZR z) SAMPLE_RATE
  = 2 * cos (PI * IZR z / 4000).
Proof.
  intros Hz. unfold goertzel_coeff.
  rewrite goertzel_bin_window, length_window by done.
  replace (2.0 * PI * IZR z / 8000) with (PI * IZR z / 4000) by lra. lra.
Qed.

Lemma goertzel_coeff_0 (a b c d : R) :
  goertzel_coeff (length (window_of a b c d)) 0 SAMPLE_RATE = 2.
Proof.
  rewrite (goertzel_coeff_window a b c d 0) by lia.
  replace (PI * 0 / 4000) with 0 by lra. rewrite cos_0. lra.
Qed.

Lemma goertzel_coeff_2000 (a b c d : R) :
  goertzel_coeff (length (window_of a b c d)) 2000 SAMPLE_RATE = 0.
Proof.
  rewrite (goertzel_coeff_window a b c d 2000) by lia.
  replace (PI * 2000 / 4000) with (PI / 2) by lra. rewrite cos_PI2. lra.
Qed.

Lemma goertzel_coeff_4000 (a b c d : R) :
  goertzel_coeff (length (window_of a b c d)) 4000 SAMPLE_RATE = -2.
Proof.
  rewrite (goertzel_coeff_window a b c d 4000) by lia.
  replace (PI * 4000 / 4000) with PI by lra. rewrite cos_PI. lra.
Qed.

Lemma goertzel_coeff_6000 (a b c d : R) :
  goertzel_coeff (length (window_of a b c d)) 6000 SAMPLE_RATE = 0.
Proof.
  rewrite (goertzel_coeff_window a b c d 6000) by lia.
  replace (PI * 6000 / 4000) with (3 * (PI / 2)) by lra.
  rewrite cos_3PI2. lra.
Qed.

Lemma np_sum_window (a b c d : R) :
  np_sum (window_of a b c d) = 2000 * (a + b + c + d).
Proof.
  unfold window_of. rewrite np_sum_cycle, INR_2000. unfold np_sum. simpl. lra.
Qed.

(** The four magnitudes of a periodic window. *)
Lemma goertzel_mag_0 (a b c d : R) :
  goertzel_mag (window_of a b c d) 0 SAMPLE_RATE
  = Rabs (2000 * (a + b + c + d)).
Proof.
  unfold goertzel_mag. rewrite goertzel_coeff_0.
  pose proof (mag_loop_dc (window_of a b c d) (0, 0)) as Hdiff.
  rewrite np_sum_window in Hdiff.
  destruct (fold_left (mag_step 2) (window_of a b c d) (0, 0)) as [s1 s2].
  cbn [fst snd] in Hdiff.
  replace (2000 * (a + b + c + d)) with (s1 - s2) by lra.
  replace (s2 ^ 2 + s1 ^ 2 - s1 * s2 * 2) with ((s1 - s2)²)
    by (unfold Rsqr; ring).
  apply sqrt_Rsqr_abs.
Qed.

Lemma goertzel_mag_4000 (a b c d : R) :
  goertzel_mag (window_of a b c d) 4000 SAMPLE_RATE
  = Rabs (2000 * (d - c + b - a)).
Proof.
  unfold goertzel_mag. rewrite goertzel_coeff_4000.
  pose proof (mag_loop_nyquist 2000 a b c d (0, 0)) as Hsum.
  fold (window_of a b c d) in Hsum.
  rewrite INR_2000 in Hsum.
  destruct (fold_left (mag_step (-2)) (window_of a b c d) (0, 0)) as [s1 s2].
  cbn [fst snd] in Hsum.
  replace (2000 * (d - c + b - a)) with (s1 + s2) by lra.
  replace (s2 ^ 2 + s1 ^ 2 - s1 * s2 * -2) with ((s1 + s2)²)
    by (unfold Rsqr; ring).
  apply sqrt_Rsqr_abs.
Qed.

Lemma goertzel_mag_quarter (a b c d freq : R) :
  goertzel_coeff (length (window_of a b c d)) freq SAMPLE_RATE = 0 →
  goertzel_mag (window_of a b c d) freq SAMPLE_RATE
  = sqrt ((2000 * (c - a)) ^ 2 + (2000 * (d - b)) ^ 2).
Proof.
  intros Hcoeff. unfold goertzel_mag. rewrite Hcoeff.
  unfold window_of. rewrite mag_loop_quarter, INR_2000.
  f_equal. ring.
Qed.

Lemma goertzel_mag_2000 (a b c d : R) :
  goertzel_mag (window_of a b c d) 2000 SAMPLE_RATE
  = sqrt ((2000 * (c - a)) ^ 2 + (2000 * (d - b)) ^ 2).
Proof. apply goertzel_mag_quarter, goertzel_coeff_2000. Qed.

Lemma goertzel_mag_6000 (a b c d : R) :
  goertzel_mag (window_of a b c d) 6000 SAMPLE_RATE
  = sqrt ((2000 * (c - a)) ^ 2 + (2000 * (d - b)) ^ 2).
Proof. apply goertzel_mag_quarter, goertzel_coeff_6000. Qed.

Lemma goertzel_power_window (a b c d freq : R) :
  goertzel_power (window_of a b c d) freq SAMPLE_RATE
  = goertzel_mag (window_of a b c d) freq SAMPLE_RATE ^ 2 / 8000.
Proof. by rewrite goertzel_power_alt, length_window. Qed.

(** ** Spectral flatness of a spectrum with an empty bin *)

Lemma np_prod_pos (xs : list R) : Forall (λ x, 0 < x) xs → 0 < np_prod xs.
Proof.
  induction 1 as [| x xs Hx _ IH]; unfold np_prod in *; simpl; [lra |].
  by apply Rmult_lt_0_compat.
Qed.

Lemma sum_ln_prod (xs : list R) :
  Forall (λ x, 0 < x) xs → np_sum (map ln xs) = ln (np_prod xs).
Proof.
  induction 1 as [| x xs Hx Hxs IH]; unfold np_sum, np_prod in *; simpl.
  - by rewrite ln_1.
  - rewrite ln_mult, IH; [done | done |]. by apply np_prod_pos.
Qed.

Lemma ln_le_0 (x : R) : 0 < x → x <= 1 → ln x <= 0.
Proof.
  intros Hpos [Hlt | ->]; [| rewrite ln_1; lra].
  left. rewrite <- ln_1. by apply ln_increasing.
Qed.

Lemma exp_le_1 (x : R) : x <= 0 → exp x <= 1.
Proof.
  intros [Hlt | ->]; [| rewrite exp_0; lra].
  left. rewrite <- exp_0. by apply exp_increasing.
Qed.

(** The geometric mean is at most 1 as soon as the product of the magnitudes
    is; a large enough arithmetic mean then gives a small flatness. *)
Lemma spectral_flatness_small (mags : list R) :
  mags ≠ [] →
  Forall (λ m, 0 <= m) mags →
  np_prod (map (λ m, m + 1e-12) mags) <= 1 →
  1.25 <= np_mean (map (λ m, m + 1e-12) mags) →
  spectral_flatness mags <= FLATNESS_MAX.
Proof.
  intros Hne Hpos Hprod Hmean. unfold spectral_flatness, FLATNESS_MAX.
  set (ms := map (λ m, m + 1e-12) mags) in *.
  assert (Forall (λ x, 0 < x) ms) as Hms.
  { unfold ms. apply Forall_map. eapply Forall_impl; [exact Hpos |].
    intros m Hm. simpl. lra. }
  assert (0 < INR (length (map ln ms))) as Hlen.
  { unfold ms. rewrite !length_map. apply lt_0_INR.
    destruct mags; [done | simpl; lia]. }
  assert (np_mean (map ln ms) <= 0) as Hgeo.
  { unfold np_mean. rewrite sum_ln_prod by done.
    pose proof (ln_le_0 _ (np_prod_pos _ Hms) Hprod) as Hln.
    apply Rinv_0_lt_compat in Hlen. unfold Rdiv. nra. }
  apply exp_le_1 in Hgeo.
  pose proof (exp_pos (np_mean (map ln ms))) as Hexp.
  apply Rle_trans with (1 / np_mean ms).
  - unfold Rdiv. apply Rmult_le_compat_r; [| done].
    left. apply Rinv_0_lt_compat. lra.
  - apply Rle_trans with (1 / 1.25); [| lra].
    unfold Rdiv. apply Rmult_le_compat_l; [lra |].
    apply Rinv_le_contravar; lra.
Qed.

(** ** The detector on the test signals *)

Lemma Rabs_numeral (x y : R) : 0 <= y → x = y ∨ x = - y → Rabs x = y.
Proof.
  intros Hy [-> | ->]; [by apply Rabs_pos_eq |].
  rewrite Rabs_Ropp. by apply Rabs_pos_eq.
Qed.

Lemma sqrt_numeral (x y : R) : 0 <= y → x = y * y → sqrt x = y.
Proof. intros Hy ->. by apply sqrt_square. Qed.

Lemma mags_AC :
  goertzel_mag window_AC 0 SAMPLE_RATE = 4000
  ∧ goertzel_mag window_AC 2000 SAMPLE_RATE = 0
  ∧ goertzel_mag window_AC 4000 SAMPLE_RATE = 4000
  ∧ goertzel_mag window_AC 6000 SAMPLE_RATE = 0.
Proof.
  unfold window_AC.
  rewrite goertzel_mag_0, goertzel_mag_2000, goertzel_mag_4000,
    goertzel_mag_6000.
  rewrite (Rabs_numeral _ 4000), (Rabs_numeral (2000 * (0 - 1 + 0 - 1)) 4000),
    (sqrt_numeral _ 0) by lra.
  done.
Qed.

Lemma mags_BD :
  goertzel_mag window_BD 0 SAMPLE_RATE = 0
  ∧ goertzel_mag window_BD 2000 SAMPLE_RATE = 4000
  ∧ goertzel_mag window_BD 4000 SAMPLE_RATE = 0
  ∧ goertzel_mag window_BD 6000 SAMPLE_RATE = 4000.
Proof.
  unfold window_BD.
  rewrite goertzel_mag_0, goertzel_mag_2000, goertzel_mag_4000,
    goertzel_mag_6000.
  rewrite (Rabs_numeral _ 0), (Rabs_numeral (2000 * (0 - -1 + 0 - 1)) 0),
    (sqrt_numeral _ 4000) by lra.
  done.
Qed.

Lemma mags_AB :
  goertzel_mag window_AB 0 SAMPLE_RATE = 2000
  ∧ goertzel_mag window_AB 2000 SAMPLE_RATE = 2000
  ∧ goertzel_mag window_AB 4000 SAMPLE_RATE = 0.
Proof.
  unfold window_AB.
  rewrite goertzel_mag_0, goertzel_mag_2000, goertzel_mag_4000.
  rewrite (Rabs_numeral _ 2000),
    (Rabs_numeral (2000 * (1 / 4 - -1 / 4 + 1 / 4 - 3 / 4)) 0),
    (sqrt_numeral _ 2000) by lra.
  done.
Qed.

Lemma mags_CA :
  goertzel_mag window_CA 0 SAMPLE_RATE = 3200
  ∧ goertzel_mag window_CA 2000 SAMPLE_RATE = 0
  ∧ goertzel_mag window_CA 4000 SAMPLE_RATE = 4000
  ∧ goertzel_mag window_CA 6000 SAMPLE_RATE = 0.
Proof.
  unfold window_CA.
  rewrite goertzel_mag_0, goertzel_mag_2000, goertzel_mag_4000,
    goertzel_mag_6000.
  rewrite (Rabs_numeral _ 3200),
    (Rabs_numeral (2000 * (-1 / 10 - 9 / 10 + -1 / 10 - 9 / 10)) 4000),
    (sqrt_numeral _ 0) by lra.
  done.
Qed.

Lemma mags_A :
  goertzel_mag window_A 0 SAMPLE_RATE = 8000
  ∧ goertzel_mag window_A 2000 SAMPLE_RATE = 0
  ∧ goertzel_mag window_A 4000 SAMPLE_RATE = 0
  ∧ goertzel_mag window_A 6000 SAMPLE_RATE = 0.
Proof.
  unfold window_A.
  rewrite goertzel_mag_0, goertzel_mag_2000, goertzel_mag_4000,
    goertzel_mag_6000.
  rewrite (Rabs_numeral _ 8000), (Rabs_numeral (2000 * (1 - 1 + 1 - 1)) 0),
    (sqrt_numeral _ 0) by lra.
  done.
Qed.

(** The power of a bin whose magnitude is known. *)
Lemma power_of_mag (a b c d freq m : R) :
  goertzel_mag (window_of a b c d) freq SAMPLE_RATE = m →
  goertzel_power (window_of a b c d) freq SAMPLE_RATE = m * m / 8000.
Proof. intros <-. rewrite goertzel_power_window. lra. Qed.

Lemma confirm_window (a b c d f1 f2 m1 m2 : R) :
  goertzel_mag (window_of a b c d) f1 SAMPLE_RATE = m1 →
  goertzel_mag (window_of a b c d) f2 SAMPLE_RATE = m2 →
  let p1 := m1 * m1 / 8000 in
  let p2 := m2 * m2 / 8000 in
  let noise := (a * a + b * b + c * c + d * d) / 4 + 1e-12 in
  GOERTZEL_MIN_POWER <= p1 → GOERTZEL_MIN_POWER <= p2 →
  noise * GOERTZEL_RATIO <= p1 → noise * GOERTZEL_RATIO <= p2 →
  PAIR_POWER_SUM <= p1 + p2 →
  confirm_dual_tone (window_of a b c d) f1 f2 = (true, p1, p2, noise).
Proof.
  intros Hm1 Hm2 p1 p2 noise Hp1 Hp2 Hn1 Hn2 Hsum.
  unfold confirm_dual_tone.
  rewrite (power_of_mag _ _ _ _ _ _ Hm1), (power_of_mag _ _ _ _ _ _ Hm2),
    mean_square_window.
  fold p1 p2 noise.
  rewrite (proj2 (Rltb_false p1 _)), (proj2 (Rltb_false p2 _)) by done.
  cbn [orb].
  rewrite (proj2 (Rltb_false (Rmin p1 p2) _)) by (by apply Rmin_glb).
  by rewrite (proj2 (Rltb_false (p1 + p2) _)).
Qed.

Ltac flatness_by_empty_bin :=
  apply spectral_flatness_small;
  [ done
  | repeat constructor; lra
  | unfold np_prod; cbn [map fold_right]; lra
  | unfold np_mean, np_sum; cbn [map fold_right length INR]; lra ].

Lemma flatness_AC4 : spectral_flatness [4000; 0; 4000; 0] <= FLATNESS_MAX.
Proof. flatness_by_empty_bin. Qed.

Lemma flatness_BD4 : spectral_flatness [0; 4000; 0; 4000] <= FLATNESS_MAX.
Proof. flatness_by_empty_bin. Qed.

Lemma flatness_CA4 : spectral_flatness [3200; 0; 4000; 0] <= FLATNESS_MAX.
Proof. flatness_by_empty_bin. Qed.

Lemma flatness_AC3 : spectral_flatness [4000; 0; 4000] <= FLATNESS_MAX.
Proof. flatness_by_empty_bin. Qed.

Lemma flatness_AB3 : spectral_flatness [2000; 2000; 0] <= FLATNESS_MAX.
Proof. flatness_by_empty_bin. Qed.

Lemma index_letters4 :
  index letters4 "A" = Ok 0%nat ∧ index letters4 "B" = Ok 1%nat
  ∧ index letters4 "C" = Ok 2%nat ∧ index letters4 "D" = Ok 3%nat.
Proof. repeat split; reflexivity. Qed.

Lemma index_letters3 :
  index letters3 "A" = Ok 0%nat ∧ index letters3 "B" = Ok 1%nat
  ∧ index letters3 "C" = Ok 2%nat.
Proof. repeat split; reflexivity. Qed.

(** Runs [decode_selcal] on a window whose magnitudes have been rewritten to
    numerals: the sort, the rivalry gate and the indices; it stops at the call
    of [confirm_dual_tone]. *)
Ltac decode_rank :=
  cbn [zip sorted_desc fold_right insert_desc snd fst];
  repeat (Rcompare; cbn [insert_desc snd fst]);
  cbn [getitem lookup list_lookup mbind result_bind snd];
  unfold Rgtb; Rcompare;
  rewrite bool_decide_eq_false_2 by discriminate.

(** The gates after [confirm_dual_tone] has accepted. *)
Ltac decode_gates Hflat :=
  cbn [negb]; unfold PAIR_POWER_MIN, PAIR_IMBALANCE_MAX; Rcompare;
  first [ rewrite Rmax_left, Rmin_left, (Rmax_left _ 1e-6) by lra
        | rewrite Rmax_right, Rmin_left, (Rmax_left _ 1e-6) by lra ];
  Rcompare;
  rewrite (proj2 (Rltb_false _ _) Hflat);
  reflexivity.

Ltac confirm_gates :=
  unfold GOERTZEL_MIN_POWER, GOERTZEL_RATIO, PAIR_POWER_SUM; lra.

Lemma decode4_AC :
  decode_selcal window_AC letters4 freqs4 = Ok (Some "AC"%string).
Proof.
  destruct mags_AC as (H0 & H2000 & H4000 & H6000).
  destruct index_letters4 as (HA & HB & HC & HD).
  unfold decode_selcal, freqs4. cbn [map].
  rewrite H0, H2000, H4000, H6000. unfold letters4 in *.
  decode_rank. rewrite HA, HC.
  cbn [getitem lookup list_lookup mbind result_bind Nat.ltb Nat.leb].
  unfold window_AC in *.
  rewrite (confirm_window _ _ _ _ _ _ _ _ H0 H4000) by confirm_gates.
  decode_gates flatness_AC4.
Qed.

Lemma decode4_BD :
  decode_selcal window_BD letters4 freqs4 = Ok (Some "BD"%string).
Proof.
  destruct mags_BD as (H0 & H2000 & H4000 & H6000).
  destruct index_letters4 as (HA & HB & HC & HD).
  unfold decode_selcal, freqs4. cbn [map].
  rewrite H0, H2000, H4000, H6000. unfold letters4 in *.
  decode_rank. rewrite HB, HD.
  cbn [getitem lookup list_lookup mbind result_bind Nat.ltb Nat.leb].
  unfold window_BD in *.
  rewrite (confirm_window _ _ _ _ _ _ _ _ H2000 H6000) by confirm_gates.
  decode_gates flatness_BD4.
Qed.

(** The louder tone is ranked first, the pair is the same. *)
Lemma decode4_CA :
  decode_selcal window_CA letters4 freqs4 = Ok (Some "AC"%string).
Proof.
  destruct mags_CA as (H0 & H2000 & H4000 & H6000).
  destruct index_letters4 as (HA & HB & HC & HD).
  unfold decode_selcal, freqs4. cbn [map].
  rewrite H0, H2000, H4000, H6000. unfold letters4 in *.
  decode_rank. rewrite HA, HC.
  cbn [getitem lookup list_lookup mbind result_bind Nat.ltb Nat.leb].
  unfold window_CA in *.
  rewrite (confirm_window _ _ _ _ _ _ _ _ H0 H4000) by confirm_gates.
  decode_gates flatness_CA4.
Qed.

Lemma decode3_AC :
  decode_selcal window_AC letters3 freqs3 = Ok (Some "AC"%string).
Proof.
  destruct mags_AC as (H0 & H2000 & H4000 & H6000).
  destruct index_letters3 as (HA & HB & HC).
  unfold decode_selcal, freqs3. cbn [map].
  rewrite H0, H2000, H4000. unfold letters3 in *.
  decode_rank. rewrite HA, HC.
  cbn [getitem lookup list_lookup mbind result_bind Nat.ltb Nat.leb].
  unfold window_AC in *.
  rewrite (confirm_window _ _ _ _ _ _ _ _ H0 H4000) by confirm_gates.
  decode_gates flatness_AC3.
Qed.

Lemma decode3_AB :
  decode_selcal window_AB letters3 freqs3 = Ok (Some "AB"%string).
Proof.
  destruct mags_AB as (H0 & H2000 & H4000).
  destruct index_letters3 as (HA & HB & HC).
  unfold decode_selcal, freqs3. cbn [map].
  rewrite H0, H2000, H4000. unfold letters3 in *.
  decode_rank. rewrite HA, HB.
  cbn [getitem lookup list_lookup mbind result_bind Nat.ltb Nat.leb].
  unfold window_AB in *.
  rewrite (confirm_window _ _ _ _ _ _ _ _ H0 H2000) by confirm_gates.
  decode_gates flatness_AB3.
Qed.

(** The silence gate on the test signals. *)
Lemma rms_window (a b c d : R) :
  rms (window_of a b c d) = sqrt ((a * a + b * b + c * c + d * d) / 4).
Proof. unfold rms. by rewrite mean_square_window. Qed.

Lemma loud_window (a b c d : R) :
  1 / 16 <= (a * a + b * b + c * c + d * d) / 4 →
  Rltb (rms (window_of a b c d)) SILENCE_RMS_MAX = false.
Proof.
  intros Hloud. apply Rltb_false. rewrite rms_window.
  apply Rle_trans with (sqrt (1 / 16)); [| by apply sqrt_le_1_alt].
  rewrite (sqrt_numeral (1 / 16) (1 / 4)) by lra.
  unfold SILENCE_RMS_MAX. lra.
Qed.

Lemma rms_silent : rms window_silent = 0.
Proof.
  unfold window_silent. rewrite rms_window.
  apply sqrt_numeral; lra.
Qed.

Lemma strong_bins_A : strong_bins window_A freqs4 = 1%nat.
Proof.
  destruct mags_A as (H0 & H2000 & H4000 & H6000).
  unfold strong_bins, freqs4, window_A in *. cbn [List.filter].
  rewrite (power_of_mag _ _ _ _ _ _ H0), (power_of_mag _ _ _ _ _ _ H2000),
    (power_of_mag _ _ _ _ _ _ H4000), (power_of_mag _ _ _ _ _ _ H6000).
  unfold Rgeb, GOERTZEL_MIN_POWER. Rcompare. reflexivity.
Qed.

Lemma ascending_freqs4 : ascending freqs4.
Proof.
  intros i j fi fj Hlt Hi Hj. unfold freqs4 in *.
  destruct i as [| [| [| [| i]]]]; destruct j as [| [| [| [| j]]]];
    try lia; cbn [lookup list_lookup] in Hi, Hj; try discriminate;
    apply (inj Some) in Hi, Hj; lra.
Qed.

Lemma window_not_empty (a b c d : R) : window_of a b c d ≠ [].
Proof.
  intros Hnil. pose proof (length_window a b c d) as Hlen.
  rewrite Hnil in Hlen. cbn in Hlen. lra.
Qed.

Lemma window_A_not_empty : window_A ≠ [].
Proof. apply window_not_empty. Qed.

Lemma window_silent_not_empty : window_silent ≠ [].
Proof. apply window_not_empty. Qed.

(** ** Validation *)

Lemma size_list_to_set_le (l : list ascii) :
  (size (list_to_set (C:=gset ascii) l) <= length l)%nat.
Proof.
  induction l as [| x l IH]; [done |].
  cbn [list_to_set foldr length].
  rewrite size_union_alt, size_singleton.
  assert (size (list_to_set l ∖ {[x]} : gset ascii)
          ≤ size (list_to_set l : gset ascii))%nat as Hsub
    by (apply subseteq_size; set_solver).
  lia.
Qed.

Lemma size_list_to_set_NoDup (l : list ascii) :
  size (list_to_set (C:=gset ascii) l) = length l ↔ NoDup l.
Proof.
  split; [| apply size_list_to_set].
  induction l as [| x l IH]; [constructor |].
  intros Hsize. pose proof (size_list_to_set_le l) as Hle.
  cbn [list_to_set foldr length] in Hsize.
  destruct (decide (x ∈ l)) as [Hin | Hnotin].
  - replace ({[x]} ∪ list_to_set l : gset ascii) with (list_to_set l : gset ascii)
      in Hsize by set_solver.
    lia.
  - rewrite size_union, size_singleton in Hsize by set_solver.
    constructor; [done |]. apply IH. lia.
Qed.

Lemma length_list_ascii (s : string) :
  length (list_ascii_of_string s) = String.length s.
Proof. induction s as [| a s IH]; simpl; [done | by rewrite IH]. Qed.

Lemma is_valid_selcal_spec (code : string) :
  is_valid_selcal code = true
  ↔ String.length code = 4%nat ∧ NoDup (list_ascii_of_string code).
Proof.
  unfold is_valid_selcal, set_of_str.
  rewrite <- size_list_to_set_NoDup, <- (length_list_ascii code).
  destruct (Nat.eqb_spec (length (list_ascii_of_string code)) 4)
    as [Hlen | Hlen]; cbn [negb]; [| split; [done | tauto]].
  destruct (list_ascii_of_string code) as [| a [| b [| c [| d [| ? ?]]]]];
    try discriminate.
  rewrite Hlen.
  destruct (Nat.eqb_spec (size (list_to_set (C:=gset ascii) [a; b; c; d])) 4)
    as [Hsize | Hsize]; cbn [negb]; [| split; [done | tauto]].
  apply size_list_to_set_NoDup in Hsize as Hnodup.
  rewrite !bool_decide_eq_false_2; [done | |].
  - intros ->. apply NoDup_cons in Hnodup as [_ Hnodup].
    apply NoDup_cons in Hnodup as [_ Hnodup].
    apply NoDup_cons in Hnodup as [Hnotin _]. set_solver.
  - intros ->. apply NoDup_cons in Hnodup as [Hnotin _]. set_solver.
Qed.

Lemma valid_ACBD : is_valid_selcal "ACBD" = true.
Proof. vm_compute. reflexivity. Qed.

Lemma invalid_ACAB : is_valid_selcal "ACAB" = false.
Proof. vm_compute. reflexivity. Qed.

(** ** One turn of the loop *)

Lemma emit_code_emitted dict st inp tr code ev :
  emitted (emit_code dict st inp tr code) = Some ev →
  let o := emit_code dict st inp tr code in
  is_valid_selcal code = true
  ∧ (Some code ≠ last_full_code st
     ∨ FULL_CODE_LOCKOUT <= now inp - last_full_time st)
  ∧ ev = {| em_code := code; em_time := now inp;
            em_line := format_line (strftime (wall_clock inp)) code
                         (default ""%string (dict !! code)) |}
  ∧ stdout (after o) = stdout st ++ [em_line ev]
  ∧ (log_file (after o), raised o)
    = log_selcal (io inp) (em_line ev) (log_file st)
  ∧ pair_tracker (after o) = tr
  ∧ (raised o = None →
     last_full_code (after o) = Some code ∧ last_full_time (after o) = now inp).
Proof.
  intros Hev o. subst o. revert Hev. unfold emit_code.
  destruct (is_valid_selcal code); cbn [negb]; [| discriminate].
  destruct (_ || _) eqn:Hgate; [| discriminate].
  apply orb_true_iff in Hgate.
  rewrite bool_decide_eq_true, Rgeb_true in Hgate.
  destruct (log_selcal _ _ _) as [file [e |]] eqn:Hlog;
    cbn [emitted after raised stdout log_file pair_tracker last_full_code
         last_full_time];
    intros [= <-]; cbn [em_line]; rewrite Hlog; done.
Qed.

Lemma emit_code_quiet dict st inp tr code :
  emitted (emit_code dict st inp tr code) = None →
  emit_code dict st inp tr code = continue (with_tracker st tr)
  ∧ (is_valid_selcal code = false
     ∨ (last_full_code st = Some code
        ∧ now inp - last_full_time st < FULL_CODE_LOCKOUT)).
Proof.
  unfold emit_code.
  destruct (is_valid_selcal code); cbn [negb]; [| by auto].
  destruct (_ || _) eqn:Hgate.
  - by destruct (log_selcal _ _ _) as [file [e |]].
  - intros _. split; [done | right].
    apply orb_false_iff in Hgate as [Hsame Hsoon].
    apply bool_decide_eq_false in Hsame. apply Rgeb_false in Hsoon.
    split; [| done]. by destruct (decide (last_full_code st = Some code)).
Qed.

(** A turn prints a code only by reaching the last stage. *)
Lemma tick_emitted_inv letters freqs dict st inp ev :
  emitted (tick letters freqs dict st inp) = Some ev →
  ∃ pr tr code,
    Rltb (rms (samples inp)) SILENCE_RMS_MAX = false
    ∧ decode_selcal (samples inp) letters freqs = Ok (Some pr)
    ∧ update (pair_tracker st) pr (now inp) = Ok (tr, Some code)
    ∧ tick letters freqs dict st inp = emit_code dict st inp tr code.
Proof.
  unfold tick.
  destruct (Rltb _ _) eqn:Hloud; [discriminate |].
  destruct (decode_selcal _ _ _) as [[pr |] | e] eqn:Hdec; try discriminate.
  destruct (update _ _ _) as [[tr [code |]] | e] eqn:Hup; try discriminate.
  intros _. by exists pr, tr, code.
Qed.

(** A turn that prints nothing leaves the terminal, the log file and the
    lockout variables as they were. *)
Lemma tick_quiet letters freqs dict st inp :
  emitted (tick letters freqs dict st inp) = None →
  let st' := after (tick letters freqs dict st inp) in
  stdout st' = stdout st ∧ log_file st' = log_file st
  ∧ last_full_code st' = last_full_code st
  ∧ last_full_time st' = last_full_time st.
Proof.
  unfold tick.
  destruct (Rltb _ _) eqn:Hloud; [done |].
  destruct (decode_selcal _ _ _) as [[pr |] | e] eqn:Hdec; try done.
  destruct (update _ _ _) as [[tr [code |]] | e] eqn:Hup; try done.
  intros Hquiet. apply emit_code_quiet in Hquiet as [-> _]. done.
Qed.

Lemma tick_joined letters freqs dict st inp pr tr code :
  Rltb (rms (samples inp)) SILENCE_RMS_MAX = false →
  decode_selcal (samples inp) letters freqs = Ok (Some pr) →
  update (pair_tracker st) pr (now inp) = Ok (tr, Some code) →
  tick letters freqs dict st inp = emit_code dict st inp tr code.
Proof. intros Hloud Hdec Hup. unfold tick. by rewrite Hloud, Hdec, Hup. Qed.

(** ** The detector *)

Lemma insert_desc_elem (x y : string * R) (l : list (string * R)) :
  y ∈ insert_desc x l ↔ y = x ∨ y ∈ l.
Proof.
  induction l as [| z l IH]; cbn [insert_desc].
  - set_solver.
  - destruct (Rltb x.2 z.2); [rewrite elem_of_cons, IH |]; set_solver.
Qed.

Lemma sorted_desc_elem (y : string * R) (l : list (string * R)) :
  y ∈ sorted_desc l ↔ y ∈ l.
Proof.
  induction l as [| x l IH]; cbn [sorted_desc fold_right]; [done |].
  fold (sorted_desc l). rewrite insert_desc_elem, IH. set_solver.
Qed.

Lemma length_insert_desc (x : string * R) (l : list (string * R)) :
  length (insert_desc x l) = S (length l).
Proof.
  induction l as [| z l IH]; cbn [insert_desc]; [done |].
  destruct (Rltb x.2 z.2); cbn [length]; [by rewrite IH | done].
Qed.

Lemma length_sorted_desc (l : list (string * R)) :
  length (sorted_desc l) = length l.
Proof.
  induction l as [| x l IH]; cbn [sorted_desc fold_right]; [done |].
  fold (sorted_desc l). by rewrite length_insert_desc, IH.
Qed.

Lemma length_zip {A B : Type} (l : list A) (k : list B) :
  length (zip l k) = (length l `min` length k)%nat.
Proof.
  revert k. induction l as [| a l IH]; intros [| b k]; cbn [zip length];
    [done | done | done |].
  rewrite IH. lia.
Qed.

Lemma zip_elem {A B : Type} (l : list A) (k : list B) (a : A) (b : B) :
  (a, b) ∈ zip l k → ∃ j, l !! j = Some a ∧ k !! j = Some b.
Proof.
  revert k. induction l as [| a' l IH]; intros [| b' k]; cbn [zip];
    try (intros Hin; by apply elem_of_nil in Hin).
  intros [[= -> ->] | Hin]%elem_of_cons.
  - by exists 0%nat.
  - destruct (IH _ Hin) as (j & Hl & Hk). by exists (S j).
Qed.

Lemma index_lookup (letters : list string) (l : string) (i : nat) :
  index letters l = Ok i → letters !! i = Some l.
Proof.
  revert i. induction letters as [| x letters IH]; intros i; cbn [index];
    [discriminate |].
  destruct (decide (x = l)) as [-> | Hne].
  - rewrite bool_decide_eq_true_2 by done. by intros [= <-].
  - rewrite bool_decide_eq_false_2 by done.
    destruct (index letters l) as [i' |] eqn:Hidx; [| discriminate].
    intros [= <-]. by apply IH.
Qed.

(** [index] finds every letter of the list, at or before any position that
    holds it. *)
Lemma index_first (letters : list string) (l : string) (j : nat) :
  letters !! j = Some l → ∃ i, index letters l = Ok i ∧ (i <= j)%nat.
Proof.
  revert j. induction letters as [| x letters IH]; intros j; [done |].
  cbn [index]. destruct (decide (x = l)) as [-> | Hne].
  - rewrite bool_decide_eq_true_2 by done. intros _. exists 0%nat.
    split; [done | lia].
  - rewrite bool_decide_eq_false_2 by done.
    destruct j as [| j]; [by intros [= ->] |].
    intros Hj. destruct (IH _ Hj) as (i & -> & Hle).
    exists (S i). split; [done | lia].
Qed.

(** What an accepted window satisfies: every test that [decode_selcal] and
    [confirm_dual_tone] make on the way to [return pair]. *)
Lemma decode_selcal_inv (samples : list R) (letters : list string)
    (freqs : list R) (pr : string) :
  decode_selcal samples letters freqs = Ok (Some pr) →
  let mags := map (λ f, goertzel_mag samples f SAMPLE_RATE) freqs in
  ∃ l1 m1 l2 m2 l3 m3 rest i1 i2 f1 f2,
    sorted_desc (zip letters mags) = (l1, m1) :: (l2, m2) :: (l3, m3) :: rest
    ∧ m3 <= m2 * 0.85
    ∧ l1 ≠ l2
    ∧ index letters l1 = Ok i1 ∧ index letters l2 = Ok i2
    ∧ (pr, f1, f2)
      = (if (i1 <? i2)%nat then (l1 +:+ l2, freqs !! i1, freqs !! i2)
         else (l2 +:+ l1, freqs !! i2, freqs !! i1))
    ∧ ∃ g1 g2, f1 = Some g1 ∧ f2 = Some g2 ∧
      let p1 := goertzel_power samples g1 SAMPLE_RATE in
      let p2 := goertzel_power samples g2 SAMPLE_RATE in
      let noise := np_mean (square samples) + 1e-12 in
      GOERTZEL_MIN_POWER <= p1 ∧ GOERTZEL_MIN_POWER <= p2
      ∧ noise * GOERTZEL_RATIO <= Rmin p1 p2
      ∧ PAIR_POWER_SUM <= p1 + p2
      ∧ PAIR_POWER_MIN <= p1 + p2
      ∧ Rmax p1 p2 / Rmax (Rmin p1 p2) 1e-6 <= PAIR_IMBALANCE_MAX
      ∧ spectral_flatness mags <= FLATNESS_MAX.
Proof.
  intros Hdec mags. revert Hdec. unfold decode_selcal. fold mags.
  destruct (sorted_desc (zip letters mags))
    as [| [l1 m1] [| [l2 m2] [| [l3 m3] rest]]] eqn:Hranked;
    try discriminate.
  cbn [getitem lookup list_lookup mbind result_bind snd].
  destruct (Rgtb m3 (m2 * 0.85)) eqn:Hrival; [discriminate |].
  apply Rgtb_false in Hrival.
  destruct (bool_decide (l1 = l2)) eqn:Hsame; [discriminate |].
  apply bool_decide_eq_false in Hsame.
  destruct (index letters l1) as [i1 |] eqn:Hi1; [| discriminate].
  destruct (index letters l2) as [i2 |] eqn:Hi2; [| discriminate].
  cbn [mbind result_bind].
  intros Hrest.
  assert (∃ pr' g1 g2,
    (pr', Some g1, Some g2)
    = (if (i1 <? i2)%nat then (l1 +:+ l2, freqs !! i1, freqs !! i2)
       else (l2 +:+ l1, freqs !! i2, freqs !! i1))
    ∧ (let '(ok, p1, p2, _) := confirm_dual_tone samples g1 g2 in
       if negb ok then Ok None
       else if Rltb (p1 + p2) PAIR_POWER_MIN then Ok None
       else if Rgtb (Rmax p1 p2 / Rmax (Rmin p1 p2) 1e-6) PAIR_IMBALANCE_MAX
       then Ok None
       else if Rgtb (spectral_flatness mags) FLATNESS_MAX then Ok None
       else Ok (Some pr')) = Ok (Some pr)) as (pr' & g1 & g2 & Hpick & Hgates).
  { destruct (i1 <? i2)%nat; unfold getitem in Hrest;
      [destruct (freqs !! i1) as [g1 |]; [| discriminate];
       destruct (freqs !! i2) as [g2 |]; [| discriminate]
      |destruct (freqs !! i2) as [g1 |]; [| discriminate];
       destruct (freqs !! i1) as [g2 |]; [| discriminate]];
      cbn [mbind result_bind] in Hrest; eauto. }
  clear Hrest. revert Hgates. unfold confirm_dual_tone.
  set (p1 := goertzel_power samples g1 SAMPLE_RATE).
  set (p2 := goertzel_power samples g2 SAMPLE_RATE).
  set (noise := np_mean (square samples) + 1e-12).
  destruct (Rltb p1 GOERTZEL_MIN_POWER) eqn:Hp1; [discriminate |].
  destruct (Rltb p2 GOERTZEL_MIN_POWER) eqn:Hp2; [discriminate |].
  cbn [orb].
  destruct (Rltb (Rmin p1 p2) (noise * GOERTZEL_RATIO)) eqn:Hsnr;
    [discriminate |].
  destruct (Rltb (p1 + p2) PAIR_POWER_SUM) eqn:Hsum; [discriminate |].
  cbn [negb].
  destruct (Rltb (p1 + p2) PAIR_POWER_MIN) eqn:Hmin; [discriminate |].
  destruct (Rgtb _ PAIR_IMBALANCE_MAX) eqn:Hbal; [discriminate |].
  destruct (Rgtb _ FLATNESS_MAX) eqn:Hflat; [discriminate |].
  intros [= ->].
  apply Rltb_false in Hp1, Hp2, Hsnr, Hsum, Hmin.
  apply Rgtb_false in Hbal, Hflat.
  exists l1, m1, l2, m2, l3, m3, rest, i1, i2, (Some g1), (Some g2).
  repeat (split; [done |]).
  exists g1, g2. done.
Qed.

(** With at least three letters and three frequencies [decode_selcal] raises
    nothing. *)
Lemma decode_selcal_returns (samples : list R) (letters : list string)
    (freqs : list R) :
  (3 <= length letters)%nat → (3 <= length freqs)%nat →
  ∃ r, decode_selcal samples letters freqs = Ok r.
Proof.
  intros Hletters Hfreqs. unfold decode_selcal.
  set (mags := map (λ f, goertzel_mag samples f SAMPLE_RATE) freqs).
  assert (length mags = length freqs) as Hmags by apply length_map.
  pose proof (length_sorted_desc (zip letters mags)) as Hlen.
  rewrite length_zip in Hlen.
  assert (∀ l m, (l, m) ∈ sorted_desc (zip letters mags) →
          ∃ i, index letters l = Ok i ∧ is_Some (freqs !! i)) as Hindex.
  { intros l m Hin. apply sorted_desc_elem, zip_elem in Hin as (j & Hl & Hm).
    destruct (index_first _ _ _ Hl) as (i & Hi & Hle).
    exists i. split; [done |]. apply lookup_lt_is_Some.
    apply lookup_lt_Some in Hm. lia. }
  destruct (sorted_desc (zip letters mags))
    as [| [l1 m1] [| [l2 m2] [| [l3 m3] rest]]];
    cbn [length] in Hlen; try lia.
  destruct (Hindex l1 m1) as (i1 & Hi1 & [g1 Hg1]); [set_solver |].
  destruct (Hindex l2 m2) as (i2 & Hi2 & [g2 Hg2]); [set_solver |].
  cbn [getitem lookup list_lookup mbind result_bind snd].
  destruct (Rgtb m3 (m2 * 0.85)); [by eexists |].
  destruct (bool_decide (l1 = l2)); [by eexists |].
  rewrite Hi1, Hi2. cbn [mbind result_bind]. unfold getitem.
  rewrite Hg1, Hg2. cbn [mbind result_bind].
  destruct (i1 <? i2)%nat; cbn [mbind result_bind];
    (destruct (confirm_dual_tone _ _ _) as [[[ok p1] p2] noise];
     destruct (negb ok); [by eexists |];
     destruct (Rltb _ _); [by eexists |];
     destruct (Rgtb _ _); [by eexists |];
     destruct (Rgtb _ _); by eexists).
Qed.

Lemma two_in_filter {A : Type} (P : A → bool) (l : list A) (i j : nat)
    (x y : A) :
  (i < j)%nat → l !! i = Some x → l !! j = Some y →
  P x = true → P y = true → (2 <= length (List.filter P l))%nat.
Proof.
  intros Hij Hi Hj Hx Hy.
  rewrite <- (take_drop_middle l i x Hi), List.filter_app, length_app.
  cbn [List.filter]. rewrite Hx. cbn [length].
  assert (drop (S i) l !! (j - S i)%nat = Some y) as Hj'.
  { rewrite lookup_drop. rewrite <- Hj. f_equal. lia. }
  rewrite <- (take_drop_middle _ _ _ Hj'), List.filter_app, length_app.
  cbn [List.filter]. rewrite Hy. cbn [length]. lia.
Qed.

Lemma index_inj (letters : list string) (l1 l2 : string) (i : nat) :
  index letters l1 = Ok i → index letters l2 = Ok i → l1 = l2.
Proof.
  intros H1%index_lookup H2%index_lookup. congruence.
Qed.

(** The pair that is returned, in the order of the tone table. *)
Lemma decode_selcal_pair (samples : list R) (letters : list string)
    (freqs : list R) (pr : string) :
  decode_selcal samples letters freqs = Ok (Some pr) →
  ∃ la lb ia ib fa fb,
    pr = la +:+ lb ∧ la ≠ lb
    ∧ index letters la = Ok ia ∧ index letters lb = Ok ib ∧ (ia < ib)%nat
    ∧ freqs !! ia = Some fa ∧ freqs !! ib = Some fb
    ∧ GOERTZEL_MIN_POWER <= goertzel_power samples fa SAMPLE_RATE
    ∧ GOERTZEL_MIN_POWER <= goertzel_power samples fb SAMPLE_RATE.
Proof.
  intros Hdec.
  destruct (decode_selcal_inv _ _ _ _ Hdec)
    as (l1 & m1 & l2 & m2 & l3 & m3 & rest & i1 & i2 & f1 & f2 & _ & _ & Hne
        & Hi1 & Hi2 & Hpick & g1 & g2 & -> & -> & Hp1 & Hp2 & _).
  destruct (i1 <? i2)%nat eqn:Hlt.
  - apply Nat.ltb_lt in Hlt. injection Hpick as -> Hg1 Hg2.
    by exists l1, l2, i1, i2, g1, g2.
  - apply Nat.ltb_ge in Hlt. injection Hpick as -> Hg1 Hg2.
    exists l2, l1, i2, i1, g1, g2. repeat split; try done.
    assert (i1 ≠ i2) by (intros ->; by apply Hne, (index_inj letters _ _ i2)).
    lia.
Qed.

(** C4. [decode_selcal] returns a pair only when every gate has passed: the
    third magnitude is at most 0.85 times the second, both powers reach
    [GOERTZEL_MIN_POWER], the smaller one reaches [GOERTZEL_RATIO] times the
    noise, their sum reaches [PAIR_POWER_SUM] and [PAIR_POWER_MIN], their ratio
    is at most [PAIR_IMBALANCE_MAX] and the flatness of the magnitudes is at
    most [FLATNESS_MAX].  In particular a window in which fewer than two bins
    have a power of at least [GOERTZEL_MIN_POWER] never gives a pair, and
    gives [None] as soon as the tone table has three tones (with fewer,
    [decode_selcal] raises). *)
Theorem decode_selcal_gates (samples : list R) (letters : list string)
    (freqs : list R) :
  (∀ pr, decode_selcal samples letters freqs = Ok (Some pr) →
         all_gates_passed samples letters freqs pr)
  ∧ (samples ≠ [] → (strong_bins samples freqs < 2)%nat →
     (∀ pr, decode_selcal samples letters freqs ≠ Ok (Some pr))
     ∧ ((3 <= length letters)%nat → (3 <= length freqs)%nat →
        decode_selcal samples letters freqs = Ok None)).
Proof.
  assert (∀ pr, decode_selcal samples letters freqs = Ok (Some pr) →
                (2 <= strong_bins samples freqs)%nat) as Htwo.
  { intros pr Hdec.
    destruct (decode_selcal_pair _ _ _ _ Hdec)
      as (la & lb & ia & ib & fa & fb & _ & _ & _ & _ & Hlt & Hfa & Hfb
          & Hpa & Hpb).
    apply Rgeb_true in Hpa, Hpb.
    exact (two_in_filter
      (λ f, Rgeb (goertzel_power samples f SAMPLE_RATE) GOERTZEL_MIN_POWER)
      freqs ia ib fa fb Hlt Hfa Hfb Hpa Hpb). }
  split.
  - intros pr Hdec.
    destruct (decode_selcal_inv _ _ _ _ Hdec)
      as (l1 & m1 & l2 & m2 & l3 & m3 & rest & i1 & i2 & f1 & f2 & Hranked
          & Hrival & Hne & Hi1 & Hi2 & Hpick & g1 & g2 & -> & -> & Hgates).
    exists l1, m1, l2, m2, l3, m3, rest, i1, i2, g1, g2.
    repeat (split; [done || lra |]).
    destruct (i1 <? i2)%nat eqn:Hlt; injection Hpick as -> Hg1 Hg2.
    + apply Nat.ltb_lt in Hlt.
      rewrite Nat.min_l, Nat.max_r by lia. done.
    + apply Nat.ltb_ge in Hlt.
      rewrite Nat.min_r, Nat.max_l by lia. done.
  - intros _ Hfew. split.
    + intros pr Hdec. apply Htwo in Hdec. lia.
    + intros Hletters Hfreqs.
      destruct (decode_selcal_returns samples letters freqs Hletters Hfreqs)
        as [[pr |] Hdec]; [| done].
      apply Htwo in Hdec. lia.
Qed.

Lemma decode_selcal_gates_witness :
  all_gates_passed window_AC letters4 freqs4 "AC"
  ∧ decode_selcal window_A letters4 freqs4 = Ok None.
Proof.
  split.
  - exact (proj1 (decode_selcal_gates window_AC letters4 freqs4)
             "AC"%string decode4_AC).
  - apply (proj2 (decode_selcal_gates window_A letters4 freqs4)).
    + exact window_A_not_empty.
    + rewrite strong_bins_A. lia.
    + unfold letters4. cbn [length]. lia.
    + unfold freqs4. cbn [length]. lia.
Defined.

(** C5. A pair returned by [decode_selcal] is made of two different letters
    of the tone table, the one with the smaller index first, whichever of
    the two tones is the stronger; in a table whose frequencies ascend, the
    first letter has the lower frequency. *)
Theorem decode_selcal_canonical (samples : list R) (letters : list string)
    (freqs : list R) (pr : string) :
  decode_selcal samples letters freqs = Ok (Some pr) →
  ∃ la lb ia ib fa fb,
    pr = la +:+ lb ∧ la ≠ lb
    ∧ index letters la = Ok ia ∧ index letters lb = Ok ib ∧ (ia < ib)%nat
    ∧ freqs !! ia = Some fa ∧ freqs !! ib = Some fb
    ∧ (ascending freqs → fa < fb).
Proof.
  intros Hdec.
  destruct (decode_selcal_pair _ _ _ _ Hdec)
    as (la & lb & ia & ib & fa & fb & Hpr & Hne & Hia & Hib & Hlt & Hfa & Hfb
        & _).
  exists la, lb, ia, ib, fa, fb. repeat (split; [done |]).
  intros Hasc. by apply (Hasc ia ib).
Qed.

Lemma decode_selcal_canonical_witness :
  ∃ la lb ia ib fa fb,
    "AC"%string = la +:+ lb ∧ la ≠ lb
    ∧ index letters4 la = Ok ia ∧ index letters4 lb = Ok ib ∧ (ia < ib)%nat
    ∧ freqs4 !! ia = Some fa ∧ freqs4 !! ib = Some fb
    ∧ fa < fb.
Proof.
  destruct (decode_selcal_canonical window_CA letters4 freqs4 "AC" decode4_CA)
    as (la & lb & ia & ib & fa & fb & Hpr & Hne & Hia & Hib & Hlt & Hfa & Hfb
        & Hfreq).
  exists la, lb, ia, ib, fa, fb.
  repeat (split; [assumption |]). exact (Hfreq ascending_freqs4).
Defined.

(** ** The loop *)

Lemma run_cons letters freqs dict st inp inputs :
  run letters freqs dict st (inp :: inputs)
  = let o := tick letters freqs dict st inp in
    match raised o with
    | Some e => (option_list (emitted o), after o, Some e)
    | None =>
        let '(evs, st', r) := run letters freqs dict (after o) inputs in
        (option_list (emitted o) ++ evs, st', r)
    end.
Proof. reflexivity. Qed.

Lemma run_app letters freqs dict st inputs1 inputs2 evs1 st1 :
  run letters freqs dict st inputs1 = (evs1, st1, None) →
  run letters freqs dict st (inputs1 ++ inputs2)
  = let '(evs2, st2, r) := run letters freqs dict st1 inputs2 in
    (evs1 ++ evs2, st2, r).
Proof.
  revert st evs1. induction inputs1 as [| inp inputs1 IH]; intros st evs1.
  - intros [= <- <-]. cbn [app].
    by destruct (run letters freqs dict st inputs2) as [[evs2 st2] r].
  - rewrite <- app_comm_cons, !run_cons. cbv zeta.
    destruct (raised (tick letters freqs dict st inp)); [discriminate |].
    destruct (run letters freqs dict _ inputs1) as [[evs st'] r] eqn:Hrun.
    intros [= <- <- ->]. rewrite (IH _ _ Hrun).
    destruct (run letters freqs dict st' inputs2) as [[evs2 st2] r].
    by rewrite app_assoc.
Qed.

(** Every printed code was printed by some turn. *)
Lemma run_emitted letters freqs dict st inputs ev :
  ev ∈ (run letters freqs dict st inputs).1.1 →
  ∃ st' inp, emitted (tick letters freqs dict st' inp) = Some ev.
Proof.
  revert st. induction inputs as [| inp inputs IH]; intros st.
  - cbn. by intros ?%elem_of_nil.
  - rewrite run_cons. cbv zeta.
    destruct (emitted (tick letters freqs dict st inp)) as [ev' |] eqn:Hev;
      destruct (raised (tick letters freqs dict st inp));
      try destruct (run letters freqs dict _ inputs) as [[evs st'] r] eqn:Hrun;
      cbn [fst option_list app].
    + intros ->%list_elem_of_singleton. eauto.
    + intros [-> | Hin]%elem_of_cons; [eauto |].
      apply (IH (after (tick letters freqs dict st inp))). by rewrite Hrun.
    + by intros ?%elem_of_nil.
    + intros Hin.
      apply (IH (after (tick letters freqs dict st inp))). by rewrite Hrun.
Qed.

Lemma listen_live_emissions letters freqs dict file inputs :
  (listen_live letters freqs dict file inputs).1.1
  = (run letters freqs dict (initial_state file) inputs).1.1.
Proof.
  unfold listen_live.
  destruct (run letters freqs dict (initial_state file) inputs)
    as [[evs st] [e |]]; reflexivity.
Qed.

(** The lockout along a run: the first code printed passes the test against
    the variables of the starting state, two codes printed one after the
    other pass it against each other, and at the end the variables hold the
    last code printed. *)
Lemma run_lockout letters freqs dict inputs st :
  let '(evs, st', r) := run letters freqs dict st inputs in
  (∀ e, head evs = Some e →
        Some (em_code e) ≠ last_full_code st
        ∨ FULL_CODE_LOCKOUT <= em_time e - last_full_time st)
  ∧ (∀ i e1 e2, evs !! i = Some e1 → evs !! S i = Some e2 →
        em_code e1 = em_code e2 →
        FULL_CODE_LOCKOUT <= em_time e2 - em_time e1)
  ∧ (r = None →
     (last_full_code st', last_full_time st')
     = match last evs with
       | Some e => (Some (em_code e), em_time e)
       | None => (last_full_code st, last_full_time st)
       end).
Proof.
  revert st. induction inputs as [| inp inputs IH]; intros st.
  - cbn. repeat split; done.
  - rewrite run_cons. cbv zeta.
    set (o := tick letters freqs dict st inp).
    destruct (emitted o) as [ev |] eqn:Hev.
    + destruct (tick_emitted_inv _ _ _ _ _ _ Hev)
        as (pr & tr & code & _ & _ & _ & Htick).
      fold o in Htick. rewrite Htick in Hev.
      destruct (emit_code_emitted _ _ _ _ _ _ Hev)
        as (_ & Hgate & Hevent & _ & _ & _ & Hvars).
      rewrite <- Htick in Hvars.
      assert (em_code ev = code ∧ em_time ev = now inp) as [Hcode Htime]
        by (by rewrite Hevent).
      destruct (raised o) as [e |] eqn:Hraised.
      * cbn [option_list]. split; [| split; [| done]].
        -- intros e' [= <-]. by rewrite Hcode, Htime.
        -- intros [| i] e1 e2 ? ?; done.
      * specialize (IH (after o)).
        destruct (run letters freqs dict (after o) inputs)
          as [[evs st'] r] eqn:Hrun.
        destruct IH as (Hfirst & Hnext & Hlast).
        destruct (Hvars eq_refl) as [Hlc Hlt].
        cbn [option_list app]. split; [| split].
        -- intros e' [= <-]. by rewrite Hcode, Htime.
        -- intros [| i] e1 e2 He1 He2 Hsame.
           ++ assert (e1 = ev) as -> by (cbn in He1; congruence).
              cbn [lookup list_lookup] in He2.
              destruct (Hfirst e2) as [Hne | Hlate].
              { destruct evs; [done | cbn in He2 |- *; congruence]. }
              { exfalso. apply Hne. rewrite Hlc. congruence. }
              { rewrite Hlt in Hlate. by rewrite Htime. }
           ++ by apply (Hnext i).
        -- intros ->. rewrite (Hlast eq_refl).
           destruct evs as [| e' evs].
           ++ simpl. rewrite Hlc, Hlt. congruence.
           ++ simpl option_list. simpl app. rewrite last_cons_cons.
              destruct (last (e' :: evs)) eqn:Hl; [done |].
              by apply last_None in Hl.
    + pose proof (tick_quiet _ _ _ _ _ Hev) as (_ & _ & Hlc & Hlt).
      fold o in Hlc, Hlt.
      destruct (raised o) as [e |] eqn:Hraised; [by repeat split |].
      specialize (IH (after o)).
      destruct (run letters freqs dict (after o) inputs)
        as [[evs st'] r] eqn:Hrun.
      rewrite Hlc, Hlt in IH. done.
Qed.

(** ** The registry dictionary *)

Lemma dictionary_step_described (d : gmap string string) (line : string) :
  map_Forall (λ _ desc, described desc) d →
  map_Forall (λ _ desc, described desc) (dictionary_step d line).
Proof.
  intros Hd. unfold dictionary_step.
  destruct (split tab (strip line)) as [| code [| reg [| ac [| op rest]]]];
    try done.
  apply map_Forall_insert_2; [| done]. by exists reg, ac, op.
Qed.

Lemma load_selcal_dictionary_described (lines : list string) (code desc : string) :
  (load_selcal_dictionary lines).1 !! code = Some desc → described desc.
Proof.
  unfold load_selcal_dictionary. cbn [fst].
  assert (∀ d, map_Forall (λ _ desc, described desc) d →
               map_Forall (λ _ desc, described desc)
                 (fold_left dictionary_step lines d)) as Hfold.
  { induction lines as [| line lines IH]; intros d Hd; [done |].
    cbn [fold_left]. by apply IH, dictionary_step_described. }
  intros Hlookup. eapply (Hfold ∅); [apply map_Forall_empty | exact Hlookup].
Qed.

Lemma registry_loaded :
  (load_selcal_dictionary registry_lines).1 !! "ACBD"%string
  = Some "(ZK-OKA B77W Air New Zealand)"%string.
Proof. vm_compute. reflexivity. Qed.

Lemma registry_other :
  (load_selcal_dictionary registry_lines).1 !! "BDAC"%string = None.
Proof. vm_compute. reflexivity. Qed.

Lemma registry_size :
  (load_selcal_dictionary registry_lines).2 = "Loaded 1 SELCAL entries"%string.
Proof. vm_compute. reflexivity. Qed.

(** ** The loop on the test signals *)

Lemma tick_first letters freqs dict st w t clock env pr :
  Rltb (rms w) SILENCE_RMS_MAX = false →
  decode_selcal w letters freqs = Ok (Some pr) →
  pair_tracker st = reset →
  tick letters freqs dict st (heard w t clock env)
  = continue (with_tracker st (awaiting pr t)).
Proof.
  intros Hloud Hdec Htr. unfold tick, heard. cbn [samples now].
  by rewrite Hloud, Hdec, Htr.
Qed.

Lemma tick_second letters freqs dict st w t clock env pr fp t0 :
  Rltb (rms w) SILENCE_RMS_MAX = false →
  decode_selcal w letters freqs = Ok (Some pr) →
  pair_tracker st = awaiting fp t0 →
  pr ≠ fp →
  PAIR_GAP_MIN <= t - t0 <= PAIR_GAP_MAX →
  tick letters freqs dict st (heard w t clock env)
  = emit_code dict st (heard w t clock env) reset (fp +:+ pr).
Proof.
  intros Hloud Hdec Htr Hne [Hmin Hmax]. apply (tick_joined _ _ _ _ _ pr).
  - done.
  - done.
  - cbn [now heard]. rewrite Htr. unfold update, awaiting.
    cbn [first_pair first_time]. rewrite bool_decide_eq_false_2 by done.
    by rewrite (proj2 (Rleb_true _ _) Hmin), (proj2 (Rleb_true _ _) Hmax).
Qed.

Lemma loud_AC : Rltb (rms window_AC) SILENCE_RMS_MAX = false.
Proof. apply loud_window. lra. Qed.

Lemma loud_BD : Rltb (rms window_BD) SILENCE_RMS_MAX = false.
Proof. apply loud_window. lra. Qed.

Lemma loud_AB : Rltb (rms window_AB) SILENCE_RMS_MAX = false.
Proof. apply loud_window. lra. Qed.

(** The two turns of a call, from a state whose tracker is idle. *)
Lemma run_call dict st t s env1 env2 :
  pair_tracker st = reset →
  run letters4 freqs4 dict st (call t s env1 env2)
  = let o := emit_code dict (with_tracker st (awaiting "AC" t))
               (heard window_BD (t + 0.6) (clock_10h (S s)) env2)
               reset "ACBD" in
    (option_list (emitted o), after o, raised o).
Proof.
  intros Htr. unfold call. rewrite run_cons.
  rewrite (tick_first _ _ _ _ _ _ _ _ "AC" loud_AC decode4_AC Htr).
  cbv zeta. cbn [raised continue after emitted]. rewrite run_cons.
  rewrite (tick_second _ _ _ _ _ _ _ _ "BD" "AC" t loud_BD decode4_BD);
    [| done | discriminate | unfold PAIR_GAP_MIN, PAIR_GAP_MAX; lra].
  cbv zeta.
  destruct (raised (emit_code _ _ _ _ _)) eqn:Hr; [done |].
  cbn [run]. by rewrite app_nil_r.
Qed.

Lemma call_emits dict st t s env1 env2 :
  pair_tracker st = reset →
  Some "ACBD"%string ≠ last_full_code st
  ∨ FULL_CODE_LOCKOUT <= t + 0.6 - last_full_time st →
  ∃ st' r,
    run letters4 freqs4 dict st (call t s env1 env2)
    = ([ACBD_at dict t s], st', r)
    ∧ pair_tracker st' = reset
    ∧ stdout st' = stdout st ++ [em_line (ACBD_at dict t s)]
    ∧ (log_file st', r)
      = log_selcal env2 (em_line (ACBD_at dict t s)) (log_file st)
    ∧ (r = None → last_full_code st' = Some "ACBD"%string
                  ∧ last_full_time st' = t + 0.6).
Proof.
  intros Htr Hgate. rewrite run_call by done. cbv zeta.
  unfold emit_code. rewrite valid_ACBD. cbn [negb].
  cbn [last_full_code last_full_time with_tracker now heard wall_clock io
       log_file stdout].
  replace (bool_decide _ || Rgeb _ _) with true.
  2:{ symmetry. apply orb_true_iff. rewrite bool_decide_eq_true, Rgeb_true.
      done. }
  fold (ACBD_at dict t s).
  destruct (log_selcal env2 _ (log_file st)) as [file [e |]] eqn:Hlog;
    cbn [emitted after raised option_list];
    eexists _, _; (split; [reflexivity |]);
    cbn [pair_tracker stdout log_file last_full_code last_full_time];
    unfold ACBD_at in *; cbn [em_line] in *; rewrite ?Hlog; done.
Qed.

Lemma call_suppressed dict st t s env1 env2 :
  pair_tracker st = reset →
  last_full_code st = Some "ACBD"%string →
  t + 0.6 - last_full_time st < FULL_CODE_LOCKOUT →
  run letters4 freqs4 dict st (call t s env1 env2) = ([], st, None).
Proof.
  intros Htr Hcode Hsoon. rewrite run_call by done. cbv zeta.
  unfold emit_code. rewrite valid_ACBD. cbn [negb].
  cbn [last_full_code last_full_time with_tracker now heard].
  rewrite Hcode, bool_decide_eq_false_2 by (by intros []).
  rewrite (proj2 (Rgeb_false _ _) Hsoon). cbn [orb continue emitted after raised option_list].
  do 2 f_equal. destruct st. cbn in *. by subst.
Qed.

(** ** Properties of the loop *)

(** C7. A turn whose window has a root mean square below [SILENCE_RMS_MAX]
    stops at the silence gate: the detector is not run (whatever the tone
    table, nothing is raised), the state, tracker included, is the one before
    the turn, and nothing is printed.  (The window is not empty: see the
    conventions at the head of the file.) *)
Theorem silence_gate_skips (letters : list string) (freqs : list R)
    (selcal_dict : gmap string string) (st : state) (inp : tick_input) :
  samples inp ≠ [] →
  rms (samples inp) < SILENCE_RMS_MAX →
  tick letters freqs selcal_dict st inp
  = {| after := st; emitted := None; raised := None |}.
Proof.
  intros _ Hquiet. unfold tick.
  by rewrite (proj2 (Rltb_true _ _) Hquiet).
Qed.

Lemma silence_gate_skips_witness :
  tick [] [] ∅ (initial_state None)
    (heard window_silent 10 (clock_10h 0) io_ok)
  = {| after := initial_state None; emitted := None; raised := None |}
  ∧ decode_selcal window_silent [] [] = Raise ValueError.
Proof.
  split; [| reflexivity].
  apply silence_gate_skips.
  - exact window_silent_not_empty.
  - cbn [samples heard]. rewrite rms_silent. unfold SILENCE_RMS_MAX. lra.
Defined.

Lemma log_selcal_io_ok (line : string) (file : option string) :
  log_selcal io_ok line file
  = (Some (line +:+ newline +:+ default ""%string file), None).
Proof. destruct file; unfold log_selcal; cbn; by rewrite append_assoc. Qed.

(** The second turn of the call, after the first turn of a fresh run. *)
Lemma second_turn dict file env :
  tick letters4 freqs4 dict
    (with_tracker (initial_state file) (awaiting "AC" 10))
    (heard window_BD 10.6 (clock_10h 1) env)
  = emit_code dict (with_tracker (initial_state file) (awaiting "AC" 10))
      (heard window_BD 10.6 (clock_10h 1) env) reset "ACBD".
Proof.
  apply (tick_second _ _ _ _ _ _ _ _ "BD" "AC" 10 loud_BD decode4_BD);
    [done | discriminate | unfold PAIR_GAP_MIN, PAIR_GAP_MAX; lra].
Qed.

Lemma second_turn_emits dict file env :
  emitted (tick letters4 freqs4 dict
             (with_tracker (initial_state file) (awaiting "AC" 10))
             (heard window_BD 10.6 (clock_10h 1) env))
  = Some {| em_code := "ACBD"; em_time := 10.6;
            em_line := format_line (strftime (clock_10h 1)) "ACBD"
                         (default ""%string (dict !! "ACBD"%string)) |}.
Proof.
  rewrite second_turn. unfold emit_code. rewrite valid_ACBD.
  cbn [negb last_full_code with_tracker initial_state].
  rewrite bool_decide_eq_true_2 by done. cbn [orb].
  by destruct (log_selcal _ _ _) as [f [e |]].
Qed.

(** C1. Every code that the loop prints passes [is_valid_selcal]: it has
    four letters, all different.  A code that fails the validation is dropped
    without a trace: nothing is printed, nothing is logged, the lockout
    variables keep their values. *)
Theorem emitted_codes_are_valid (letters : list string) (freqs : list R)
    (selcal_dict : gmap string string) :
  (∀ st inp ev,
     emitted (tick letters freqs selcal_dict st inp) = Some ev →
     is_valid_selcal (em_code ev) = true
     ∧ String.length (em_code ev) = 4%nat
     ∧ NoDup (list_ascii_of_string (em_code ev)))
  ∧ (∀ file inputs ev,
       ev ∈ (listen_live letters freqs selcal_dict file inputs).1.1 →
       is_valid_selcal (em_code ev) = true
       ∧ String.length (em_code ev) = 4%nat
       ∧ NoDup (list_ascii_of_string (em_code ev)))
  ∧ (∀ st inp pr tr code,
       SILENCE_RMS_MAX <= rms (samples inp) →
       decode_selcal (samples inp) letters freqs = Ok (Some pr) →
       update (pair_tracker st) pr (now inp) = Ok (tr, Some code) →
       is_valid_selcal code = false →
       tick letters freqs selcal_dict st inp
       = {| after := {| pair_tracker := tr;
                        last_full_code := last_full_code st;
                        last_full_time := last_full_time st;
                        stdout := stdout st; log_file := log_file st |};
            emitted := None; raised := None |}).
Proof.
  assert (∀ st inp ev,
     emitted (tick letters freqs selcal_dict st inp) = Some ev →
     is_valid_selcal (em_code ev) = true
     ∧ String.length (em_code ev) = 4%nat
     ∧ NoDup (list_ascii_of_string (em_code ev))) as Htick.
  { intros st inp ev Hev.
    destruct (tick_emitted_inv _ _ _ _ _ _ Hev)
      as (pr & tr & code & _ & _ & _ & Htick).
    rewrite Htick in Hev.
    destruct (emit_code_emitted _ _ _ _ _ _ Hev) as (Hvalid & _ & -> & _).
    cbn [em_code]. split; [done |]. by apply is_valid_selcal_spec. }
  split; [exact Htick | split].
  - intros file inputs ev. rewrite listen_live_emissions.
    intros (st & inp & Hev)%run_emitted. by apply (Htick st inp).
  - intros st inp pr tr code Hloud Hdec Hup Hbad.
    rewrite (tick_joined _ _ _ _ _ pr tr code)
      by (done || by apply Rltb_false).
    unfold emit_code. by rewrite Hbad.
Qed.

Lemma emitted_codes_are_valid_witness :
  (is_valid_selcal "ACBD" = true
   ∧ String.length "ACBD" = 4%nat
   ∧ NoDup (list_ascii_of_string "ACBD"))
  ∧ (ACBD_at ∅ 10 0
       ∈ (listen_live letters4 freqs4 ∅ None (call 10 0 io_ok io_ok)).1.1
     ∧ is_valid_selcal (em_code (ACBD_at ∅ 10 0)) = true)
  ∧ tick letters3 freqs3 ∅
      (with_tracker (initial_state None) (awaiting "AC" 10))
      (heard window_AB 10.6 (clock_10h 1) io_ok)
    = {| after := initial_state None; emitted := None; raised := None |}.
Proof.
  destruct (emitted_codes_are_valid letters4 freqs4 ∅) as (Htick & Hrun & _).
  destruct (emitted_codes_are_valid letters3 freqs3 ∅) as (_ & _ & Hdrop).
  split; [| split].
  - exact (Htick _ _ _ (second_turn_emits ∅ None io_ok)).
  - assert (ACBD_at ∅ 10 0
              ∈ (listen_live letters4 freqs4 ∅ None
                   (call 10 0 io_ok io_ok)).1.1) as Hin.
    { rewrite listen_live_emissions.
      destruct (call_emits ∅ (initial_state None) 10 0 io_ok io_ok)
        as (st' & r & -> & _); [reflexivity | by left |].
      apply list_elem_of_singleton. reflexivity. }
    split; [exact Hin |]. by destruct (Hrun None _ _ Hin).
  - apply (Hdrop (with_tracker (initial_state None) (awaiting "AC" 10))
             (heard window_AB 10.6 (clock_10h 1) io_ok)
             "AB"%string reset "ACAB"%string).
    + apply Rltb_false, loud_AB.
    + exact decode3_AB.
    + apply (update_joins _ "AC"%string 10);
        [reflexivity | reflexivity | discriminate |].
      cbn [now heard]. unfold PAIR_GAP_MIN, PAIR_GAP_MAX. lra.
    + exact invalid_ACAB.
Defined.

(** C3. A validated code is printed exactly when it differs from the last
    code printed or [FULL_CODE_LOCKOUT] seconds or more have passed since
    then.  So two consecutive emissions of one code are [FULL_CODE_LOCKOUT]
    or more apart, and the lockout asks nothing of a code that differs from
    the last one, however short the time since the last emission. *)
Theorem lockout_rule (letters : list string) (freqs : list R)
    (selcal_dict : gmap string string) :
  (∀ st inp pr tr code,
     SILENCE_RMS_MAX <= rms (samples inp) →
     decode_selcal (samples inp) letters freqs = Ok (Some pr) →
     update (pair_tracker st) pr (now inp) = Ok (tr, Some code) →
     is_valid_selcal code = true →
     (is_Some (emitted (tick letters freqs selcal_dict st inp))
      ↔ Some code ≠ last_full_code st
        ∨ FULL_CODE_LOCKOUT <= now inp - last_full_time st))
  ∧ (∀ file inputs i e1 e2,
       let evs := (listen_live letters freqs selcal_dict file inputs).1.1 in
       evs !! i = Some e1 → evs !! S i = Some e2 →
       em_code e1 = em_code e2 →
       FULL_CODE_LOCKOUT <= em_time e2 - em_time e1)
  ∧ (∀ file inputs evs st,
       run letters freqs selcal_dict (initial_state file) inputs
       = (evs, st, None) →
       (last_full_code st, last_full_time st)
       = match last evs with
         | Some e => (Some (em_code e), em_time e)
         | None => (None, 0)
         end)
  ∧ (∀ st inp pr tr code last_code (elapsed : R),
       SILENCE_RMS_MAX <= rms (samples inp) →
       decode_selcal (samples inp) letters freqs = Ok (Some pr) →
       update (pair_tracker st) pr (now inp) = Ok (tr, Some code) →
       is_valid_selcal code = true →
       last_full_code st = Some last_code → code ≠ last_code →
       now inp = last_full_time st + elapsed →
       ∃ ev, emitted (tick letters freqs selcal_dict st inp) = Some ev
             ∧ em_code ev = code ∧ em_time ev = now inp).
Proof.
  assert (∀ st inp pr tr code,
     SILENCE_RMS_MAX <= rms (samples inp) →
     decode_selcal (samples inp) letters freqs = Ok (Some pr) →
     update (pair_tracker st) pr (now inp) = Ok (tr, Some code) →
     is_valid_selcal code = true →
     Some code ≠ last_full_code st
     ∨ FULL_CODE_LOCKOUT <= now inp - last_full_time st →
     ∃ ev, emitted (tick letters freqs selcal_dict st inp) = Some ev
           ∧ em_code ev = code ∧ em_time ev = now inp) as Hopen.
  { intros st inp pr tr code Hloud Hdec Hup Hvalid Hgate.
    rewrite (tick_joined _ _ _ _ _ pr tr code)
      by (done || by apply Rltb_false).
    unfold emit_code. rewrite Hvalid. cbn [negb].
    replace (bool_decide _ || Rgeb _ _) with true.
    2:{ symmetry. apply orb_true_iff.
        by rewrite bool_decide_eq_true, Rgeb_true. }
    destruct (log_selcal _ _ _) as [f [e |]]; by eexists. }
  split; [| split; [| split]].
  - intros st inp pr tr code Hloud Hdec Hup Hvalid. split.
    + intros [ev Hev].
      rewrite (tick_joined _ _ _ _ _ pr tr code) in Hev
        by (done || by apply Rltb_false).
      by destruct (emit_code_emitted _ _ _ _ _ _ Hev) as (_ & Hgate & _).
    + intros Hgate.
      destruct (Hopen st inp pr tr code) as (ev & -> & _); done.
  - intros file inputs i e1 e2 evs. subst evs.
    rewrite listen_live_emissions.
    pose proof (run_lockout letters freqs selcal_dict inputs
                  (initial_state file)) as Hrun.
    destruct (run _ _ _ _ inputs) as [[evs st'] r].
    destruct Hrun as (_ & Hnext & _). apply Hnext.
  - intros file inputs evs st Hrun.
    pose proof (run_lockout letters freqs selcal_dict inputs
                  (initial_state file)) as Hlock.
    rewrite Hrun in Hlock. destruct Hlock as (_ & _ & Hlast).
    by apply Hlast.
  - intros st inp pr tr code last_code elapsed Hloud Hdec Hup Hvalid Hlast Hne _.
    apply (Hopen st inp pr tr code); try done.
    left. rewrite Hlast. congruence.
Qed.

Lemma valid_BDAC : is_valid_selcal "BDAC" = true.
Proof. vm_compute. reflexivity. Qed.

Lemma run_first_call :
  run letters4 freqs4 ∅ (initial_state None) (call 10 0 io_ok io_ok)
  = ([ACBD_at ∅ 10 0], after_ACBD reset, None).
Proof.
  rewrite run_call by reflexivity. cbv zeta.
  unfold emit_code. rewrite valid_ACBD. cbn [negb].
  cbn [last_full_code with_tracker initial_state].
  rewrite bool_decide_eq_true_2 by done. cbn [orb].
  rewrite log_selcal_io_ok. reflexivity.
Qed.

Lemma two_calls_emissions :
  (listen_live letters4 freqs4 ∅ None
     (call 10 0 io_ok io_ok ++ call 20 10 io_ok io_ok)).1.1
  = [ACBD_at ∅ 10 0; ACBD_at ∅ 20 10].
Proof.
  rewrite listen_live_emissions, (run_app _ _ _ _ _ _ _ _ run_first_call).
  destruct (call_emits ∅ (after_ACBD reset) 20 10 io_ok io_ok)
    as (st' & r & -> & _); [reflexivity | | reflexivity].
  right. cbn [last_full_time after_ACBD]. unfold FULL_CODE_LOCKOUT. lra.
Qed.

(** The state in which a second, different call is heard 0.2 s after the
    first one has been printed. *)
Lemma run_then_BD :
  run letters4 freqs4 ∅ (initial_state None)
    (call 10 0 io_ok io_ok ++ [heard window_BD 10.8 (clock_10h 1) io_ok])
  = ([ACBD_at ∅ 10 0], after_ACBD (awaiting "BD" 10.8), None).
Proof.
  rewrite (run_app _ _ _ _ _ _ _ _ run_first_call), run_cons.
  rewrite (tick_first letters4 freqs4 ∅ (after_ACBD reset) window_BD 10.8
             (clock_10h 1) io_ok "BD" loud_BD decode4_BD eq_refl).
  reflexivity.
Qed.

Lemma lockout_rule_witness :
  (is_Some (emitted (tick letters4 freqs4 ∅ (after_ACBD (awaiting "AC" 12))
                       (heard window_BD 12.6 (clock_10h 3) io_ok)))
   ↔ Some "ACBD"%string ≠ Some "ACBD"%string
     ∨ FULL_CODE_LOCKOUT <= 12.6 - (10 + 0.6))
  ∧ (is_Some (emitted (tick letters4 freqs4 ∅ (after_ACBD (awaiting "AC" 20))
                         (heard window_BD 20.6 (clock_10h 11) io_ok)))
     ↔ Some "ACBD"%string ≠ Some "ACBD"%string
       ∨ FULL_CODE_LOCKOUT <= 20.6 - (10 + 0.6))
  ∧ FULL_CODE_LOCKOUT <= em_time (ACBD_at ∅ 20 10) - em_time (ACBD_at ∅ 10 0)
  ∧ (last_full_code (after_ACBD reset), last_full_time (after_ACBD reset))
    = (Some "ACBD"%string, 10 + 0.6)
  ∧ ∃ ev, emitted (tick letters4 freqs4 ∅ (after_ACBD (awaiting "BD" 10.8))
                     (heard window_AC 11.4 (clock_10h 2) io_ok)) = Some ev
          ∧ em_code ev = "BDAC"%string ∧ em_time ev = 11.4.
Proof.
  destruct (lockout_rule letters4 freqs4 ∅)
    as (Hiff & Hsame & Hvars & Hother).
  split; [| split; [| split; [| split]]].
  - apply (Hiff (after_ACBD (awaiting "AC" 12))
             (heard window_BD 12.6 (clock_10h 3) io_ok)
             "BD"%string reset "ACBD"%string).
    + apply Rltb_false, loud_BD.
    + exact decode4_BD.
    + apply (update_joins _ "AC"%string 12);
        [reflexivity | reflexivity | discriminate |].
      cbn [now heard]. unfold PAIR_GAP_MIN, PAIR_GAP_MAX. lra.
    + exact valid_ACBD.
  - apply (Hiff (after_ACBD (awaiting "AC" 20))
             (heard window_BD 20.6 (clock_10h 11) io_ok)
             "BD"%string reset "ACBD"%string).
    + apply Rltb_false, loud_BD.
    + exact decode4_BD.
    + apply (update_joins _ "AC"%string 20);
        [reflexivity | reflexivity | discriminate |].
      cbn [now heard]. unfold PAIR_GAP_MIN, PAIR_GAP_MAX. lra.
    + exact valid_ACBD.
  - apply (Hsame None (call 10 0 io_ok io_ok ++ call 20 10 io_ok io_ok) 0%nat);
      [by rewrite two_calls_emissions | by rewrite two_calls_emissions
      | reflexivity].
  - exact (Hvars None (call 10 0 io_ok io_ok) _ _ run_first_call).
  - apply (Hother (after_ACBD (awaiting "BD" 10.8))
             (heard window_AC 11.4 (clock_10h 2) io_ok)
             "AC"%string reset "BDAC"%string "ACBD"%string (11.4 - (10 + 0.6))).
    + apply Rltb_false, loud_AC.
    + exact decode4_AC.
    + apply (update_joins _ "BD"%string 10.8);
        [reflexivity | reflexivity | discriminate |].
      cbn [now heard]. unfold PAIR_GAP_MIN, PAIR_GAP_MAX. lra.
    + exact valid_BDAC.
    + reflexivity.
    + discriminate.
    + cbn [now heard last_full_time after_ACBD]. lra.
Defined.

(** C8, as the code has it.  The printed line is the local time as
    DD/MM/YY HH:MM:SS, a space, the four-letter code, a space and the
    description of the code in the registry, which is in parentheses; for a
    code that the registry does not hold the description is the empty string
    ([selcal_dict.get(code, "")]), so that the line ends with the space and
    has no parentheses.  The line is printed and the same line is passed to
    [log_selcal]. *)
Theorem emitted_line_format (letters : list string) (freqs : list R)
    (lines : list string) (st : state) (inp : tick_input) (ev : emission) :
  let selcal_dict := (load_selcal_dictionary lines).1 in
  let o := tick letters freqs selcal_dict st inp in
  emitted o = Some ev →
  let t := wall_clock inp in
  let ts := two_digits (day t) +:+ "/" +:+ two_digits (month t) +:+ "/"
            +:+ two_digits (year t mod 100) +:+ " "
            +:+ two_digits (hour t) +:+ ":" +:+ two_digits (minute t) +:+ ":"
            +:+ two_digits (second t) in
  ∃ desc,
    em_line ev = ts +:+ " " +:+ em_code ev +:+ " " +:+ desc
    ∧ String.length ts = 17%nat
    ∧ String.length (em_code ev) = 4%nat
    ∧ match selcal_dict !! em_code ev with
      | Some d => desc = d ∧ described d
      | None => desc = ""%string
      end
    ∧ stdout (after o) = stdout st ++ [em_line ev]
    ∧ (log_file (after o), raised o)
      = log_selcal (io inp) (em_line ev) (log_file st).
Proof.
  intros selcal_dict o Hev t ts. subst o.
  destruct (tick_emitted_inv _ _ _ _ _ _ Hev)
    as (pr & tr & code & _ & _ & _ & Htick).
  rewrite Htick in Hev |- *.
  destruct (emit_code_emitted _ _ _ _ _ _ Hev)
    as (Hvalid & _ & Hevent & Hout & Hlog & _).
  exists (default ""%string (selcal_dict !! code)).
  assert (em_code ev = code) as Hcode by (by rewrite Hevent).
  split; [by rewrite Hevent | split; [reflexivity | split; [| split]]].
  - rewrite Hcode. by apply is_valid_selcal_spec.
  - rewrite Hcode.
    destruct (selcal_dict !! code) as [d |] eqn:Hd; [| done].
    split; [done |]. by apply (load_selcal_dictionary_described lines code).
  - done.
Qed.

Lemma emitted_line_format_witness :
  (∃ desc,
     "06/11/26 10:00:01 ACBD (ZK-OKA B77W Air New Zealand)"%string
     = "06/11/26 10:00:01" +:+ " " +:+ "ACBD" +:+ " " +:+ desc
     ∧ described desc)
  ∧ (∃ desc,
       "06/11/26 10:00:01 ACBD "%string
       = "06/11/26 10:00:01" +:+ " " +:+ "ACBD" +:+ " " +:+ desc
       ∧ desc = ""%string).
Proof.
  split.
  - pose proof (emitted_line_format letters4 freqs4 registry_lines _ _ _
                  (second_turn_emits _ None io_ok)) as (desc & Hline & _ & _
                  & Hdesc & _).
    cbn [em_code] in Hdesc. rewrite registry_loaded in Hdesc.
    destruct Hdesc as [-> Hdescribed].
    exists "(ZK-OKA B77W Air New Zealand)"%string.
    split; [exact Hline | exact Hdescribed].
  - pose proof (emitted_line_format letters4 freqs4 [] _ _ _
                  (second_turn_emits _ None io_ok)) as (desc & Hline & _ & _
                  & Hdesc & _).
    exists desc. split; [exact Hline | exact Hdesc].
Defined.

(** The line of a code that the registry does not hold: no parentheses. *)
Lemma unknown_code_line_counterexample :
  let selcal_dict := (load_selcal_dictionary []).1 in
  let o := tick letters4 freqs4 selcal_dict
             (with_tracker (initial_state None) (awaiting "AC" 10))
             (heard window_BD 10.6 (clock_10h 1) io_ok) in
  selcal_dict !! "ACBD"%string = None
  ∧ option_map em_code (emitted o) = Some "ACBD"%string
  ∧ option_map em_line (emitted o) = Some "06/11/26 10:00:01 ACBD "%string
  ∧ option_map em_line (emitted o) ≠ Some "06/11/26 10:00:01 ACBD ()"%string
  ∧ stdout (after o)
    = [banner; "06/11/26 10:00:01 ACBD "%string].
Proof.
  cbv zeta. change (load_selcal_dictionary []).1 with (∅ : gmap string string).
  rewrite second_turn_emits.
  split; [done |]. split; [done |]. split; [done |]. split; [discriminate |].
  rewrite second_turn. unfold emit_code. rewrite valid_ACBD.
  cbn [negb last_full_code with_tracker initial_state].
  rewrite bool_decide_eq_true_2 by done. cbn [orb].
  rewrite log_selcal_io_ok. reflexivity.
Qed.

(** ** Errors of the log file *)

(** When [log_selcal] raises: in the reading, and the file is as it was; or
    in the writing, and the file is as it was if it could not be opened, and
    holds a beginning of the new text, the old one being lost, if it
    could. *)
Lemma log_selcal_error (env : io_env) (line : string)
    (file file' : option string) (e : exn) :
  log_selcal env line file = (file', Some e) →
  (read_denied env = true ∧ is_Some file ∧ file' = file
   ∧ e = (if not_utf8 env then UnicodeDecodeError else OSError))
  ∨ (write_denied env = true ∧ e = OSError
     ∧ match write_reached env with
       | None => file' = file
       | Some n =>
           file' = Some (substring 0 n
                           (line +:+ newline +:+ default ""%string file))
       end).
Proof.
  unfold log_selcal. destruct file as [old |]; cbn [default].
  - destruct (read_denied env) eqn:Hr.
    + intros [= <- <-]. left. eauto.
    + destruct (write_denied env) eqn:Hw; [| discriminate].
      destruct (write_reached env) as [n |]; intros [= <- <-]; right;
        [by rewrite append_assoc | done].
  - destruct (write_denied env) eqn:Hw; [| discriminate].
    destruct (write_reached env) as [n |]; intros [= <- <-]; right;
      [by rewrite append_assoc | done].
Qed.

Lemma run_raised_app letters freqs dict st inputs1 inputs2 evs st' e :
  run letters freqs dict st inputs1 = (evs, st', Some e) →
  run letters freqs dict st (inputs1 ++ inputs2) = (evs, st', Some e).
Proof.
  revert st evs. induction inputs1 as [| inp inputs1 IH]; intros st evs;
    [discriminate |].
  rewrite <- app_comm_cons, !run_cons. cbv zeta.
  destruct (raised (tick letters freqs dict st inp)); [done |].
  destruct (run letters freqs dict _ inputs1) as [[evs1 st1] r] eqn:Hrun.
  intros [= <- <- ->]. by rewrite (IH _ _ Hrun).
Qed.

Lemma emit_code_raised dict st inp tr code e :
  raised (emit_code dict st inp tr code) = Some e →
  last_full_code (after (emit_code dict st inp tr code)) = last_full_code st
  ∧ last_full_time (after (emit_code dict st inp tr code))
    = last_full_time st.
Proof.
  unfold emit_code.
  destruct (negb (is_valid_selcal code)); [discriminate |].
  destruct (_ || _); [| discriminate].
  by destruct (log_selcal _ _ _) as [file [e' |]].
Qed.

(** C10, as the code has it.  When [log_selcal] raises during an emission
    the line has been printed already; the exception is not caught in the
    loop, so it leaves [listen_live]: the remaining turns are not made and
    the lockout variables are not updated.  The log file is as it was when
    the reading or [open(LOG_FILE, "w")] raised; when the file was opened
    and [f.write] or the closing raised, the old contents are lost and the
    file holds a beginning of the new text, which may be empty. *)
Theorem log_error_leaves_loop (letters : list string) (freqs : list R)
    (selcal_dict : gmap string string) (st : state) (inp : tick_input)
    (ev : emission) (file : option string) (e : exn)
    (rest : list tick_input) :
  let o := tick letters freqs selcal_dict st inp in
  emitted o = Some ev →
  log_selcal (io inp) (em_line ev) (log_file st) = (file, Some e) →
  raised o = Some e
  ∧ stdout (after o) = stdout st ++ [em_line ev]
  ∧ log_file (after o) = file
  ∧ ((read_denied (io inp) = true ∧ is_Some (log_file st)
      ∧ file = log_file st
      ∧ e = (if not_utf8 (io inp) then UnicodeDecodeError else OSError))
     ∨ (write_denied (io inp) = true ∧ e = OSError
        ∧ match write_reached (io inp) with
          | None => file = log_file st
          | Some n =>
              file = Some (substring 0 n
                             (em_line ev +:+ newline
                              +:+ default ""%string (log_file st)))
          end))
  ∧ last_full_code (after o) = last_full_code st
  ∧ last_full_time (after o) = last_full_time st
  ∧ run letters freqs selcal_dict st (inp :: rest) = ([ev], after o, Some e)
  ∧ (∀ file0 before evs0,
       run letters freqs selcal_dict (initial_state file0) before
       = (evs0, st, None) →
       listen_live letters freqs selcal_dict file0 (before ++ inp :: rest)
       = (evs0 ++ [ev], after o, Some e)).
Proof.
  intros o Hev Hlog.
  destruct (tick_emitted_inv _ _ _ _ _ _ Hev)
    as (pr & tr & code & _ & _ & _ & Htick).
  fold o in Htick.
  assert (raised o = Some e ∧ stdout (after o) = stdout st ++ [em_line ev]
          ∧ log_file (after o) = file
          ∧ last_full_code (after o) = last_full_code st
          ∧ last_full_time (after o) = last_full_time st)
    as (Hraised & Hout & Hfile & Hlc & Hlt).
  { rewrite Htick in Hev |- *.
    destruct (emit_code_emitted _ _ _ _ _ _ Hev) as (_ & _ & _ & Hout & Hlog'
                                                     & _).
    rewrite Hlog in Hlog'. injection Hlog' as Hfile Hraised.
    destruct (emit_code_raised _ _ _ _ _ _ Hraised) as [Hlc Hlt]. done. }
  assert (run letters freqs selcal_dict st (inp :: rest)
          = ([ev], after o, Some e)) as Hrun.
  { rewrite run_cons. cbv zeta. fold o. by rewrite Hraised, Hev. }
  do 3 (split; [done |]).
  split; [exact (log_selcal_error _ _ _ _ _ Hlog) |].
  do 3 (split; [done |]).
  intros file0 before evs0 Hbefore. unfold listen_live.
  rewrite (run_app _ _ _ _ _ _ _ _ Hbefore), Hrun. done.
Qed.

Lemma first_call_log_error :
  run letters4 freqs4 ∅ (initial_state None) (call 10 0 io_ok read_only)
  = ([ACBD_at ∅ 10 0],
     {| pair_tracker := reset; last_full_code := None; last_full_time := 0;
        stdout := [banner; em_line (ACBD_at ∅ 10 0)]; log_file := None |},
     Some OSError).
Proof.
  rewrite run_call by reflexivity. cbv zeta.
  unfold emit_code. rewrite valid_ACBD. cbn [negb].
  cbn [last_full_code with_tracker initial_state].
  rewrite bool_decide_eq_true_2 by done. reflexivity.
Qed.

Lemma log_error_halts_counterexample :
  (listen_live letters4 freqs4 ∅ None
     (call 10 0 io_ok read_only ++ call 20 10 io_ok io_ok)).2 = Some OSError
  ∧ (listen_live letters4 freqs4 ∅ None
       (call 10 0 io_ok read_only ++ call 20 10 io_ok io_ok)).1.1
    = [ACBD_at ∅ 10 0]
  ∧ (listen_live letters4 freqs4 ∅ None
       (call 10 0 io_ok io_ok ++ call 20 10 io_ok io_ok)).1.1
    = [ACBD_at ∅ 10 0; ACBD_at ∅ 20 10].
Proof.
  unfold listen_live at 1 2.
  rewrite (run_raised_app _ _ _ _ _ _ _ _ _ first_call_log_error).
  repeat split. exact two_calls_emissions.
Qed.

Lemma log_error_leaves_loop_witness :
  listen_live letters4 freqs4 ∅ (Some "old line")
    ([heard window_AC 10 (clock_10h 0) io_ok]
     ++ heard window_BD 10.6 (clock_10h 1) disk_full
        :: call 20 10 io_ok io_ok)
  = ([{| em_code := "ACBD"; em_time := 10.6;
         em_line := format_line (strftime (clock_10h 1)) "ACBD" "" |}],
     after (tick letters4 freqs4 ∅
              (with_tracker (initial_state (Some "old line"))
                 (awaiting "AC" 10))
              (heard window_BD 10.6 (clock_10h 1) disk_full)),
     Some OSError)
  ∧ log_file
      (after (tick letters4 freqs4 ∅
                (with_tracker (initial_state (Some "old line"))
                   (awaiting "AC" 10))
                (heard window_BD 10.6 (clock_10h 1) disk_full)))
    = Some ""%string.
Proof.
  pose proof (log_error_leaves_loop letters4 freqs4 ∅
    (with_tracker (initial_state (Some "old line")) (awaiting "AC" 10))
    (heard window_BD 10.6 (clock_10h 1) disk_full)
    _ (Some "") OSError (call 20 10 io_ok io_ok)
    (second_turn_emits ∅ (Some "old line") disk_full) eq_refl) as Hthm.
  destruct Hthm as (_ & _ & Hfile & _ & _ & _ & _ & Hlive).
  split; [| exact Hfile].
  apply (Hlive (Some "old line") [heard window_AC 10 (clock_10h 0) io_ok] []).
  rewrite run_cons.
  rewrite (tick_first letters4 freqs4 ∅ (initial_state (Some "old line"))
             window_AC 10 (clock_10h 0) io_ok "AC" loud_AC decode4_AC eq_refl).
  reflexivity.
Defined.

(** ** What can end the loop *)

Lemma paired_reset : paired reset.
Proof. done. Qed.

(** From a tracker that holds a time with its first pair, [update] raises
    nothing and gives such a tracker again. *)
Lemma update_paired (tr : PairTracker) (pr : string) (now : R) :
  paired tr →
  ∃ tr' code, update tr pr now = Ok (tr', code) ∧ paired tr'.
Proof.
  intros Hpaired. unfold update.
  destruct (first_pair tr) as [fp |] eqn:Hfp.
  - destruct (bool_decide (pr = fp)); [by eauto |].
    destruct (first_time tr) as [t0 |] eqn:Ht0.
    + destruct (negb _); eauto using paired_reset.
    + destruct Hpaired as [_ Hnone]. specialize (Hnone Ht0). congruence.
  - eexists _, _. split; [done |]. unfold paired. by cbn.
Qed.

Lemma tick_paired letters freqs dict st inp :
  paired (pair_tracker st) →
  paired (pair_tracker (after (tick letters freqs dict st inp))).
Proof.
  intros Hpaired. unfold tick.
  destruct (Rltb _ _); [done |].
  destruct (decode_selcal _ _ _) as [[pr |] | e]; [| done | done].
  destruct (update_paired _ pr (now inp) Hpaired) as (tr' & code & -> & Htr').
  destruct code as [code |]; [| done]. unfold emit_code.
  destruct (negb _); [done |]. destruct (_ || _); [| done].
  by destruct (log_selcal _ _ _) as [file [e |]].
Qed.

(** With a tone table of three tones or more, only [log_selcal] can raise. *)
Lemma tick_raised_inv letters freqs dict st inp e :
  (3 <= length letters)%nat → (3 <= length freqs)%nat →
  paired (pair_tracker st) →
  raised (tick letters freqs dict st inp) = Some e →
  ∃ ev, emitted (tick letters freqs dict st inp) = Some ev
        ∧ (log_selcal (io inp) (em_line ev) (log_file st)).2 = Some e.
Proof.
  intros Hletters Hfreqs Hpaired. unfold tick.
  destruct (Rltb _ _); [done |].
  destruct (decode_selcal_returns (samples inp) letters freqs Hletters Hfreqs)
    as [[pr |] ->]; [| done].
  destruct (update_paired _ pr (now inp) Hpaired) as (tr' & code & -> & Htr').
  destruct code as [code |]; [| done]. unfold emit_code.
  destruct (negb _); [done |]. destruct (_ || _); [| done].
  destruct (log_selcal _ _ _) as [file [e' |]] eqn:Hlog; [| done].
  cbn [raised emitted]. intros [= ->]. eexists. split; [done |].
  cbn [em_line]. by rewrite Hlog.
Qed.

(** ** The filters as Fourier sums *)

Lemma dft_from_snoc trig w j xs x :
  dft_from trig w j (xs ++ [x])
  = dft_from trig w j xs + x * trig (w * INR (j + length xs)).
Proof.
  revert j. induction xs as [| y xs IH]; intros j; cbn [dft_from app length].
  - rewrite Nat.add_0_r. lra.
  - rewrite IH. replace (S j + length xs)%nat with (j + S (length xs))%nat by lia.
    lra.
Qed.

(** The state of the filter and the running sum of [x_m e^(i w (n - m))]. *)
Lemma mag_loop_horner (c s : R) (xs : list R) (p q : R) :
  c * c + s * s = 1 →
  let st := fold_left (mag_step (2 * c)) xs (p, q) in
  fold_left (horner_step c s) xs (p - c * q, s * q)
  = (st.1 - c * st.2, s * st.2).
Proof.
  intros Hcs. revert p q. induction xs as [| x xs IH]; intros p q; [done |].
  cbn [fold_left mag_step]. cbv zeta. rewrite <- IH.
  f_equal. unfold horner_step. cbn [fst snd].
  pose proof (f_equal (Rmult q) Hcs) as Hq. f_equal; lra.
Qed.

Lemma horner_dft (w : R) (xs : list R) :
  let θ := w * (INR (length xs) - 1) in
  fold_left (horner_step (cos w) (sin w)) xs (0, 0)
  = (cos θ * dft_re w xs + sin θ * dft_im w xs,
     sin θ * dft_re w xs - cos θ * dft_im w xs).
Proof.
  induction xs as [| x xs IH] using rev_ind.
  - cbn. f_equal; lra.
  - cbv zeta in *. rewrite fold_left_app, IH. cbn [fold_left].
    unfold horner_step, dft_re, dft_im. cbn [fst snd].
    rewrite !dft_from_snoc, length_app. cbn [length Nat.add].
    rewrite Nat.add_1_r, S_INR.
    set (N := INR (length xs)).
    replace (w * (N + 1 - 1)) with (w * (N - 1) + w) by lra.
    replace (w * N) with (w * (N - 1) + w) by lra.
    set (t := w * (N - 1)).
    pose proof (cos_plus t w) as HC. pose proof (sin_plus t w) as HS.
    pose proof (sin2_cos2 (t + w)) as Hone. unfold Rsqr in Hone.
    set (C := cos (t + w)) in *. set (S := sin (t + w)) in *.
    set (re := dft_from cos w 0 xs). set (im := dft_from sin w 0 xs).
    f_equal.
    + replace (C * (re + x * C) + S * (im + x * S))
        with (C * re + S * im + x * (S * S + C * C)) by ring.
      rewrite Hone, HC, HS. ring.
    + replace (S * (re + x * C) - C * (im + x * S))
        with (S * re - C * im) by ring.
      rewrite HC, HS. ring.
Qed.

Lemma goertzel_coeff_omega (n : nat) (freq fs : R) :
  goertzel_coeff n freq fs = 2 * cos (goertzel_omega n freq fs).
Proof.
  unfold goertzel_coeff, goertzel_omega.
  replace (2.0 * PI * IZR (goertzel_bin n freq fs) / INR n)
    with (2 * PI * IZR (goertzel_bin n freq fs) / INR n) by lra.
  lra.
Qed.

Lemma goertzel_radicand_dft (samples : list R) (freq fs : R) :
  let w := goertzel_omega (length samples) freq fs in
  let st := fold_left (mag_step (goertzel_coeff (length samples) freq fs))
              samples (0, 0) in
  st.2 ^ 2 + st.1 ^ 2 - st.1 * st.2 * goertzel_coeff (length samples) freq fs
  = dft_re w samples ^ 2 + dft_im w samples ^ 2.
Proof.
  intros w st. subst st. rewrite goertzel_coeff_omega. fold w.
  pose proof (sin2_cos2 w) as Hw. unfold Rsqr in Hw.
  assert (cos w * cos w + sin w * sin w = 1) as Hcs by lra.
  pose proof (mag_loop_horner (cos w) (sin w) samples 0 0 Hcs) as Hloop.
  cbv zeta in Hloop.
  replace (0 - cos w * 0, sin w * 0) with (0, 0) in Hloop by (f_equal; lra).
  rewrite horner_dft in Hloop.
  destruct (fold_left (mag_step (2 * cos w)) samples (0, 0)) as [s1 s2].
  cbn [fst snd] in *. injection Hloop as Hre Him.
  set (t := w * (INR (length samples) - 1)) in *.
  pose proof (sin2_cos2 t) as Ht. unfold Rsqr in Ht.
  set (re := dft_re w samples) in *. set (im := dft_im w samples) in *.
  transitivity ((s1 - cos w * s2) ^ 2 + (sin w * s2) ^ 2).
  - pose proof (f_equal (Rmult (s2 * s2)) Hcs) as Hs2. lra.
  - rewrite <- Hre, <- Him.
    pose proof (f_equal (Rmult (re * re)) Ht) as H1.
    pose proof (f_equal (Rmult (im * im)) Ht) as H2. lra.
Qed.

Lemma goertzel_mag_dft (samples : list R) (freq fs : R) :
  let w := goertzel_omega (length samples) freq fs in
  goertzel_mag samples freq fs
  = sqrt (dft_re w samples ^ 2 + dft_im w samples ^ 2).
Proof.
  intros w. unfold goertzel_mag.
  pose proof (goertzel_radicand_dft samples freq fs) as Hrad.
  cbv zeta in Hrad. fold w in Hrad.
  destruct (fold_left _ samples (0, 0)) as [s1 s2]. cbn [fst snd] in Hrad.
  by rewrite Hrad.
Qed.

Lemma dft_from_scale trig w j (a : R) xs :
  dft_from trig w j (map (Rmult a) xs) = a * dft_from trig w j xs.
Proof.
  revert j. induction xs as [| x xs IH]; intros j; cbn [map dft_from]; [lra |].
  rewrite IH. lra.
Qed.

(** X1. [goertzel_mag] is the magnitude of the discrete Fourier sum of the
    window at the angular frequency [2 pi k / N] of its bin. *)
Theorem goertzel_mag_is_dft_magnitude (samples : list R) (freq fs : R) :
  samples ≠ [] →
  let N := length samples in
  let w := 2 * PI * IZR (goertzel_bin N freq fs) / INR N in
  goertzel_mag samples freq fs
  = sqrt (dft_re w samples ^ 2 + dft_im w samples ^ 2)
  ∧ 0 <= goertzel_mag samples freq fs.
Proof.
  intros _ N w. split; [apply goertzel_mag_dft |].
  rewrite goertzel_mag_dft. apply sqrt_pos.
Qed.

Lemma goertzel_mag_is_dft_magnitude_witness :
  goertzel_mag [1; 0; -1; 0] 2000 8000
  = sqrt (dft_re (2 * PI * IZR (goertzel_bin 4 2000 8000) / INR 4)
            [1; 0; -1; 0] ^ 2
          + dft_im (2 * PI * IZR (goertzel_bin 4 2000 8000) / INR 4)
              [1; 0; -1; 0] ^ 2)
  ∧ 0 <= goertzel_mag [1; 0; -1; 0] 2000 8000.
Proof. apply goertzel_mag_is_dft_magnitude. discriminate. Defined.

(** X2. [goertzel_power] is the squared magnitude of the same Fourier sum
    divided by the window length; it is never negative. *)
Theorem goertzel_power_is_dft_power (samples : list R) (freq fs : R) :
  samples ≠ [] →
  let N := length samples in
  let w := 2 * PI * IZR (goertzel_bin N freq fs) / INR N in
  goertzel_power samples freq fs
  = (dft_re w samples ^ 2 + dft_im w samples ^ 2) / INR N
  ∧ 0 <= goertzel_power samples freq fs.
Proof.
  intros Hne N w.
  assert (goertzel_power samples freq fs
          = (dft_re w samples ^ 2 + dft_im w samples ^ 2) / INR N) as Hpow.
  { rewrite goertzel_power_alt, goertzel_mag_dft. fold N.
    rewrite pow2_sqrt; [done |].
    pose proof (pow2_ge_0 (dft_re w samples)).
    pose proof (pow2_ge_0 (dft_im w samples)).
    unfold goertzel_omega. fold N w. lra. }
  split; [exact Hpow |]. rewrite Hpow.
  assert (0 < INR N) as HN.
  { apply lt_0_INR. subst N. destruct samples; [done | cbn; lia]. }
  pose proof (pow2_ge_0 (dft_re w samples)).
  pose proof (pow2_ge_0 (dft_im w samples)).
  apply Rmult_le_pos; [lra |]. left. by apply Rinv_0_lt_compat.
Qed.

Lemma goertzel_power_is_dft_power_witness :
  goertzel_power [1; 0; -1; 0] 2000 8000
  = (dft_re (2 * PI * IZR (goertzel_bin 4 2000 8000) / INR 4)
       [1; 0; -1; 0] ^ 2
     + dft_im (2 * PI * IZR (goertzel_bin 4 2000 8000) / INR 4)
         [1; 0; -1; 0] ^ 2) / INR 4
  ∧ 0 <= goertzel_power [1; 0; -1; 0] 2000 8000.
Proof. apply goertzel_power_is_dft_power. discriminate. Defined.

(** X3. Scaling the samples by [a] scales the magnitude by [|a|] and the
    power by [a^2]. *)
Theorem goertzel_scaling (a : R) (samples : list R) (freq fs : R) :
  samples ≠ [] →
  goertzel_mag (map (Rmult a) samples) freq fs
  = Rabs a * goertzel_mag samples freq fs
  ∧ goertzel_power (map (Rmult a) samples) freq fs
    = a ^ 2 * goertzel_power samples freq fs.
Proof.
  intros _.
  assert (goertzel_mag (map (Rmult a) samples) freq fs
          = Rabs a * goertzel_mag samples freq fs) as Hmag.
  { rewrite !goertzel_mag_dft. cbv zeta. rewrite length_map.
    unfold dft_re, dft_im. rewrite !dft_from_scale.
    set (re := dft_from cos _ 0 samples). set (im := dft_from sin _ 0 samples).
    replace ((a * re) ^ 2 + (a * im) ^ 2) with (a² * (re ^ 2 + im ^ 2))
      by (unfold Rsqr; ring).
    rewrite sqrt_mult_alt by apply Rle_0_sqr.
    by rewrite sqrt_Rsqr_abs. }
  split; [exact Hmag |].
  rewrite !goertzel_power_alt, Hmag, length_map.
  rewrite Rpow_mult_distr, pow2_abs. unfold Rdiv. ring.
Qed.

Lemma goertzel_scaling_witness :
  goertzel_mag (map (Rmult (-2)) [1; 0; -1; 0]) 2000 8000
  = Rabs (-2) * goertzel_mag [1; 0; -1; 0] 2000 8000
  ∧ goertzel_power (map (Rmult (-2)) [1; 0; -1; 0]) 2000 8000
    = (-2) ^ 2 * goertzel_power [1; 0; -1; 0] 2000 8000.
Proof. apply goertzel_scaling. discriminate. Defined.

(** ** The range of the spectral flatness *)

Lemma ln_le_minus_1 (x : R) : 0 < x → ln x <= x - 1.
Proof.
  intros Hx. pose proof (exp_ineq1_le (ln x)) as Hexp.
  rewrite exp_ln in Hexp by done. lra.
Qed.

Lemma sum_ln_le (A : R) (xs : list R) :
  0 < A → Forall (λ x, 0 < x) xs →
  np_sum (map ln xs)
  <= INR (length xs) * ln A + np_sum xs / A - INR (length xs).
Proof.
  intros HA. induction 1 as [| x xs Hx _ IH].
  - unfold np_sum. cbn. lra.
  - unfold np_sum in *. cbn [map fold_right length]. rewrite S_INR.
    assert (ln x <= ln A + x / A - 1) as Hln.
    { replace x with (A * (x / A)) at 1 by (field; lra).
      assert (0 < x / A) as Hq by (by apply Rdiv_lt_0_compat).
      rewrite ln_mult by done. pose proof (ln_le_minus_1 _ Hq). lra. }
    unfold Rdiv in *. lra.
Qed.

Lemma np_sum_pos (xs : list R) :
  xs ≠ [] → Forall (λ x, 0 < x) xs → 0 < np_sum xs.
Proof.
  intros Hne Hpos. destruct Hpos as [| x xs Hx Hxs]; [done |].
  unfold np_sum. cbn [fold_right].
  assert (0 <= fold_right Rplus 0 xs) as Hrest.
  { clear Hne. induction Hxs as [| y ys Hy _ IH]; cbn; lra. }
  lra.
Qed.

Lemma np_sum_replicate (n : nat) (x : R) :
  np_sum (replicate n x) = INR n * x.
Proof.
  induction n as [| n IH]; [unfold np_sum; cbn; lra |].
  cbn [replicate]. unfold np_sum in *. cbn [fold_right].
  rewrite IH, S_INR. lra.
Qed.

(** X4. The spectral flatness of a non-empty list of non-negative magnitudes
    lies in (0, 1] (the geometric mean is at most the arithmetic mean), and
    it is 1 when all magnitudes are equal. *)
Theorem spectral_flatness_range (mags : list R) :
  mags ≠ [] → Forall (λ m, 0 <= m) mags →
  0 < spectral_flatness mags <= 1
  ∧ (∀ m, mags = replicate (length mags) m → spectral_flatness mags = 1).
Proof.
  intros Hne Hpos. unfold spectral_flatness.
  set (ms := map (λ m, m + 1e-12) mags).
  assert (Forall (λ x, 0 < x) ms) as Hms.
  { unfold ms. apply Forall_map. eapply Forall_impl; [exact Hpos |].
    intros m Hm. simpl. lra. }
  assert (ms ≠ []) as Hmsne by (unfold ms; by destruct mags).
  assert (0 < INR (length ms)) as Hlen.
  { apply lt_0_INR. destruct ms; [done | cbn; lia]. }
  assert (0 < np_mean ms) as Hmean.
  { unfold np_mean. apply Rdiv_lt_0_compat; [by apply np_sum_pos | done]. }
  split; [split |].
  - apply Rdiv_lt_0_compat; [apply exp_pos | done].
  - assert (np_mean (map ln ms) <= ln (np_mean ms)) as Hgeo.
    { pose proof (sum_ln_le (np_mean ms) ms Hmean Hms) as Hsum.
      replace (np_sum ms / np_mean ms) with (INR (length ms)) in Hsum.
      2:{ unfold np_mean. field. split; [lra |].
          pose proof (np_sum_pos ms Hmsne Hms). lra. }
      unfold np_mean at 1. rewrite length_map.
      apply (Rmult_le_reg_r (INR (length ms))); [done |].
      unfold Rdiv. rewrite Rmult_assoc, Rinv_l by lra. lra. }
    assert (exp (np_mean (map ln ms)) <= np_mean ms) as Hexp.
    { apply Rle_trans with (exp (ln (np_mean ms)));
        [| right; by apply exp_ln].
      destruct Hgeo as [Hlt | ->]; [left; by apply exp_increasing | lra]. }
    apply (Rmult_le_reg_r (np_mean ms)); [done |].
    unfold Rdiv. rewrite Rmult_assoc, Rinv_l by lra. lra.
  - intros m Hall.
    assert (0 <= m) as Hm.
    { rewrite Hall in Hpos. destruct (length mags) eqn:Hn.
      - by destruct mags.
      - by apply Forall_cons in Hpos as [? _]. }
    assert (ms = replicate (length ms) (m + 1e-12)) as Hrep.
    { assert (length ms = length mags) as -> by (unfold ms; apply length_map).
      transitivity (map (λ m, m + 1e-12) (replicate (length mags) m));
        [unfold ms; by rewrite <- Hall |].
      exact (fmap_replicate (λ m, m + 1e-12) (length mags) m). }
    assert (np_mean ms = m + 1e-12) as Hmean'.
    { unfold np_mean. rewrite Hrep at 1. rewrite np_sum_replicate.
      field. lra. }
    assert (np_mean (map ln ms) = ln (m + 1e-12)) as Hgeo.
    { unfold np_mean. rewrite length_map. rewrite Hrep at 1.
      rewrite fmap_replicate, np_sum_replicate. field. lra. }
    rewrite Hmean', Hgeo, exp_ln by lra. field. lra.
Qed.

Lemma spectral_flatness_range_witness :
  0 < spectral_flatness [3; 0; 4] <= 1
  ∧ spectral_flatness [5; 5; 5] = 1.
Proof.
  split.
  - apply (spectral_flatness_range [3; 0; 4]); [discriminate |].
    repeat constructor; lra.
  - destruct (spectral_flatness_range [5; 5; 5]) as [_ Hflat];
      [discriminate | repeat constructor; lra |].
    apply (Hflat 5). reflexivity.
Defined.

(** ** The ranking of the tone bins *)

Lemma insert_desc_sorted (x : string * R) (l : list (string * R)) :
  StronglySorted louder l → StronglySorted louder (insert_desc x l).
Proof.
  induction 1 as [| y l Hl IH Hy]; cbn [insert_desc].
  - repeat constructor.
  - destruct (Rltb x.2 y.2) eqn:Hlt.
    + apply Rltb_true in Hlt. constructor; [done |].
      apply Forall_forall. intros z [-> | Hz]%insert_desc_elem.
      * unfold louder. lra.
      * by eapply Forall_forall in Hy.
    + apply Rltb_false in Hlt. constructor; [by constructor |].
      constructor; [done |].
      eapply Forall_impl; [exact Hy |]. unfold louder. intros z Hz. lra.
Qed.

Lemma sorted_desc_sorted (l : list (string * R)) :
  StronglySorted louder (sorted_desc l).
Proof.
  induction l as [| x l IH]; cbn [sorted_desc fold_right]; [constructor |].
  by apply insert_desc_sorted.
Qed.

Lemma zip_lookup {A B : Type} (l : list A) (k : list B) (j : nat) (a : A)
    (b : B) :
  l !! j = Some a → k !! j = Some b → (a, b) ∈ zip l k.
Proof.
  revert k j. induction l as [| a' l IH]; intros [| b' k] [| j]; try done;
    cbn [zip lookup list_lookup].
  - intros [= ->] [= ->]. apply list_elem_of_here.
  - intros Hl Hk. apply list_elem_of_further. by apply (IH k j).
Qed.

Lemma index_NoDup (letters : list string) (l : string) (i j : nat) :
  NoDup letters → index letters l = Ok i → letters !! j = Some l → i = j.
Proof.
  intros Hnodup Hi%index_lookup Hj. by eapply NoDup_lookup.
Qed.

(** The two letters of a returned pair are those of the two largest
    magnitudes; every other bin stays at 0.85 times the second one or less. *)
Lemma decode_selcal_dominant (samples : list R) (letters : list string)
    (freqs : list R) (pr : string) :
  NoDup letters → length letters = length freqs →
  decode_selcal samples letters freqs = Ok (Some pr) →
  let mags := map (λ f, goertzel_mag samples f SAMPLE_RATE) freqs in
  ∃ i1 i2 l1 l2 m1 m2,
    i1 ≠ i2
    ∧ letters !! i1 = Some l1 ∧ letters !! i2 = Some l2
    ∧ mags !! i1 = Some m1 ∧ mags !! i2 = Some m2
    ∧ pr = (if (i1 <? i2)%nat then l1 +:+ l2 else l2 +:+ l1)
    ∧ m2 <= m1
    ∧ ∀ j mj, j ≠ i1 → j ≠ i2 → mags !! j = Some mj → mj <= 0.85 * m2.
Proof.
  intros Hnodup Hlen Hdec mags.
  destruct (decode_selcal_inv _ _ _ _ Hdec)
    as (l1 & m1 & l2 & m2 & l3 & m3 & rest & i1 & i2 & f1 & f2 & Hranked
        & Hrival & Hne & Hi1 & Hi2 & Hpick & _).
  fold mags in Hranked.
  pose proof (sorted_desc_sorted (zip letters mags)) as Hsorted.
  rewrite Hranked in Hsorted.
  apply StronglySorted_inv in Hsorted as [Hsorted H1].
  apply StronglySorted_inv in Hsorted as [Hsorted H2].
  apply StronglySorted_inv in Hsorted as [_ H3].
  assert (∀ l m, (l, m) ∈ sorted_desc (zip letters mags) →
                 ∀ i, index letters l = Ok i → mags !! i = Some m) as Hbin.
  { intros l m Hin i Hi.
    apply sorted_desc_elem, zip_elem in Hin as (j & Hl & Hm).
    by rewrite (index_NoDup letters l i j Hnodup Hi Hl). }
  exists i1, i2, l1, l2, m1, m2.
  split; [intros ->; by apply Hne, (index_inj letters _ _ i2) |].
  split; [by apply index_lookup |]. split; [by apply index_lookup |].
  split; [apply (Hbin l1); [rewrite Hranked; set_solver | done] |].
  split; [apply (Hbin l2); [rewrite Hranked; set_solver | done] |].
  split; [destruct (i1 <? i2)%nat; congruence |].
  split; [by apply Forall_cons in H1 as [? _] |].
  intros j mj Hj1 Hj2 Hmj.
  assert (is_Some (letters !! j)) as [lj Hlj].
  { apply lookup_lt_is_Some. rewrite Hlen. apply lookup_lt_Some in Hmj.
    unfold mags in Hmj. by rewrite length_map in Hmj. }
  assert ((lj, mj) ∈ sorted_desc (zip letters mags)) as Hin
    by (by apply sorted_desc_elem, zip_lookup with j).
  rewrite Hranked in Hin.
  apply elem_of_cons in Hin as [[= -> ->] | Hin].
  { exfalso. apply Hj1. symmetry. by apply (index_NoDup letters l1). }
  apply elem_of_cons in Hin as [[= -> ->] | Hin].
  { exfalso. apply Hj2. symmetry. by apply (index_NoDup letters l2). }
  apply elem_of_cons in Hin as [[= -> ->] | Hin]; [lra |].
  eapply Forall_forall in H3; [| exact Hin]. unfold louder in H3.
  cbn [snd] in H3. lra.
Qed.

Lemma NoDup_letters4 : NoDup letters4.
Proof. apply (bool_decide_unpack _). vm_compute. reflexivity. Qed.

Lemma mags4_AB :
  map (λ f, goertzel_mag window_AB f SAMPLE_RATE) freqs4
  = [2000; 2000; 0; 2000].
Proof.
  destruct mags_AB as (H0 & H2000 & H4000).
  unfold freqs4. cbn [map]. rewrite H0, H2000, H4000.
  unfold window_AB. rewrite goertzel_mag_6000.
  rewrite (sqrt_numeral _ 2000) by lra. reflexivity.
Qed.

(** X5. The pair returned by [decode_selcal] names the two strongest bins of
    the tone table: every other bin has a magnitude of at most 0.85 times
    that of the weaker of the two. *)
Theorem decode_selcal_two_strongest (samples : list R)
    (letters : list string) (freqs : list R) (pr : string) :
  NoDup letters → length letters = length freqs →
  decode_selcal samples letters freqs = Ok (Some pr) →
  let mags := map (λ f, goertzel_mag samples f SAMPLE_RATE) freqs in
  ∃ i1 i2 l1 l2 m1 m2,
    i1 ≠ i2
    ∧ letters !! i1 = Some l1 ∧ letters !! i2 = Some l2
    ∧ mags !! i1 = Some m1 ∧ mags !! i2 = Some m2
    ∧ pr = (if (i1 <? i2)%nat then l1 +:+ l2 else l2 +:+ l1)
    ∧ m2 <= m1
    ∧ ∀ j mj, j ≠ i1 → j ≠ i2 → mags !! j = Some mj → mj <= 0.85 * m2.
Proof. apply decode_selcal_dominant. Qed.

Lemma decode_selcal_two_strongest_witness :
  ∃ i1 i2 l1 l2 m1 m2,
    i1 ≠ i2
    ∧ letters4 !! i1 = Some l1 ∧ letters4 !! i2 = Some l2
    ∧ map (λ f, goertzel_mag window_CA f SAMPLE_RATE) freqs4 !! i1 = Some m1
    ∧ map (λ f, goertzel_mag window_CA f SAMPLE_RATE) freqs4 !! i2 = Some m2
    ∧ "AC"%string = (if (i1 <? i2)%nat then l1 +:+ l2 else l2 +:+ l1)
    ∧ m2 <= m1
    ∧ ∀ j mj, j ≠ i1 → j ≠ i2 →
        map (λ f, goertzel_mag window_CA f SAMPLE_RATE) freqs4 !! j = Some mj →
        mj <= 0.85 * m2.
Proof.
  exact (decode_selcal_two_strongest window_CA letters4 freqs4 "AC"
           NoDup_letters4 eq_refl decode4_CA).
Defined.

(** X6. Three bins within 15 % of the strongest one: no pair.  When three
    different bins have a magnitude above 0.85 times the largest magnitude,
    [decode_selcal] returns [None]. *)
Theorem decode_selcal_three_rivals (samples : list R)
    (letters : list string) (freqs : list R) (a b c : nat)
    (ma mb mc top : R) :
  samples ≠ [] →
  NoDup letters → length letters = length freqs →
  let mags := map (λ f, goertzel_mag samples f SAMPLE_RATE) freqs in
  a ≠ b → a ≠ c → b ≠ c →
  mags !! a = Some ma → mags !! b = Some mb → mags !! c = Some mc →
  Forall (λ m, m <= top) mags →
  0.85 * top < ma → 0.85 * top < mb → 0.85 * top < mc →
  decode_selcal samples letters freqs = Ok None.
Proof.
  intros _ Hnodup Hlen mags Hab Hac Hbc Ha Hb Hc Htop Hma Hmb Hmc.
  assert (3 <= length freqs)%nat as Hthree.
  { apply lookup_lt_Some in Ha, Hb, Hc. unfold mags in *.
    rewrite length_map in Ha, Hb, Hc. lia. }
  destruct (decode_selcal_returns samples letters freqs) as [[pr |] Hdec];
    [lia | done | | done].
  exfalso.
  destruct (decode_selcal_dominant _ _ _ _ Hnodup Hlen Hdec)
    as (i1 & i2 & l1 & l2 & m1 & m2 & Hne & _ & _ & _ & Hm2 & _ & _ & Hrest).
  fold mags in Hm2, Hrest.
  assert (m2 <= top) as Hle.
  { eapply Forall_forall in Htop; [exact Htop |].
    by eapply list_elem_of_lookup_2. }
  assert (∀ j mj, mags !! j = Some mj → 0.85 * top < mj →
                  j = i1 ∨ j = i2) as Hpair.
  { intros j mj Hj Hbig.
    destruct (decide (j = i1)) as [| Hj1]; [by left |].
    destruct (decide (j = i2)) as [| Hj2]; [by right |].
    specialize (Hrest j mj Hj1 Hj2 Hj). lra. }
  destruct (Hpair a ma Ha Hma), (Hpair b mb Hb Hmb), (Hpair c mc Hc Hmc);
    congruence.
Qed.

Lemma decode_selcal_three_rivals_witness :
  decode_selcal window_AB letters4 freqs4 = Ok None.
Proof.
  apply (decode_selcal_three_rivals window_AB letters4 freqs4 0 1 3
           2000 2000 2000 2000).
  - apply window_not_empty.
  - exact NoDup_letters4.
  - reflexivity.
  - discriminate.
  - discriminate.
  - discriminate.
  - by rewrite mags4_AB.
  - by rewrite mags4_AB.
  - by rewrite mags4_AB.
  - rewrite mags4_AB. repeat constructor; lra.
  - lra.
  - lra.
  - lra.
Defined.

(** ** The tone table and the tracker *)

(** X7. [decode_selcal] needs a tone table of three tones: with fewer than
    two letters or frequencies it raises [ValueError] (the unpacking of
    [ranked[:2]]), with exactly two it raises [IndexError] ([ranked[2]]),
    with three or more it raises nothing. *)
Theorem decode_selcal_table_size (samples : list R) (letters : list string)
    (freqs : list R) :
  samples ≠ [] →
  let tones := (length letters `min` length freqs)%nat in
  ((tones < 2)%nat → decode_selcal samples letters freqs = Raise ValueError)
  ∧ (tones = 2%nat → decode_selcal samples letters freqs = Raise IndexError)
  ∧ ((3 <= tones)%nat → ∃ r, decode_selcal samples letters freqs = Ok r).
Proof.
  intros _ tones.
  pose proof (length_sorted_desc
    (zip letters (map (λ f, goertzel_mag samples f SAMPLE_RATE) freqs)))
    as Hlen.
  rewrite length_zip, length_map in Hlen. fold tones in Hlen.
  split; [| split].
  - intros Hfew. unfold decode_selcal.
    destruct (sorted_desc _) as [| [l1 m1] [| [l2 m2] rest]];
      cbn [length] in Hlen; try done; lia.
  - intros Htwo. unfold decode_selcal.
    destruct (sorted_desc _) as [| [l1 m1] [| [l2 m2] [| x rest]]];
      cbn [length] in Hlen; try done; lia.
  - intros Hthree. apply decode_selcal_returns; lia.
Qed.

Lemma decode_selcal_table_size_witness :
  decode_selcal window_AC ["A"%string] freqs4 = Raise ValueError
  ∧ decode_selcal window_AC ["A"; "B"]%string freqs4 = Raise IndexError
  ∧ ∃ r, decode_selcal window_AC letters3 freqs4 = Ok r.
Proof.
  split; [| split].
  - apply (proj1 (decode_selcal_table_size window_AC ["A"%string] freqs4
                    (window_not_empty 1 0 1 0))).
    unfold freqs4. cbn [length]. lia.
  - apply (proj1 (proj2 (decode_selcal_table_size window_AC
                           ["A"; "B"]%string freqs4
                           (window_not_empty 1 0 1 0)))).
    reflexivity.
  - apply (proj2 (proj2 (decode_selcal_table_size window_AC letters3 freqs4
                           (window_not_empty 1 0 1 0)))).
    unfold freqs4, letters3. cbn [length]. lia.
Defined.

(** X8. [update] returns a code only for a pair that differs from the stored
    first pair and arrives [PAIR_GAP_MIN] to [PAIR_GAP_MAX] after it; the
    code is the stored pair followed by the new one and the tracker is reset. *)
Theorem update_code_inv (self : PairTracker) (pr : string) (now : R)
    (tr : PairTracker) (code : string) :
  update self pr now = Ok (tr, Some code) →
  ∃ fp t0,
    first_pair self = Some fp ∧ first_time self = Some t0
    ∧ pr ≠ fp ∧ code = fp +:+ pr
    ∧ PAIR_GAP_MIN <= now - t0 <= PAIR_GAP_MAX
    ∧ tr = reset.
Proof.
  unfold update.
  destruct (first_pair self) as [fp |]; [| discriminate].
  destruct (bool_decide (pr = fp)) eqn:Hsame; [discriminate |].
  apply bool_decide_eq_false in Hsame.
  destruct (first_time self) as [t0 |]; [| discriminate].
  destruct (Rleb PAIR_GAP_MIN (now - t0)) eqn:Hmin; [| discriminate].
  destruct (Rleb (now - t0) PAIR_GAP_MAX) eqn:Hmax; [| discriminate].
  cbn [andb negb]. intros [= <- <-].
  apply Rleb_true in Hmin, Hmax. by exists fp, t0.
Qed.

Lemma update_code_inv_witness :
  ∃ fp t0,
    first_pair (awaiting "AB" 10) = Some fp
    ∧ first_time (awaiting "AB" 10) = Some t0
    ∧ "CD"%string ≠ fp ∧ "ABCD"%string = fp +:+ "CD"
    ∧ PAIR_GAP_MIN <= 10.6 - t0 <= PAIR_GAP_MAX
    ∧ reset = reset.
Proof.
  apply (update_code_inv (awaiting "AB" 10) "CD" 10.6 reset "ABCD").
  apply (update_joins _ "AB"%string 10);
    [reflexivity | reflexivity | discriminate |].
  unfold PAIR_GAP_MIN, PAIR_GAP_MAX. lra.
Defined.

Lemma feed_same (tr : PairTracker) (fp : string) (ts : list R) :
  first_pair tr = Some fp →
  feed tr (map (λ t, (fp, t)) ts) = Ok (tr, []).
Proof.
  intros Hfp. induction ts as [| t ts IH]; [done |].
  cbn [map feed]. rewrite (update_same _ _ _ Hfp).
  cbn [mbind result_bind]. by rewrite IH.
Qed.

Lemma feed_app (tr : PairTracker) (calls1 calls2 : list (string * R))
    (tr1 : PairTracker) (codes1 : list string) :
  feed tr calls1 = Ok (tr1, codes1) →
  feed tr (calls1 ++ calls2)
  = '(tr2, codes2) ← feed tr1 calls2; Ok (tr2, codes1 ++ codes2).
Proof.
  revert tr codes1. induction calls1 as [| [pr now] calls1 IH];
    intros tr codes1.
  - intros [= <- <-]. cbn [app].
    by destruct (feed tr calls2) as [[tr2 codes2] |].
  - cbn [app feed].
    destruct (update tr pr now) as [[tr' code] |]; [| discriminate].
    cbn [mbind result_bind].
    destruct (feed tr' calls1) as [[tr'' codes] |] eqn:Hfeed; [| discriminate].
    cbn [mbind result_bind]. intros [= <- <-].
    rewrite (IH _ _ Hfeed).
    destruct (feed tr'' calls2) as [[tr2 codes2] |]; [| done].
    cbn [mbind result_bind]. by rewrite app_assoc.
Qed.

(** X9. The gap is measured from the first time the first pair was heard:
    however often, and whenever, the same pair is heard again, the stored
    time does not move, and the next different pair gives a code exactly
    when it comes [PAIR_GAP_MIN] to [PAIR_GAP_MAX] after that first time;
    either way the tracker is idle afterwards. *)
Theorem gap_from_first_sighting (fp pr : string) (t0 t : R) (ts : list R) :
  pr ≠ fp →
  let calls := (fp, t0) :: map (λ t', (fp, t')) ts ++ [(pr, t)] in
  (PAIR_GAP_MIN <= t - t0 <= PAIR_GAP_MAX →
   feed reset calls = Ok (reset, [fp +:+ pr]))
  ∧ (t - t0 < PAIR_GAP_MIN ∨ PAIR_GAP_MAX < t - t0 →
     feed reset calls = Ok (reset, [])).
Proof.
  intros Hne calls.
  assert (feed reset ((fp, t0) :: map (λ t', (fp, t')) ts)
          = Ok (awaiting fp t0, [])) as Hfirst.
  { cbn [feed]. rewrite update_idle by done. cbn [mbind result_bind].
    fold (awaiting fp t0). by rewrite feed_same. }
  subst calls. rewrite app_comm_cons.
  split; intros Hgap; rewrite (feed_app _ _ _ _ _ Hfirst); cbn [feed].
  - by rewrite (update_joins _ fp t0).
  - by rewrite (update_out_of_gap _ fp t0).
Qed.

Lemma gap_from_first_sighting_witness :
  feed reset [("AB", 10); ("AB", 10.2); ("AB", 10.4); ("CD", 10.6)]%string
  = Ok (reset, ["ABCD"%string])
  ∧ feed reset [("AB", 10); ("AB", 10.2); ("AB", 10.8); ("CD", 11)]%string
    = Ok (reset, []).
Proof.
  split.
  - apply (gap_from_first_sighting "AB" "CD" 10 10.6 [10.2; 10.4]);
      [discriminate |].
    unfold PAIR_GAP_MIN, PAIR_GAP_MAX. lra.
  - apply (gap_from_first_sighting "AB" "CD" 10 11 [10.2; 10.8]);
      [discriminate |].
    right. unfold PAIR_GAP_MAX. lra.
Defined.

Lemma feed_invariant (tr : PairTracker) (calls : list (string * R)) :
  paired tr →
  ∃ tr' codes,
    feed tr calls = Ok (tr', codes) ∧ paired tr'
    ∧ (2 * length codes
       <= length calls + pending tr)%nat.
Proof.
  revert tr. induction calls as [| [pr now] calls IH]; intros tr Hpaired.
  - exists tr, []. cbn [feed length]. split; [done |]. split; [done | lia].
  - cbn [feed length].
    assert (∃ tr1 code, update tr pr now = Ok (tr1, code) ∧ paired tr1
            ∧ (2 * length (option_list code)
               + pending tr1
               <= 1 + pending tr)%nat)
      as (tr1 & code & Hup & Hpaired1 & Hcount).
    { unfold update. destruct (first_pair tr) as [fp |] eqn:Hfp.
      - destruct (bool_decide (pr = fp)).
        + eexists _, _. split; [done |]. split; [done |].
          unfold pending. rewrite Hfp. cbn. lia.
        + destruct (first_time tr) as [t0 |] eqn:Ht0.
          * destruct (negb _); eexists _, _; (split; [done |]);
              (split; [apply paired_reset |]); unfold pending;
              rewrite Hfp; cbn; lia.
          * destruct Hpaired as [_ Hnone]. specialize (Hnone Ht0).
            congruence.
      - eexists _, _. split; [done |]. split; [by unfold paired |].
        unfold pending. rewrite Hfp. cbn. lia. }
    destruct (IH tr1 Hpaired1) as (tr' & codes & Hfeed & Hpaired' & Hcodes).
    exists tr', (option_list code ++ codes).
    rewrite Hup. cbn [mbind result_bind]. rewrite Hfeed.
    cbn [mbind result_bind]. split; [done |]. split; [done |].
    rewrite length_app. lia.
Qed.

(** X10. However it is called, starting from the tracker of [__init__],
    [update] never raises ([first_time] is set whenever [first_pair] is), and
    it returns at most one code for every two calls. *)
Theorem tracker_never_raises (calls : list (string * R)) :
  ∃ tr codes,
    feed reset calls = Ok (tr, codes)
    ∧ (first_pair tr = None ↔ first_time tr = None)
    ∧ (2 * length codes <= length calls)%nat.
Proof.
  destruct (feed_invariant reset calls paired_reset)
    as (tr & codes & Hfeed & Hpaired & Hcount).
  exists tr, codes. unfold pending in Hcount. cbn in Hcount.
  split; [done |]. split; [done | lia].
Qed.

(** ** The terminal and the log file *)

(** ** Invariants of the loop *)

Lemma run_invariant (I : state → Prop) letters freqs dict inputs st :
  (∀ st inp, I st → I (after (tick letters freqs dict st inp))) →
  I st →
  let '(evs, st', r) := run letters freqs dict st inputs in
  I st'
  ∧ (∀ ev, ev ∈ evs →
       ∃ st0 inp, inp ∈ inputs ∧ I st0
                  ∧ emitted (tick letters freqs dict st0 inp) = Some ev)
  ∧ (∀ e, r = Some e →
       ∃ st0 inp, inp ∈ inputs ∧ I st0
                  ∧ raised (tick letters freqs dict st0 inp) = Some e).
Proof.
  intros Hstep. revert st. induction inputs as [| inp inputs IH]; intros st HI.
  - cbn. split; [done |]. split; [by intros ev ?%elem_of_nil | done].
  - rewrite run_cons. cbv zeta.
    set (o := tick letters freqs dict st inp).
    assert (∀ ev, ev ∈ option_list (emitted o) →
              ∃ st0 inp0, inp0 ∈ inp :: inputs ∧ I st0
                ∧ emitted (tick letters freqs dict st0 inp0) = Some ev)
      as Hhere.
    { intros ev Hev. exists st, inp. split; [apply list_elem_of_here |].
      split; [done |]. fold o. destruct (emitted o); [| by apply elem_of_nil in Hev].
      apply list_elem_of_singleton in Hev. by subst. }
    destruct (raised o) as [e |] eqn:Hraised.
    + split; [by apply Hstep |]. split; [done |].
      intros e' [= <-]. exists st, inp.
      split; [apply list_elem_of_here | done].
    + specialize (IH (after o) (Hstep st inp HI)).
      destruct (run letters freqs dict (after o) inputs) as [[evs st'] r].
      destruct IH as (HI' & Hevs & Hr). split; [done |]. split.
      * intros ev [Hev | Hev]%elem_of_app; [by apply Hhere |].
        destruct (Hevs ev Hev) as (st0 & inp0 & Hin & HI0 & Hemit).
        exists st0, inp0. split; [by apply list_elem_of_further | done].
      * intros e Hre. destruct (Hr e Hre) as (st0 & inp0 & Hin & HI0 & Hrz).
        exists st0, inp0. split; [by apply list_elem_of_further | done].
Qed.

Lemma unlines_snoc (lines : list string) (line : string) :
  unlines (lines ++ [line]) = unlines lines +:+ line +:+ newline.
Proof.
  induction lines as [| l lines IH]; cbn [app unlines fold_right].
  - by rewrite append_nil_r.
  - fold (unlines (lines ++ [line])). fold (unlines lines).
    rewrite IH. by rewrite !append_assoc.
Qed.

Lemma log_selcal_completed (env : io_env) (line : string)
    (file file' : option string) :
  log_selcal env line file = (file', None) →
  file' = Some (line +:+ newline +:+ default ""%string file).
Proof.
  unfold log_selcal. destruct file as [old |]; cbn [default].
  - destruct (read_denied env); [discriminate |].
    destruct (write_denied env);
      [destruct (write_reached env); discriminate |].
    intros [= <-]. by rewrite append_assoc.
  - destruct (write_denied env);
      [destruct (write_reached env); discriminate |].
    intros [= <-]. by rewrite append_assoc.
Qed.

(** What a turn does to the terminal and to the log file. *)
Lemma tick_outputs letters freqs dict st inp :
  let o := tick letters freqs dict st inp in
  stdout (after o) = stdout st ++ map em_line (option_list (emitted o))
  ∧ (raised o = None →
     log_file (after o)
     = match emitted o with
       | Some ev =>
           Some (em_line ev +:+ newline +:+ default ""%string (log_file st))
       | None => log_file st
       end).
Proof.
  intros o. destruct (emitted o) as [ev |] eqn:Hev.
  - destruct (tick_emitted_inv _ _ _ _ _ _ Hev)
      as (pr & tr & code & _ & _ & _ & Htick).
    fold o in Htick. rewrite Htick in Hev |- *.
    destruct (emit_code_emitted _ _ _ _ _ _ Hev)
      as (_ & _ & _ & Hout & Hlog & _).
    split; [done |]. intros Hr. rewrite Hr in Hlog.
    by rewrite (log_selcal_completed _ _ _ _ (eq_sym Hlog)).
  - destruct (tick_quiet _ _ _ _ _ Hev) as (Hout & Hlog & _). fold o in Hout, Hlog.
    cbn [option_list map]. by rewrite app_nil_r.
Qed.

Lemma logged_cons (line : string) (lines : list string) (old : option string) :
  logged lines (Some (line +:+ newline +:+ default ""%string old))
  = logged (line :: lines) old.
Proof.
  unfold logged. cbn [rev default]. rewrite unlines_snoc.
  destruct lines as [| l lines].
  - cbn [rev unlines fold_right]. f_equal.
    change ("" +:+ line +:+ newline)%string with (line +:+ newline).
    by rewrite append_assoc.
  - f_equal. by rewrite !append_assoc.
Qed.

Lemma run_outputs letters freqs dict inputs st :
  let '(evs, st', r) := run letters freqs dict st inputs in
  stdout st' = stdout st ++ map em_line evs
  ∧ (r = None → log_file st' = logged (map em_line evs) (log_file st)).
Proof.
  revert st. induction inputs as [| inp inputs IH]; intros st.
  - cbn. by rewrite app_nil_r.
  - rewrite run_cons. cbv zeta.
    pose proof (tick_outputs letters freqs dict st inp) as [Hout Hlog].
    set (o := tick letters freqs dict st inp) in *.
    destruct (raised o) as [e |] eqn:Hraised; [done |].
    specialize (IH (after o)).
    destruct (run letters freqs dict (after o) inputs) as [[evs st'] r].
    destruct IH as [Hout' Hlog']. split.
    + rewrite Hout', Hout, map_app. by rewrite app_assoc.
    + intros Hr. rewrite (Hlog' Hr), (Hlog eq_refl).
      destruct (emitted o) as [ev |]; [| done].
      cbn [option_list app map]. apply logged_cons.
Qed.

(** X11. The log file mirrors the terminal.  When [listen_live] is stopped
    by Ctrl-C it has printed the banner, the line of every emission in
    order, and "Stopped."; the log file then holds the same lines, newest
    first, each followed by a newline, in front of what it held before (and
    it is untouched, not even created, if nothing was emitted). *)
Theorem log_mirrors_stdout (letters : list string) (freqs : list R)
    (selcal_dict : gmap string string) (file : option string)
    (inputs : list tick_input) (evs : list emission) (st : state) :
  listen_live letters freqs selcal_dict file inputs = (evs, st, None) →
  let lines := map em_line evs in
  stdout st = [banner] ++ lines ++ [stopped]
  ∧ log_file st
    = match lines with
      | [] => file
      | _ => Some (unlines (rev lines) +:+ default ""%string file)
      end.
Proof.
  unfold listen_live.
  pose proof (run_outputs letters freqs selcal_dict inputs
                (initial_state file)) as Hrun.
  destruct (run _ _ _ _ inputs) as [[evs' st'] [e |]]; [discriminate |].
  destruct Hrun as [Hout Hlog]. intros [= <- <-]. cbn [stdout log_file].
  rewrite Hout, (Hlog eq_refl). cbn [initial_state stdout log_file].
  split; [by rewrite <- app_assoc | done].
Qed.

Lemma two_calls_run :
  ∃ st,
    listen_live letters4 freqs4 ∅ None
      (call 10 0 io_ok io_ok ++ call 20 10 io_ok io_ok)
    = ([ACBD_at ∅ 10 0; ACBD_at ∅ 20 10], st, None).
Proof.
  unfold listen_live.
  rewrite (run_app _ _ _ _ _ _ _ _ run_first_call).
  destruct (call_emits ∅ (after_ACBD reset) 20 10 io_ok io_ok)
    as (st' & r & -> & _ & _ & Hlog & _); [reflexivity | |].
  { right. cbn [last_full_time after_ACBD]. unfold FULL_CODE_LOCKOUT. lra. }
  rewrite log_selcal_io_ok in Hlog. injection Hlog as _ Hr. subst r.
  eexists. reflexivity.
Qed.

Lemma log_mirrors_stdout_witness :
  ∃ st,
    stdout st
    = [banner; "06/11/26 10:00:01 ACBD "; "06/11/26 10:00:11 ACBD ";
       stopped]%string
    ∧ log_file st = Some "06/11/26 10:00:11 ACBD 
06/11/26 10:00:01 ACBD 
"%string.
Proof.
  destruct two_calls_run as [st Hrun]. exists st.
  exact (log_mirrors_stdout _ _ _ _ _ _ _ Hrun).
Defined.

(** ** The codes of a run *)

Lemma update_returns_code (self : PairTracker) (pr : string) (now : R)
    (tr : PairTracker) (code : string) :
  update self pr now = Ok (tr, Some code) →
  ∃ fp t0,
    first_pair self = Some fp ∧ first_time self = Some t0
    ∧ pr ≠ fp ∧ code = fp +:+ pr
    ∧ PAIR_GAP_MIN <= now - t0 <= PAIR_GAP_MAX
    ∧ tr = reset.
Proof.
  unfold update.
  destruct (first_pair self) as [fp |]; [| discriminate].
  destruct (bool_decide (pr = fp)) eqn:Hsame; [discriminate |].
  apply bool_decide_eq_false in Hsame.
  destruct (first_time self) as [t0 |]; [| discriminate].
  destruct (Rleb PAIR_GAP_MIN (now - t0)) eqn:Hmin; [| discriminate].
  destruct (Rleb (now - t0) PAIR_GAP_MAX) eqn:Hmax; [| discriminate].
  cbn [andb negb]. intros [= <- <-].
  apply Rleb_true in Hmin, Hmax. by exists fp, t0.
Qed.

(** The tracker after [update]: idle, as before, or holding the pair and the
    time of this call. *)
Lemma update_tracker (self : PairTracker) (pr : string) (now : R)
    (tr : PairTracker) (code : option string) :
  update self pr now = Ok (tr, code) →
  tr = reset ∨ tr = self
  ∨ (first_pair tr = Some pr ∧ first_time tr = Some now).
Proof.
  unfold update. destruct (first_pair self) as [fp |].
  - destruct (bool_decide (pr = fp)); [intros [= <- <-]; auto |].
    destruct (first_time self) as [t0 |]; [| discriminate].
    destruct (negb _); intros [= <- <-]; auto.
  - intros [= <- <-]. auto.
Qed.

Lemma tick_tracker letters freqs dict st inp :
  let tr := pair_tracker (after (tick letters freqs dict st inp)) in
  tr = reset ∨ tr = pair_tracker st
  ∨ (∃ pr, decode_selcal (samples inp) letters freqs = Ok (Some pr)
           ∧ first_pair tr = Some pr ∧ first_time tr = Some (now inp)).
Proof.
  unfold tick.
  destruct (Rltb _ _); [auto |].
  destruct (decode_selcal _ _ _) as [[pr |] | e] eqn:Hdec; [| auto | auto].
  destruct (update _ _ _) as [[tr code] | e] eqn:Hup; [| auto].
  assert (pair_tracker (after (match code with
            | Some c => emit_code dict st inp tr c
            | None => continue (with_tracker st tr) end)) = tr) as Htr.
  { destruct code as [c |]; [| done]. unfold emit_code.
    destruct (negb _); [done |]. destruct (_ || _); [| done].
    by destruct (log_selcal _ _ _) as [f [e |]]. }
  destruct code as [c |]; cbv zeta; rewrite Htr;
    (destruct (update_tracker _ _ _ _ _ Hup) as [-> | [-> | [? ?]]];
     [auto | auto | right; right; by exists pr]).
Qed.

(** A printed code closes a pair of pairs heard within the gap. *)
Lemma tick_emitted_gap letters freqs dict st inp ev :
  emitted (tick letters freqs dict st inp) = Some ev →
  ∃ fp pr t0,
    first_pair (pair_tracker st) = Some fp
    ∧ first_time (pair_tracker st) = Some t0
    ∧ decode_selcal (samples inp) letters freqs = Ok (Some pr)
    ∧ pr ≠ fp ∧ em_code ev = fp +:+ pr ∧ em_time ev = now inp
    ∧ PAIR_GAP_MIN <= now inp - t0 <= PAIR_GAP_MAX
    ∧ pair_tracker (after (tick letters freqs dict st inp)) = reset.
Proof.
  intros Hev.
  destruct (tick_emitted_inv _ _ _ _ _ _ Hev)
    as (pr & tr & code & _ & Hdec & Hup & Htick).
  rewrite Htick in Hev |- *.
  destruct (emit_code_emitted _ _ _ _ _ _ Hev)
    as (_ & _ & -> & _ & _ & Htr & _).
  destruct (update_returns_code _ _ _ _ _ Hup)
    as (fp & t0 & Hfp & Ht0 & Hne & -> & Hgap & ->).
  exists fp, pr, t0. by rewrite Htr.
Qed.

Lemma run_spacing letters freqs dict inputs st (te : R) :
  clock_steady inputs →
  Forall (λ inp, te <= now inp) inputs →
  (∀ t0, first_time (pair_tracker st) = Some t0 → te <= t0) →
  let '(evs, st', r) := run letters freqs dict st inputs in
  (∀ e, head evs = Some e → te + PAIR_GAP_MIN <= em_time e)
  ∧ (∀ i e1 e2, evs !! i = Some e1 → evs !! S i = Some e2 →
       em_time e1 + PAIR_GAP_MIN <= em_time e2).
Proof.
  revert st te. induction inputs as [| inp inputs IH]; intros st te Hsteady Hte Htr.
  - cbn. split; [done | by intros [| i] ? ? ?].
  - rewrite run_cons. cbv zeta.
    apply StronglySorted_inv in Hsteady as [Hsteady Hlater].
    apply Forall_cons in Hte as [Hnow Hte].
    set (o := tick letters freqs dict st inp).
    destruct (emitted o) as [ev |] eqn:Hev.
    + destruct (tick_emitted_gap _ _ _ _ _ _ Hev)
        as (fp & pr & t0 & _ & Ht0 & _ & _ & _ & Htime & Hgap & Hreset).
      fold o in Hreset. specialize (Htr t0 Ht0).
      destruct (raised o) as [e |].
      * cbn [option_list]. split; [intros e' [= <-]; lra |].
        by intros [| i] ? ? ?.
      * specialize (IH (after o) (now inp) Hsteady Hlater).
        destruct (run letters freqs dict (after o) inputs) as [[evs st'] r].
        destruct IH as [Hfirst Hnext]; [by rewrite Hreset |].
        cbn [option_list app]. split; [intros e' [= <-]; lra |].
        intros [| i] e1 e2 He1 He2.
        -- assert (e1 = ev) as -> by (cbn in He1; congruence).
           rewrite Htime. apply Hfirst.
           destruct evs; [done | cbn in He2 |- *; congruence].
        -- by apply (Hnext i).
    + destruct (raised o) as [e |]; [split; [done | by intros [| i] ? ? ?] |].
      specialize (IH (after o) te Hsteady).
      destruct (run letters freqs dict (after o) inputs) as [[evs st'] r].
      cbn [option_list app]. apply IH.
      * eapply Forall_impl; [exact Hlater |]. intros inp' Hle. cbn in Hle. lra.
      * intros t0 Ht0.
        destruct (tick_tracker letters freqs dict st inp)
          as [Hr | [Hr | (pr & _ & _ & Hr)]]; fold o in Hr.
        -- by rewrite Hr in Ht0.
        -- rewrite Hr in Ht0. by apply Htr.
        -- rewrite Hr in Ht0. by injection Ht0 as <-.
Qed.

(** X12. When the readings of [time.time()] do not go backwards, two
    consecutive emissions, of the same code or not, are at least
    [PAIR_GAP_MIN] seconds apart: after a code the tracker is idle and the
    next code needs a first pair and, [PAIR_GAP_MIN] or more later, a
    second one. *)
Theorem emissions_spaced_by_gap (letters : list string) (freqs : list R)
    (selcal_dict : gmap string string) (file : option string)
    (inputs : list tick_input) (i : nat) (e1 e2 : emission) :
  clock_steady inputs →
  let evs := (listen_live letters freqs selcal_dict file inputs).1.1 in
  evs !! i = Some e1 → evs !! S i = Some e2 →
  PAIR_GAP_MIN <= em_time e2 - em_time e1.
Proof.
  intros Hsteady evs. subst evs. rewrite listen_live_emissions.
  destruct inputs as [| inp inputs]; [done |].
  pose proof (run_spacing letters freqs selcal_dict (inp :: inputs)
                (initial_state file) (now inp) Hsteady) as Hrun.
  destruct (run _ _ _ _ (inp :: inputs)) as [[evs st'] r].
  destruct Hrun as [_ Hnext]; [| done |].
  - apply StronglySorted_inv in Hsteady as [_ Hlater].
    constructor; [lra | done].
  - cbn [fst]. intros He1 He2. specialize (Hnext i e1 e2 He1 He2). lra.
Qed.

Lemma emissions_spaced_by_gap_witness :
  PAIR_GAP_MIN <= em_time (ACBD_at ∅ 20 10) - em_time (ACBD_at ∅ 10 0).
Proof.
  apply (emissions_spaced_by_gap letters4 freqs4 ∅ None
           (call 10 0 io_ok io_ok ++ call 20 10 io_ok io_ok) 0%nat).
  - unfold clock_steady, call. cbn [app].
    repeat (constructor; [| repeat (constructor; [cbn [now heard]; lra |])]);
      constructor.
  - by rewrite two_calls_emissions.
  - by rewrite two_calls_emissions.
Defined.

Lemma listen_live_raised letters freqs dict file inputs :
  (listen_live letters freqs dict file inputs).2
  = (run letters freqs dict (initial_state file) inputs).2.
Proof.
  unfold listen_live.
  destruct (run letters freqs dict (initial_state file) inputs)
    as [[evs st] [e |]]; reflexivity.
Qed.

Lemma run_paired letters freqs dict inputs st :
  paired (pair_tracker st) →
  paired (pair_tracker (run letters freqs dict st inputs).1.2).
Proof.
  revert st. induction inputs as [| inp inputs IH]; intros st Hpaired; [done |].
  rewrite run_cons. cbv zeta.
  pose proof (tick_paired letters freqs dict st inp Hpaired) as Hafter.
  destruct (raised (tick letters freqs dict st inp)); [done |].
  specialize (IH _ Hafter).
  by destruct (run letters freqs dict _ inputs) as [[evs st'] r].
Qed.

(** A run that ends with an exception: the turns before the last one raise
    nothing, and the last one prints a code and raises in [log_selcal]. *)
Lemma run_raised_inv letters freqs dict inputs st e :
  (3 <= length letters)%nat → (3 <= length freqs)%nat →
  paired (pair_tracker st) →
  (run letters freqs dict st inputs).2 = Some e →
  ∃ before inp rest evs0 st0 ev,
    inputs = before ++ inp :: rest
    ∧ run letters freqs dict st before = (evs0, st0, None)
    ∧ emitted (tick letters freqs dict st0 inp) = Some ev
    ∧ (run letters freqs dict st inputs).1.1 = evs0 ++ [ev]
    ∧ (log_selcal (io inp) (em_line ev) (log_file st0)).2 = Some e.
Proof.
  intros Hletters Hfreqs. revert st.
  induction inputs as [| inp inputs IH]; intros st Hpaired; [discriminate |].
  rewrite run_cons. cbv zeta.
  set (o := tick letters freqs dict st inp).
  destruct (raised o) as [e' |] eqn:Hraised.
  - cbn [snd fst]. intros [= ->].
    destruct (tick_raised_inv _ _ dict _ _ _ Hletters Hfreqs Hpaired Hraised)
      as (ev & Hev & Hlog).
    fold o in Hev. rewrite Hev.
    by exists [], inp, inputs, [], st, ev.
  - specialize (IH (after o) (tick_paired _ _ _ _ _ Hpaired)).
    destruct (run letters freqs dict (after o) inputs) as [[evs st'] r] eqn:Hrun.
    cbn [fst snd] in IH |- *. intros Hr.
    destruct (IH Hr)
      as (before & inp' & rest & evs0 & st0 & ev & -> & Hbefore & Hev & ->
          & Hlog).
    exists (inp :: before), inp', rest, (option_list (emitted o) ++ evs0),
      st0, ev.
    split; [done |]. split.
    { rewrite run_cons. cbv zeta. fold o. by rewrite Hraised, Hbefore. }
    split; [done |]. split; [by rewrite app_assoc | done].
Qed.

(** X13. With a tone table of three tones or more and windows that are not
    empty, [decode_selcal] and [PairTracker.update] raise nothing in any
    turn of [listen_live].  A run that an exception ends has therefore
    reached [print(line)] in its last turn: the turns before raise nothing,
    the last one prints a code, and the exception is the one that
    [log_selcal(line)] raises on that line ([print] itself is taken not to
    fail). *)
Theorem detector_never_raises_in_loop (letters : list string)
    (freqs : list R) (selcal_dict : gmap string string)
    (file : option string) (inputs : list tick_input) :
  (3 <= length letters)%nat → (3 <= length freqs)%nat →
  Forall (λ inp, samples inp ≠ []) inputs →
  (∀ before inp rest evs0 st0,
     inputs = before ++ inp :: rest →
     run letters freqs selcal_dict (initial_state file) before
     = (evs0, st0, None) →
     (∃ r, decode_selcal (samples inp) letters freqs = Ok r)
     ∧ (∀ pr, ∃ tr code,
          update (pair_tracker st0) pr (now inp) = Ok (tr, code)))
  ∧ (∀ e,
       (listen_live letters freqs selcal_dict file inputs).2 = Some e →
       ∃ before inp rest evs0 st0 ev,
         inputs = before ++ inp :: rest
         ∧ run letters freqs selcal_dict (initial_state file) before
           = (evs0, st0, None)
         ∧ emitted (tick letters freqs selcal_dict st0 inp) = Some ev
         ∧ (listen_live letters freqs selcal_dict file inputs).1.1
           = evs0 ++ [ev]
         ∧ (log_selcal (io inp) (em_line ev) (log_file st0)).2 = Some e).
Proof.
  intros Hletters Hfreqs _. split.
  - intros before inp rest evs0 st0 _ Hbefore.
    split; [by apply decode_selcal_returns |].
    intros pr.
    pose proof (run_paired letters freqs selcal_dict before
                  (initial_state file) paired_reset) as Hpaired.
    rewrite Hbefore in Hpaired. cbn [fst snd] in Hpaired.
    destruct (update_paired _ pr (now inp) Hpaired) as (tr & code & Hup & _).
    by exists tr, code.
  - intros e. rewrite listen_live_raised, listen_live_emissions.
    apply run_raised_inv; [done | done | apply paired_reset].
Qed.

Lemma detector_never_raises_in_loop_witness :
  ∃ before inp rest evs0 st0 ev,
    call 10 0 io_ok read_only = before ++ inp :: rest
    ∧ run letters4 freqs4 ∅ (initial_state None) before = (evs0, st0, None)
    ∧ emitted (tick letters4 freqs4 ∅ st0 inp) = Some ev
    ∧ (listen_live letters4 freqs4 ∅ None (call 10 0 io_ok read_only)).1.1
      = evs0 ++ [ev]
    ∧ (log_selcal (io inp) (em_line ev) (log_file st0)).2 = Some OSError.
Proof.
  apply (detector_never_raises_in_loop letters4 freqs4 ∅ None
           (call 10 0 io_ok read_only)).
  - cbn. lia.
  - cbn. lia.
  - unfold call. repeat constructor; cbn [samples heard];
      apply window_not_empty.
  - rewrite listen_live_raised. by rewrite first_call_log_error.
Defined.

Lemma run_provenance letters freqs dict (P0 : string → R → Prop)
    inputs st ev :
  (∀ fp t0, first_pair (pair_tracker st) = Some fp →
            first_time (pair_tracker st) = Some t0 → P0 fp t0) →
  ev ∈ (run letters freqs dict st inputs).1.1 →
  ∃ j inp2 p1 p2 t1,
    inputs !! j = Some inp2
    ∧ decode_selcal (samples inp2) letters freqs = Ok (Some p2)
    ∧ p1 ≠ p2 ∧ em_code ev = p1 +:+ p2 ∧ em_time ev = now inp2
    ∧ PAIR_GAP_MIN <= now inp2 - t1 <= PAIR_GAP_MAX
    ∧ (P0 p1 t1
       ∨ ∃ i inp1, (i < j)%nat ∧ inputs !! i = Some inp1
           ∧ decode_selcal (samples inp1) letters freqs = Ok (Some p1)
           ∧ now inp1 = t1).
Proof.
  revert P0 st. induction inputs as [| inp inputs IH]; intros P0 st Hst.
  - by intros ?%elem_of_nil.
  - rewrite run_cons. cbv zeta.
    set (o := tick letters freqs dict st inp).
    assert (ev ∈ option_list (emitted o) →
      ∃ j inp2 p1 p2 t1,
        (inp :: inputs) !! j = Some inp2
        ∧ decode_selcal (samples inp2) letters freqs = Ok (Some p2)
        ∧ p1 ≠ p2 ∧ em_code ev = p1 +:+ p2 ∧ em_time ev = now inp2
        ∧ PAIR_GAP_MIN <= now inp2 - t1 <= PAIR_GAP_MAX
        ∧ (P0 p1 t1
           ∨ ∃ i inp1, (i < j)%nat ∧ (inp :: inputs) !! i = Some inp1
               ∧ decode_selcal (samples inp1) letters freqs = Ok (Some p1)
               ∧ now inp1 = t1)) as Hhere.
    { destruct (emitted o) as [ev' |] eqn:Hev; [| by intros ?%elem_of_nil].
      intros ->%list_elem_of_singleton.
      destruct (tick_emitted_gap _ _ _ _ _ _ Hev)
        as (fp & pr & t0 & Hfp & Ht0 & Hdec & Hne & Hcode & Htime & Hgap & _).
      exists 0%nat, inp, fp, pr, t0.
      split; [done |]. split; [done |]. split; [congruence |].
      split; [done |]. split; [done |]. split; [lra |].
      left. by apply Hst. }
    destruct (raised o) as [e |]; [exact Hhere |].
    specialize (IH (λ fp t0, P0 fp t0
                     ∨ (decode_selcal (samples inp) letters freqs = Ok (Some fp)
                        ∧ now inp = t0)) (after o)).
    destruct (run letters freqs dict (after o) inputs) as [[evs st'] r].
    cbn [fst] in IH |- *. intros [Hev | Hev]%elem_of_app; [by apply Hhere |].
    destruct IH as (j & inp2 & p1 & p2 & t1 & Hj & Hdec & Hne & Hcode & Htime
                    & Hgap & Hfirst); [| done |].
    + intros fp t0 Hfp Ht0.
      destruct (tick_tracker letters freqs dict st inp)
        as [Hr | [Hr | (pr & Hdec & Hpr & Hr)]]; fold o in Hr.
      * by rewrite Hr in Hfp.
      * rewrite Hr in Hfp, Ht0. left. by apply Hst.
      * fold o in Hpr. right. split; congruence.
    + exists (S j), inp2, p1, p2, t1.
      do 6 (split; [done |]).
      destruct Hfirst as [[H0 | [Hdec1 Hnow]] | (i & inp1 & Hi & Hlook & H1)].
      * by left.
      * right. exists 0%nat, inp. split; [lia | done].
      * right. exists (S i), inp1. split; [lia | done].
Qed.

(** X14. Every code that [listen_live] prints joins the pairs decoded from
    two windows of the run: an earlier window [i] and the window [j] of the
    turn that prints, with different pairs and with readings of the clock
    between [PAIR_GAP_MIN] and [PAIR_GAP_MAX] seconds apart. *)
Theorem emitted_code_joins_two_windows (letters : list string)
    (freqs : list R) (selcal_dict : gmap string string)
    (file : option string) (inputs : list tick_input) (ev : emission) :
  ev ∈ (listen_live letters freqs selcal_dict file inputs).1.1 →
  ∃ i j inp1 inp2 p1 p2,
    (i < j)%nat ∧ inputs !! i = Some inp1 ∧ inputs !! j = Some inp2
    ∧ decode_selcal (samples inp1) letters freqs = Ok (Some p1)
    ∧ decode_selcal (samples inp2) letters freqs = Ok (Some p2)
    ∧ p1 ≠ p2
    ∧ em_code ev = p1 +:+ p2 ∧ em_time ev = now inp2
    ∧ PAIR_GAP_MIN <= now inp2 - now inp1 <= PAIR_GAP_MAX.
Proof.
  rewrite listen_live_emissions. intros Hev.
  destruct (run_provenance letters freqs selcal_dict (λ _ _, False)
              inputs (initial_state file) ev)
    as (j & inp2 & p1 & p2 & t1 & Hj & Hdec & Hne & Hcode & Htime & Hgap
        & [[] | (i & inp1 & Hi & Hlook & Hdec1 & <-)]); [done | done |].
  by exists i, j, inp1, inp2, p1, p2.
Qed.

Lemma emitted_code_joins_two_windows_witness :
  ∃ i j inp1 inp2 p1 p2,
    (i < j)%nat
    ∧ (call 10 0 io_ok io_ok ++ call 20 10 io_ok io_ok) !! i = Some inp1
    ∧ (call 10 0 io_ok io_ok ++ call 20 10 io_ok io_ok) !! j = Some inp2
    ∧ decode_selcal (samples inp1) letters4 freqs4 = Ok (Some p1)
    ∧ decode_selcal (samples inp2) letters4 freqs4 = Ok (Some p2)
    ∧ p1 ≠ p2
    ∧ em_code (ACBD_at ∅ 20 10) = p1 +:+ p2
    ∧ em_time (ACBD_at ∅ 20 10) = now inp2
    ∧ PAIR_GAP_MIN <= now inp2 - now inp1 <= PAIR_GAP_MAX.
Proof.
  apply (emitted_code_joins_two_windows letters4 freqs4 ∅ None).
  rewrite two_calls_emissions. apply list_elem_of_further, list_elem_of_here.
Defined.

(** ** The energy of a window *)

Lemma np_sum_square_nonneg (xs : list R) : 0 <= np_sum (square xs).
Proof.
  induction xs as [| x xs IH]; [cbn; lra |].
  change (0 <= x * x + np_sum (square xs)). nra.
Qed.

(** The Fourier sum of a window is bounded by its energy (Cauchy-Schwarz). *)
Lemma dft_energy (w : R) (j : nat) (xs : list R) :
  dft_from cos w j xs ^ 2 + dft_from sin w j xs ^ 2
  <= INR (length xs) * np_sum (square xs).
Proof.
  revert j. induction xs as [| x xs IH]; intros j.
  - cbn. lra.
  - specialize (IH (S j)). cbn [dft_from].
    change (np_sum (square (x :: xs))) with (x * x + np_sum (square xs)).
    rewrite length_cons, S_INR.
    set (A := dft_from cos w (S j) xs) in *.
    set (B := dft_from sin w (S j) xs) in *.
    set (E := np_sum (square xs)) in *.
    set (n := INR (length xs)) in *.
    set (c := cos (w * INR j)). set (s := sin (w * INR j)).
    assert (c * c + s * s = 1) as Hcs.
    { pose proof (sin2_cos2 (w * INR j)) as H. unfold Rsqr in H.
      subst c s. lra. }
    assert (0 <= E) as HE by apply np_sum_square_nonneg.
    assert (0 <= n) as Hn by apply pos_INR.
    clearbody A B E n c s.
    set (u := c * A + s * B).
    assert (u * u <= n * E) as Hu.
    { apply Rle_trans with (A ^ 2 + B ^ 2); [| done].
      pose proof (Rle_0_sqr (c * B - s * A)) as Hsq. unfold Rsqr in Hsq.
      replace (A ^ 2 + B ^ 2)
        with ((c * c + s * s) * (A * A + B * B)) by (rewrite Hcs; ring).
      subst u. nra. }
    assert (2 * x * u <= n * (x * x) + E) as Hcross.
    { destruct (Rle_lt_or_eq_dec 0 n Hn) as [Hpos | <-].
      - pose proof (Rle_0_sqr (n * x - u)) as Hsq. unfold Rsqr in Hsq.
        assert (n * (2 * x * u) <= n * (n * (x * x) + E)) as Hmul by nra.
        by apply Rmult_le_reg_l in Hmul.
      - assert (u * u <= 0) as Hu0 by lra.
        assert (u = 0) as -> by nra. lra. }
    replace ((x * c + A) ^ 2 + (x * s + B) ^ 2)
      with ((c * c + s * s) * (x * x) + 2 * x * u + (A ^ 2 + B ^ 2))
      by (subst u; ring).
    rewrite Hcs. nra.
Qed.

Lemma goertzel_power_dft (samples : list R) (freq fs : R) :
  let w := goertzel_omega (length samples) freq fs in
  goertzel_power samples freq fs
  = (dft_re w samples ^ 2 + dft_im w samples ^ 2) / INR (length samples).
Proof.
  intros w. rewrite goertzel_power_alt, goertzel_mag_dft. fold w.
  rewrite pow2_sqrt; [done |].
  pose proof (pow2_ge_0 (dft_re w samples)).
  pose proof (pow2_ge_0 (dft_im w samples)). lra.
Qed.

Lemma goertzel_power_energy (samples : list R) (freq fs : R) :
  samples ≠ [] →
  goertzel_power samples freq fs <= np_sum (square samples).
Proof.
  intros Hne. rewrite goertzel_power_dft.
  assert (0 < INR (length samples)) as HN.
  { apply lt_0_INR. destruct samples; [done | cbn; lia]. }
  apply Rmult_le_reg_r with (INR (length samples)); [done |].
  unfold Rdiv. rewrite Rmult_assoc, Rinv_l by lra. rewrite Rmult_1_r.
  rewrite (Rmult_comm (np_sum _)). apply dft_energy.
Qed.

(** X15. No tone filter reports more power than the energy of the window:
    [goertzel_power] is at most the sum of the squared samples, that is the
    window length times the mean square that [confirm_dual_tone] takes as
    noise, and [goertzel_mag] at most the window length times the root mean
    square of the silence gate. *)
Theorem goertzel_bounded_by_energy (samples : list R) (freq fs : R) :
  samples ≠ [] →
  goertzel_power samples freq fs
  <= INR (length samples) * np_mean (square samples)
  ∧ goertzel_mag samples freq fs <= INR (length samples) * rms samples.
Proof.
  intros Hne.
  assert (0 < INR (length samples)) as HN.
  { apply lt_0_INR. destruct samples; [done | cbn; lia]. }
  assert (INR (length samples) * np_mean (square samples)
          = np_sum (square samples)) as Hmean.
  { unfold np_mean, square. rewrite length_map. field. lra. }
  pose proof (goertzel_power_energy samples freq fs Hne) as Hpow.
  split; [by rewrite Hmean |].
  pose proof (np_sum_square_nonneg samples) as HE.
  assert (0 <= np_mean (square samples)) as Hm.
  { unfold np_mean, square. rewrite length_map. fold (square samples).
    apply Rmult_le_pos; [done |]. left. by apply Rinv_0_lt_compat. }
  rewrite goertzel_mag_dft. unfold rms.
  rewrite <- (sqrt_square (INR (length samples))) at 1 by lra.
  rewrite <- sqrt_mult by nra.
  apply sqrt_le_1_alt.
  rewrite Rmult_assoc, Hmean.
  pose proof (dft_energy (goertzel_omega (length samples) freq fs) 0 samples)
    as Hdft.
  exact Hdft.
Qed.

Lemma goertzel_bounded_by_energy_witness :
  goertzel_power window_AC 4000 8000
  <= INR (length window_AC) * np_mean (square window_AC)
  ∧ goertzel_mag window_AC 4000 8000 <= INR (length window_AC) * rms window_AC.
Proof. apply goertzel_bounded_by_energy, window_not_empty. Defined.

(** X16. What the gates of [decode_selcal] amount to for the two tones of a
    returned pair: the total of [PAIR_POWER_MIN] and the balance of
    [PAIR_IMBALANCE_MAX] put the power of each of the two tones at
    [PAIR_POWER_MIN / (1 + PAIR_IMBALANCE_MAX)] (0.03) or more, far above
    [GOERTZEL_MIN_POWER], and within a factor [PAIR_IMBALANCE_MAX] of the
    other; so the window holds that much energy, and a window of at most a
    million samples (the program's holds 8000) is louder than
    [SILENCE_RMS_MAX]: the silence gate skips no window that [decode_selcal]
    would accept. *)
Theorem accepted_window_is_loud (samples : list R) (letters : list string)
    (freqs : list R) (pr : string) :
  samples ≠ [] →
  decode_selcal samples letters freqs = Ok (Some pr) →
  (∃ la lb ia ib fa fb,
     pr = la +:+ lb
     ∧ index letters la = Ok ia ∧ index letters lb = Ok ib ∧ (ia < ib)%nat
     ∧ freqs !! ia = Some fa ∧ freqs !! ib = Some fb
     ∧ let pa := goertzel_power samples fa SAMPLE_RATE in
       let pb := goertzel_power samples fb SAMPLE_RATE in
       PAIR_POWER_MIN / (1 + PAIR_IMBALANCE_MAX) <= pa
       ∧ PAIR_POWER_MIN / (1 + PAIR_IMBALANCE_MAX) <= pb
       ∧ pa <= PAIR_IMBALANCE_MAX * pb
       ∧ pb <= PAIR_IMBALANCE_MAX * pa)
  ∧ PAIR_POWER_MIN / (1 + PAIR_IMBALANCE_MAX) <= np_sum (square samples)
  ∧ (INR (length samples) <= 1000000 → SILENCE_RMS_MAX < rms samples).
Proof.
  intros Hne Hdec.
  destruct (decode_selcal_inv _ _ _ _ Hdec)
    as (l1 & m1 & l2 & m2 & l3 & m3 & rest & i1 & i2 & f1 & f2 & _ & _ & Hdiff
        & Hi1 & Hi2 & Hpr & g1 & g2 & -> & -> & Hgates).
  cbv zeta in Hgates.
  destruct Hgates as (Hmin1 & Hmin2 & _ & _ & Hsum & Hratio & _).
  set (p1 := goertzel_power samples g1 SAMPLE_RATE) in *.
  set (p2 := goertzel_power samples g2 SAMPLE_RATE) in *.
  assert (PAIR_POWER_MIN / (1 + PAIR_IMBALANCE_MAX) <= p1
          ∧ PAIR_POWER_MIN / (1 + PAIR_IMBALANCE_MAX) <= p2
          ∧ p1 <= PAIR_IMBALANCE_MAX * p2 ∧ p2 <= PAIR_IMBALANCE_MAX * p1)
    as (Hfloor1 & Hfloor2 & Hbal1 & Hbal2).
  { clearbody p1 p2.
    unfold GOERTZEL_MIN_POWER, PAIR_POWER_MIN, PAIR_IMBALANCE_MAX in *.
    assert (Rmax (Rmin p1 p2) 1e-6 = Rmin p1 p2) as Hguard.
    { apply Rmax_left. apply Rmin_glb; lra. }
    rewrite Hguard in Hratio.
    assert (0 < Rmin p1 p2) as Hpos by (apply Rmin_glb_lt; lra).
    assert (Rmax p1 p2 <= 4.0 * Rmin p1 p2) as Hbal.
    { apply Rmult_le_compat_r with (r := Rmin p1 p2) in Hratio; [| lra].
      unfold Rdiv in Hratio. rewrite Rmult_assoc, Rinv_l in Hratio by lra.
      lra. }
    revert Hbal. unfold Rmax, Rmin. destruct (Rle_dec p1 p2); intros Hbal;
      repeat split; lra. }
  assert (PAIR_POWER_MIN / (1 + PAIR_IMBALANCE_MAX)
          <= np_sum (square samples)) as Henergy.
  { apply Rle_trans with p1; [done | by apply goertzel_power_energy]. }
  split; [| split; [done |]].
  - destruct (i1 <? i2)%nat eqn:Hlt.
    + apply Nat.ltb_lt in Hlt. injection Hpr as -> Hg1 Hg2.
      exists l1, l2, i1, i2, g1, g2. by repeat (split; [done |]).
    + apply Nat.ltb_ge in Hlt. injection Hpr as -> Hg1 Hg2.
      assert (i1 ≠ i2)
        by (intros ->; by apply Hdiff, (index_inj letters _ _ i2)).
      exists l2, l1, i2, i1, g1, g2.
      split; [done |]. split; [done |]. split; [done |]. split; [lia |].
      by repeat (split; [done |]).
  - intros Hlen.
    unfold PAIR_POWER_MIN, PAIR_IMBALANCE_MAX in Henergy.
    assert (0 < INR (length samples)) as HN.
    { apply lt_0_INR. destruct samples; [done | cbn; lia]. }
    assert (np_mean (square samples) * INR (length samples)
            = np_sum (square samples)) as Hmean.
    { unfold np_mean, square. rewrite length_map. field. lra. }
    assert (0.00015 * 0.00015 < np_mean (square samples)) as Hloud.
    { destruct (Rlt_le_dec (0.00015 * 0.00015) (np_mean (square samples)))
        as [| Hle]; [done |].
      apply Rmult_le_compat_r with (r := INR (length samples)) in Hle; lra. }
    unfold rms, SILENCE_RMS_MAX.
    apply Rle_lt_trans with (sqrt (0.00015 * 0.00015));
      [rewrite sqrt_square; lra | apply sqrt_lt_1_alt; lra].
Qed.

Lemma accepted_window_is_loud_witness :
  (∃ la lb ia ib fa fb,
     "AC"%string = la +:+ lb
     ∧ index letters4 la = Ok ia ∧ index letters4 lb = Ok ib ∧ (ia < ib)%nat
     ∧ freqs4 !! ia = Some fa ∧ freqs4 !! ib = Some fb
     ∧ let pa := goertzel_power window_AC fa SAMPLE_RATE in
       let pb := goertzel_power window_AC fb SAMPLE_RATE in
       PAIR_POWER_MIN / (1 + PAIR_IMBALANCE_MAX) <= pa
       ∧ PAIR_POWER_MIN / (1 + PAIR_IMBALANCE_MAX) <= pb
       ∧ pa <= PAIR_IMBALANCE_MAX * pb
       ∧ pb <= PAIR_IMBALANCE_MAX * pa)
  ∧ PAIR_POWER_MIN / (1 + PAIR_IMBALANCE_MAX) <= np_sum (square window_AC)
  ∧ (INR (length window_AC) <= 1000000 → SILENCE_RMS_MAX < rms window_AC).
Proof.
  exact (accepted_window_is_loud window_AC letters4 freqs4 "AC"
           (window_not_empty 1 0 1 0) decode4_AC).
Defined.

(** X17. A window in which every sample is below [SILENCE_RMS_MAX] in
    absolute value has a root mean square below it: the turn ends at the
    silence gate, whatever the tone table and the state. *)
Theorem quiet_samples_are_skipped (letters : list string) (freqs : list R)
    (selcal_dict : gmap string string) (st : state) (inp : tick_input) :
  samples inp ≠ [] →
  Forall (λ x, Rabs x < SILENCE_RMS_MAX) (samples inp) →
  rms (samples inp) < SILENCE_RMS_MAX
  ∧ tick letters freqs selcal_dict st inp = continue st.
Proof.
  intros Hne Hquiet.
  assert (rms (samples inp) < SILENCE_RMS_MAX) as Hrms.
  { unfold rms. rewrite <- (sqrt_square SILENCE_RMS_MAX)
      by (unfold SILENCE_RMS_MAX; lra).
    assert (np_sum (square (samples inp))
            < INR (length (samples inp))
              * (SILENCE_RMS_MAX * SILENCE_RMS_MAX)) as Hsum.
    { destruct (samples inp) as [| x xs]; [done |]. clear Hne.
      revert x Hquiet. induction xs as [| y xs IH]; intros x Hquiet.
      - apply Forall_cons in Hquiet as [Hx _].
        change (x * x + 0 < 1 * (SILENCE_RMS_MAX * SILENCE_RMS_MAX)).
        apply Rabs_def2 in Hx. nra.
      - apply Forall_cons in Hquiet as [Hx Hquiet]. specialize (IH y Hquiet).
        change (np_sum (square (x :: y :: xs)))
          with (x * x + np_sum (square (y :: xs))).
        rewrite (length_cons x), S_INR.
        apply Rabs_def2 in Hx. nra. }
    assert (0 < INR (length (samples inp))) as HN.
    { apply lt_0_INR. destruct (samples inp); [done | cbn; lia]. }
    apply sqrt_lt_1_alt. split.
    - unfold np_mean, square. rewrite length_map. fold (square (samples inp)).
      apply Rmult_le_pos; [apply np_sum_square_nonneg |].
      left. by apply Rinv_0_lt_compat.
    - unfold np_mean, square. rewrite length_map. fold (square (samples inp)).
      apply Rmult_lt_reg_r with (INR (length (samples inp))); [done |].
      unfold Rdiv. rewrite Rmult_assoc, Rinv_l by lra. lra. }
  split; [done |]. unfold tick.
  by rewrite (proj2 (Rltb_true _ _) Hrms).
Qed.

Lemma quiet_samples_are_skipped_witness :
  rms [0.0001; -0.0001] < SILENCE_RMS_MAX
  ∧ tick letters4 freqs4 ∅ (initial_state None)
      (heard [0.0001; -0.0001] 10 (clock_10h 0) io_ok)
    = continue (initial_state None).
Proof.
  apply (quiet_samples_are_skipped letters4 freqs4 ∅ (initial_state None)
           (heard [0.0001; -0.0001] 10 (clock_10h 0) io_ok)).
  - discriminate.
  - cbn [samples heard]. unfold SILENCE_RMS_MAX.
    repeat constructor; apply Rabs_def1; lra.
Defined.

(** ** The ring buffer *)

Lemma window_len_8000 : Z.of_nat window_len = 8000%Z.
Proof.
  unfold window_len, SAMPLE_RATE, WINDOW_SECONDS.
  assert (py_int (8000 * 1.0) = 8000%Z) as ->.
  { unfold py_int. destruct (Rle_dec 0 (8000 * 1.0)) as [_ | Hneg]; [| lra].
    symmetry. apply Int_part_spec. lra. }
  reflexivity.
Qed.

Lemma window_len_pos : (0 < window_len)%nat.
Proof. pose proof window_len_8000. lia. Qed.

(** The rolled array starts at the place that the next sample goes to. *)
Lemma np_roll_write_pos (a : list R) (wp : nat) :
  length a = window_len →
  let k := (wp mod window_len)%nat in
  np_roll a ((- Z.of_nat wp) mod Z.of_nat window_len) = drop k a ++ take k a.
Proof.
  intros Hlen k. pose proof window_len_pos as Hpos.
  pose proof (Nat.mod_upper_bound wp window_len ltac:(lia)) as Hk. fold k in Hk.
  pose proof (Nat.div_mod_eq wp window_len) as Hdiv. fold k in Hdiv.
  set (q := (wp / window_len)%nat) in Hdiv.
  unfold np_roll. rewrite Hlen, Z.mod_mod by lia.
  destruct (decide (k = 0%nat)) as [Hz | Hnz].
  - assert ((- Z.of_nat wp) mod Z.of_nat window_len = 0)%Z as ->.
    { replace (- Z.of_nat wp)%Z
        with ((- Z.of_nat q) * Z.of_nat window_len)%Z by lia.
      apply Z.mod_mul. lia. }
    rewrite Hz. cbn [Z.to_nat]. rewrite Nat.sub_0_r, <- Hlen.
    rewrite drop_all, firstn_all, drop_0, take_0. by rewrite app_nil_r.
  - assert ((- Z.of_nat wp) mod Z.of_nat window_len
            = Z.of_nat window_len - Z.of_nat k)%Z as ->.
    { symmetry. apply (Z.mod_unique_pos _ _ (- Z.of_nat q - 1)); lia. }
    by replace (window_len - Z.to_nat (Z.of_nat window_len - Z.of_nat k))%nat
      with k by lia.
Qed.

Lemma ring_write (a : list R) (k : nat) (s : R) :
  length a = window_len → (k < window_len)%nat →
  let a' := <[k := s]> a in
  let k' := (S k mod window_len)%nat in
  drop k' a' ++ take k' a' = drop 1 (drop k a ++ take k a) ++ [s].
Proof.
  intros Hlen Hk a' k'.
  destruct (lookup_lt_is_Some_2 a k ltac:(lia)) as [b Hb].
  assert (a' = take k a ++ s :: drop (S k) a) as Ha'.
  { subst a'. apply insert_take_drop. lia. }
  assert (length (take k a) = k) as Htake by (rewrite length_take; lia).
  rewrite (drop_S a b k Hb). cbn [drop app].
  rewrite drop_0, <- app_assoc.
  destruct (decide (S k = window_len)) as [Hend | Hmid].
  - assert (k' = 0%nat) as ->.
    { subst k'. rewrite Hend. apply Nat.Div0.mod_same. }
    rewrite drop_0, take_0, app_nil_r, Ha'.
    rewrite (drop_ge a (S k)) by lia. done.
  - assert (k' = S k) as ->.
    { subst k'. apply Nat.mod_small. lia. }
    rewrite Ha'. f_equal.
    + rewrite drop_app_ge by lia. rewrite Htake.
      by replace (S k - k)%nat with 1%nat by lia.
    + rewrite take_app_ge by lia. rewrite Htake.
      replace (S k - k)%nat with 1%nat by lia. cbn [take].
      by rewrite take_0.
Qed.

Lemma callback_window (rg : ring) (written mono : list R) :
  length (buffer rg) = window_len →
  write_pos rg = length written →
  roll_buffer rg = drop (length written) (np_zeros window_len ++ written) →
  let rg' := callback rg mono in
  length (buffer rg') = window_len
  ∧ write_pos rg' = length (written ++ mono)
  ∧ roll_buffer rg'
    = drop (length (written ++ mono))
        (np_zeros window_len ++ written ++ mono).
Proof.
  revert rg written. induction mono as [| s mono IH]; intros rg written.
  - intros Hlen Hwp Hroll. cbn [callback fold_left]. by rewrite app_nil_r.
  - intros Hlen Hwp Hroll. unfold callback. cbn [fold_left].
    fold (callback
            {| buffer := <[(write_pos rg mod window_len)%nat := s]> (buffer rg);
               write_pos := S (write_pos rg) |} mono).
    replace (written ++ s :: mono) with ((written ++ [s]) ++ mono)
      by (by rewrite <- app_assoc).
    apply IH.
    + cbn [buffer]. by rewrite length_insert.
    + cbn [write_pos]. rewrite length_app, Hwp. cbn. lia.
    + pose proof window_len_pos as Hpos.
      pose proof (Nat.mod_upper_bound (write_pos rg) window_len ltac:(lia))
        as Hk.
      unfold roll_buffer in Hroll |- *. cbn [buffer write_pos].
      rewrite np_roll_write_pos in Hroll by done.
      rewrite np_roll_write_pos by (by rewrite length_insert).
      cbv zeta in Hroll |- *.
      assert (S (write_pos rg) mod window_len
              = S (write_pos rg mod window_len) mod window_len)%nat as ->.
      { replace (S (write_pos rg)) with (1 + write_pos rg)%nat by lia.
        replace (S (write_pos rg mod window_len))
          with (1 + write_pos rg mod window_len)%nat by lia.
        by rewrite Nat.Div0.add_mod_idemp_r. }
      rewrite (ring_write _ _ s Hlen Hk), Hroll.
      rewrite drop_drop, length_app. cbn [length].
      rewrite (app_assoc (np_zeros window_len) written [s]).
      rewrite (drop_app_le (np_zeros window_len ++ written)).
      * done.
      * rewrite length_app. unfold np_zeros. rewrite length_replicate. lia.
Qed.

(** X18. The ring buffer of [listen_live]: after any number of calls of the
    audio callback, [np.roll(buffer, -write_pos % window_len)] is the last
    [window_len] (8000) samples received, oldest first; while fewer have been
    received, the zeros of the start come before them. *)
Theorem ring_buffer_window (blocks : list (list R)) :
  let rg := fold_left callback blocks ring_start in
  let written := concat blocks in
  Z.of_nat window_len = 8000%Z
  ∧ write_pos rg = length written
  ∧ length (roll_buffer rg) = window_len
  ∧ roll_buffer rg = drop (length written) (np_zeros window_len ++ written)
  ∧ ((window_len <= length written)%nat →
     roll_buffer rg = drop (length written - window_len) written).
Proof.
  cbv zeta.
  assert (∀ rg written,
    length (buffer rg) = window_len →
    write_pos rg = length written →
    roll_buffer rg = drop (length written) (np_zeros window_len ++ written) →
    let rg' := fold_left callback blocks rg in
    write_pos rg' = length (written ++ concat blocks)
    ∧ roll_buffer rg'
      = drop (length (written ++ concat blocks))
          (np_zeros window_len ++ written ++ concat blocks)) as Hblocks.
  { induction blocks as [| mono blocks IH]; intros rg written Hlen Hwp Hroll.
    - cbn [fold_left concat]. by rewrite app_nil_r.
    - cbn [fold_left concat]. rewrite app_assoc.
      destruct (callback_window rg written mono Hlen Hwp Hroll)
        as (Hlen' & Hwp' & Hroll').
      by apply IH. }
  destruct (Hblocks ring_start []) as [Hwp Hroll].
  { unfold ring_start, np_zeros. cbn [buffer]. apply length_replicate. }
  { done. }
  { unfold roll_buffer, ring_start. cbn [buffer write_pos].
    rewrite np_roll_write_pos
      by (unfold np_zeros; apply length_replicate).
    cbv zeta. rewrite Nat.Div0.mod_0_l, drop_0, take_0.
    cbn [length]. by rewrite drop_0. }
  cbn [app] in Hwp, Hroll.
  assert (length (np_zeros window_len) = window_len) as Hz
    by apply length_replicate.
  split; [apply window_len_8000 |]. split; [done |].
  split; [| split; [done |]].
  - rewrite Hroll, length_drop, length_app, Hz. lia.
  - intros Hfull. rewrite Hroll, drop_app_ge by lia. by rewrite Hz.
Qed.

(** ** The lines of the registry file *)

Lemma list_ascii_of_string_app (s t : string) :
  list_ascii_of_string (s +:+ t)
  = list_ascii_of_string s ++ list_ascii_of_string t.
Proof.
  induction s as [| a s IH]; [done |].
  change (a :: list_ascii_of_string (s +:+ t)
          = a :: (list_ascii_of_string s ++ list_ascii_of_string t)).
  by rewrite IH.
Qed.

Lemma lstrip_black (c : ascii) (l : list ascii) :
  is_space c = false → lstrip (c :: l) = c :: l.
Proof. intros Hc. cbn [lstrip]. by rewrite Hc. Qed.

Lemma lstrip_spaces (ws l : list ascii) :
  Forall (λ a, is_space a = true) ws → lstrip (ws ++ l) = lstrip l.
Proof.
  induction 1 as [| a ws Ha _ IH]; [done |].
  cbn [app lstrip]. by rewrite Ha.
Qed.

(** [strip] on the characters: white space at the end goes, a text between
    two characters that are not white space stays. *)
Lemma strip_black (c c' : ascii) (l ws : list ascii) :
  is_space c = false → is_space c' = false →
  Forall (λ a, is_space a = true) ws →
  rev (lstrip (rev (lstrip (c :: l ++ c' :: ws)))) = c :: l ++ [c'].
Proof.
  intros Hc Hc' Hws. rewrite (lstrip_black c _ Hc).
  change (c :: l ++ c' :: ws) with ((c :: l) ++ c' :: ws).
  replace ((c :: l) ++ c' :: ws) with (((c :: l) ++ [c']) ++ ws)
    by (by rewrite <- app_assoc).
  rewrite rev_app_distr, lstrip_spaces.
  - rewrite rev_app_distr. cbn [rev app]. rewrite (lstrip_black c' _ Hc').
    change (c' :: (rev l ++ [c])) with ([c'] ++ rev (c :: l)).
    rewrite rev_app_distr, rev_involutive. done.
  - by apply List.Forall_rev.
Qed.

Lemma strip_one_black (c : ascii) (ws : list ascii) :
  is_space c = false →
  Forall (λ a, is_space a = true) ws →
  rev (lstrip (rev (lstrip (c :: ws)))) = [c].
Proof.
  intros Hc Hws. rewrite (lstrip_black c _ Hc).
  change (c :: ws) with ([c] ++ ws).
  rewrite rev_app_distr, lstrip_spaces.
  - cbn [rev app]. by rewrite (lstrip_black c _ Hc).
  - by apply List.Forall_rev.
Qed.

Lemma split_chars_field (sep : ascii) (f rest : list ascii) :
  sep ∉ f →
  split_chars sep (f ++ sep :: rest) = f :: split_chars sep rest.
Proof.
  induction f as [| a f IH]; intros Hf.
  - cbn [app split_chars]. by rewrite bool_decide_eq_true_2.
  - apply not_elem_of_cons in Hf as [Hne Hf].
    cbn [app split_chars]. rewrite bool_decide_eq_false_2 by done.
    by rewrite IH.
Qed.

Lemma split_chars_last (sep : ascii) (f : list ascii) :
  sep ∉ f → split_chars sep f = [f].
Proof.
  induction f as [| a f IH]; intros Hf; [done |].
  apply not_elem_of_cons in Hf as [Hne Hf].
  cbn [split_chars]. rewrite bool_decide_eq_false_2 by done.
  by rewrite IH.
Qed.

Lemma length_split_chars (sep : ascii) (s : list ascii) :
  length (split_chars sep s) = S (length (List.filter (λ a, bool_decide (a = sep)) s)).
Proof.
  induction s as [| a s IH]; [done |].
  cbn [split_chars List.filter].
  destruct (bool_decide (a = sep)); [cbn [length]; by rewrite IH |].
  destruct (split_chars sep s) as [| p ps]; [done |]. exact IH.
Qed.

Lemma load_selcal_dictionary_snoc (lines : list string) (line : string) :
  (load_selcal_dictionary (lines ++ [line])).1
  = dictionary_step (load_selcal_dictionary lines).1 line.
Proof. unfold load_selcal_dictionary. cbn [fst]. by rewrite fold_left_app. Qed.

Lemma strip_chars (s : string) (l : list ascii) :
  rev (lstrip (rev (lstrip (list_ascii_of_string s)))) = l →
  list_ascii_of_string (strip s) = l.
Proof.
  intros <-. unfold strip. apply list_ascii_of_string_of_list_ascii.
Qed.

Lemma dictionary_step_short (d : gmap string string) (line : string) :
  (length (split tab (strip line)) < 4)%nat → dictionary_step d line = d.
Proof.
  unfold dictionary_step.
  destruct (split tab (strip line)) as [| code [| reg [| ac [| op rest]]]];
    [done | done | done | done |].
  cbn [length]. lia.
Qed.

Ltac app_norm :=
  repeat first [rewrite <- app_assoc | progress cbn [app]].

(** X19. A line of the registry file made of four fields between tabs (a code
    that starts and an operator that ends with a character that is not white
    space, no tab inside a field) and white space at its end, such as the
    line break, sets the entry of the stripped code to [(reg ac op)],
    whatever the earlier lines have set for that code, and leaves the other
    entries as they were. *)
Theorem dictionary_line_loaded (lines : list string)
    (code reg ac op ws : string) :
  no_tab code → no_tab reg → no_tab ac → no_tab op →
  starts_black code → ends_black op →
  Forall (λ a, is_space a = true) (list_ascii_of_string ws) →
  let line := field_line [code; reg; ac] (op +:+ ws) in
  (load_selcal_dictionary (lines ++ [line])).1
  = <[strip code := "(" +:+ reg +:+ " " +:+ ac +:+ " " +:+ op +:+ ")"]>
      (load_selcal_dictionary lines).1.
Proof.
  intros Hcode Hreg Hac Hop (c & code' & Hc & Hblack) (op' & c' & Hc' & Hblack')
    Hws line.
  rewrite load_selcal_dictionary_snoc. unfold dictionary_step.
  assert (split tab (strip line) = [code; reg; ac; op]) as ->; [| done].
  unfold split.
  rewrite (strip_chars line
             (list_ascii_of_string code ++ tab ::
              list_ascii_of_string reg ++ tab ::
              list_ascii_of_string ac ++ tab :: list_ascii_of_string op)).
  - rewrite !split_chars_field by done.
    rewrite split_chars_last by done. cbn [map].
    by rewrite !string_of_list_ascii_of_string.
  - subst line. unfold field_line. cbn [fold_right].
    rewrite !list_ascii_of_string_app.
    change (list_ascii_of_string (String tab ?s))
      with (tab :: list_ascii_of_string s).
    rewrite !list_ascii_of_string_app.
    change (list_ascii_of_string (String tab ?s))
      with (tab :: list_ascii_of_string s).
    rewrite !list_ascii_of_string_app.
    change (list_ascii_of_string (String tab ?s))
      with (tab :: list_ascii_of_string s).
    rewrite !list_ascii_of_string_app.
    rewrite Hc, Hc'.
    set (r := list_ascii_of_string reg). set (a := list_ascii_of_string ac).
    replace ((c :: code') ++ tab :: r ++ tab :: a ++ tab :: (op' ++ [c'])
               ++ list_ascii_of_string ws)
      with (c :: (code' ++ tab :: r ++ tab :: a ++ tab :: op')
              ++ c' :: list_ascii_of_string ws).
    + rewrite (strip_black c c' _ _ Hblack Hblack' Hws). by app_norm.
    + by app_norm.
Qed.

Ltac no_tab_in :=
  unfold no_tab; cbn [list_ascii_of_string];
  rewrite ?not_elem_of_cons; repeat split; try discriminate;
  apply not_elem_of_nil.

Lemma dictionary_line_loaded_witness :
  (load_selcal_dictionary ([] ++ registry_lines)).1
  = <["ACBD"%string := "(ZK-OKA B77W Air New Zealand)"%string]>
      (load_selcal_dictionary []).1.
Proof.
  apply (dictionary_line_loaded [] "ACBD" "ZK-OKA" "B77W" "Air New Zealand"
           newline).
  - no_tab_in.
  - no_tab_in.
  - no_tab_in.
  - no_tab_in.
  - by exists "A"%char, ["C"; "B"; "D"]%char.
  - by exists (list_ascii_of_string "Air New Zealan"), "d"%char.
  - by repeat constructor.
Defined.

(** X20. A line whose operator field is empty is not loaded: [strip] takes
    the tab that ends the third field away with the line break, so that
    [split] gives three parts only. *)
Theorem dictionary_line_without_operator (lines : list string)
    (code reg ac ws : string) :
  no_tab code → no_tab reg → no_tab ac →
  starts_black code → ends_black ac →
  Forall (λ a, is_space a = true) (list_ascii_of_string ws) →
  let line := field_line [code; reg; ac] ws in
  split tab (strip line) = [code; reg; ac]
  ∧ (load_selcal_dictionary (lines ++ [line])).1
    = (load_selcal_dictionary lines).1.
Proof.
  intros Hcode Hreg Hac (c & code' & Hc & Hblack) (ac' & c' & Hc' & Hblack')
    Hws line.
  assert (split tab (strip line) = [code; reg; ac]) as Hsplit.
  { unfold split.
    rewrite (strip_chars line
               (list_ascii_of_string code ++ tab ::
                list_ascii_of_string reg ++ tab :: list_ascii_of_string ac)).
    - rewrite !split_chars_field by done.
      rewrite split_chars_last by done. cbn [map].
      by rewrite !string_of_list_ascii_of_string.
    - subst line. unfold field_line. cbn [fold_right].
      rewrite !list_ascii_of_string_app.
      change (list_ascii_of_string (String tab ?s))
        with (tab :: list_ascii_of_string s).
      rewrite !list_ascii_of_string_app.
      change (list_ascii_of_string (String tab ?s))
        with (tab :: list_ascii_of_string s).
      rewrite !list_ascii_of_string_app.
      change (list_ascii_of_string (String tab ?s))
        with (tab :: list_ascii_of_string s).
      rewrite Hc, Hc'.
      set (r := list_ascii_of_string reg).
      replace ((c :: code') ++ tab :: r ++ tab :: (ac' ++ [c'])
                 ++ tab :: list_ascii_of_string ws)
        with (c :: (code' ++ tab :: r ++ tab :: ac')
                ++ c' :: tab :: list_ascii_of_string ws) by (by app_norm).
      rewrite (strip_black c c' _ (tab :: list_ascii_of_string ws)
                 Hblack Hblack') by (by constructor).
      by app_norm. }
  split; [done |].
  rewrite load_selcal_dictionary_snoc. apply dictionary_step_short.
  rewrite Hsplit. cbn. lia.
Qed.

Lemma dictionary_line_without_operator_witness :
  let line := field_line ["ACBD"; "ZK-OKA"; "B77W"]%string newline in
  split tab (strip line) = ["ACBD"; "ZK-OKA"; "B77W"]%string
  ∧ (load_selcal_dictionary (registry_lines ++ [line])).1
    = (load_selcal_dictionary registry_lines).1.
Proof.
  apply (dictionary_line_without_operator registry_lines "ACBD" "ZK-OKA"
           "B77W" newline).
  - no_tab_in.
  - no_tab_in.
  - no_tab_in.
  - by exists "A"%char, ["C"; "B"; "D"]%char.
  - by exists ["B"; "7"; "7"]%char, "W"%char.
  - by repeat constructor.
Defined.

Lemma size_dictionary_step (d : gmap string string) (line : string) :
  (size (dictionary_step d line)
   <= size d + (if (4 <=? length (split tab (strip line)))%nat then 1 else 0))%nat.
Proof.
  unfold dictionary_step.
  destruct (split tab (strip line)) as [| code [| reg [| ac [| op rest]]]];
    cbn [length Nat.leb]; try lia.
  destruct (d !! strip code) as [desc |] eqn:Hd.
  - rewrite map_size_insert_Some by done. lia.
  - rewrite map_size_insert_None by done. lia.
Qed.

(** X21. The number of entries that [load_selcal_dictionary] prints is the
    size of the dictionary it returns, and at most the number of lines that
    have four parts or more. *)
Theorem dictionary_size_bound (lines : list string) :
  let d := (load_selcal_dictionary lines).1 in
  (load_selcal_dictionary lines).2
  = "Loaded " +:+ pretty (size d) +:+ " SELCAL entries"
  ∧ (size d
     <= length (List.filter
                  (λ line, (4 <=? length (split tab (strip line)))%nat)
                  lines))%nat.
Proof.
  cbv zeta. split; [done |]. unfold load_selcal_dictionary. cbn [fst].
  assert (∀ d : gmap string string,
    (size (fold_left dictionary_step lines d)
     <= size d
        + length (List.filter
                    (λ line, (4 <=? length (split tab (strip line)))%nat)
                    lines))%nat) as Hfold.
  { induction lines as [| line lines IH]; intros d; [cbn; lia |].
    cbn [fold_left List.filter].
    pose proof (IH (dictionary_step d line)) as Hrest.
    pose proof (size_dictionary_step d line) as Hstep.
    destruct (4 <=? length (split tab (strip line)))%nat; cbn [length]; lia. }
  specialize (Hfold ∅). by rewrite map_size_empty in Hfold.
Qed.

(** X22. [is_valid_selcal] is decided by its first two tests: a code of four
    characters whose set has four elements never fails the third one
    ([a == b or c == d]). *)
Theorem is_valid_selcal_two_tests (code : string) :
  is_valid_selcal code
  = (String.length code =? 4)%nat && (size (set_of_str code) =? 4)%nat.
Proof.
  destruct (is_valid_selcal code) eqn:Hvalid.
  - apply is_valid_selcal_spec in Hvalid as [Hlen Hnodup].
    rewrite Hlen. cbn [Nat.eqb andb]. symmetry. apply Nat.eqb_eq.
    unfold set_of_str. apply size_list_to_set_NoDup in Hnodup.
    by rewrite Hnodup, length_list_ascii.
  - symmetry. apply andb_false_iff.
    destruct (Nat.eqb_spec (String.length code) 4) as [Hlen | Hlen];
      [right | by left].
    apply Nat.eqb_neq. intros Hsize.
    assert (is_valid_selcal code = true) as Hyes; [| congruence].
    apply is_valid_selcal_spec. split; [done |].
    apply size_list_to_set_NoDup. unfold set_of_str in Hsize.
    by rewrite Hsize, length_list_ascii.
Qed.
